(** * Spirit Island play tracker: aggregation and recommendation core

A shallow embedding of the statistics core of
[src/SpiritIslandTracker.tsx] (the second, adversary-aware revision of
the component) together with the properties its specification states.

Modelling conventions.
- A JavaScript object used as a dictionary and only ever read by key
  ([playerStats], [adversaryStats], the per-adversary level table, the
  recommendation tables) is a [gmap].  [playStats] is also enumerated
  with [Object.values], so it is a [JsObject.t]: a [gmap] together with
  the list of its keys in the order of their creation, enumerated with
  the array indices first.  Property names are data (spirit, adversary
  and player names).  A read of [playStats] by name sees the own
  properties in the pure definitions, and also the names inherited from
  [Object.prototype] in the definitions with exceptions.
- [Object.prototype] is taken as the host provides it and is never
  changed: a catalog spirit or a participant named [__proto__], through
  which the code would replace or extend a prototype, is outside the
  model.
- [number] values that the code only uses as counters are [nat]; levels
  and difficulties are [Z].
- [string | null] is [option string]; the code tests such values for
  truthiness, and the empty string is falsy.
- A [Date] is its time value: [Some t] (milliseconds) or [None] for an
  invalid date, whose comparisons are all false.
- The host functions [Date.parse] and [Date.prototype.toLocaleDateString]
  are parameters of the development; the clock ([new Date()]) and the
  draws of [Math.random()] are explicit arguments of the functions that
  read them.
- A function that can throw is given a second definition in the [Exn]
  monad, where reading a property of [undefined] is a [TypeError]. *)

From Stdlib Require Import ZArith Ascii String.
From stdpp Require Import base decidable option list gmap strings pretty sorting.

Set Warnings "-clear-no-such-hyp".
Set Default Proof Using "Type".

Local Open Scope string_scope.
Local Open Scope list_scope.
Local Open Scope Z_scope.

(** ** Array.prototype.sort

The sort is stable and, for a consistent comparator, its result is the
unique stable arrangement in comparator order; it is modelled by a stable
insertion sort.  A comparator returns a number whose sign decides. *)

Fixpoint sort_insert {A} (cmp : A → A → Z) (x : A) (l : list A) : list A :=
  match l with
  | [] => [x]
  | y :: l' => if 0 <? cmp x y then y :: sort_insert cmp x l' else x :: y :: l'
  end.

Definition js_sort {A} (cmp : A → A → Z) (l : list A) : list A :=
  foldr (sort_insert cmp) [] l.

(** [a < b] on strings: lexicographic on code units. *)
Definition str_lt (a b : string) : bool := String.ltb a b.

(** The relational comparison pattern shared by the comparators of the
    component: [-1] if [lt a b], [1] if [lt b a], [0] otherwise. *)
Definition three_way {A} (lt : A → A → bool) (a b : A) : Z :=
  if lt a b then -1 else if lt b a then 1 else 0.

(** [.sort()] without a comparator, on strings. *)
Definition js_sort_default (l : list string) : list string :=
  js_sort (three_way str_lt) l.

(** ** JavaScript objects with enumeration order

An object lists its own keys in the order of [OrdinaryOwnPropertyKeys]:
the keys that are array indices first, in ascending numeric order, then
the other keys in the order they were created. *)

(** The value of a decimal digit. *)
Definition digit (c : ascii) : option N :=
  let n := N_of_ascii c in
  if ((48 <=? n) && (n <=? 57))%N then Some (n - 48)%N else None.

(** The number that a string of decimal digits denotes, after [acc]. *)
Fixpoint digits (acc : N) (s : string) : option N :=
  match s with
  | EmptyString => Some acc
  | String c s' =>
      match digit c with
      | Some d => digits (10 * acc + d)%N s'
      | None => None
      end
  end.

(** An array index: the canonical numeral (no sign, no leading zero) of an
    integer from 0 to 2^32 - 2. *)
Definition arrayIndex (k : string) : option N :=
  match k with
  | EmptyString => None
  | String c s' =>
      if Ascii.eqb c "0" && negb (String.eqb s' "") then None
      else
        match digits 0 k with
        | Some n => if (n <=? 4294967294)%N then Some n else None
        | None => None
        end
  end.

(** The comparison of two keys by the numbers they denote. *)
Definition compareIndex (a b : string) : Z :=
  Z.of_N (default 0%N (arrayIndex a)) - Z.of_N (default 0%N (arrayIndex b)).

(** The enumeration order of keys created in the order [keys]. *)
Definition enumeration (keys : list string) : list string :=
  js_sort compareIndex (filter (λ k, is_Some (arrayIndex k)) keys)
  ++ filter (λ k, arrayIndex k = None) keys.

(** The property names that every plain object inherits from
    [Object.prototype].  Each reads as a truthy value, a built-in function
    or, for [__proto__], the prototype itself, and none of these values
    has a property of the component's data. *)
Definition Object_prototype : list string :=
  ["constructor"; "__defineGetter__"; "__defineSetter__"; "hasOwnProperty";
   "__lookupGetter__"; "__lookupSetter__"; "isPrototypeOf";
   "propertyIsEnumerable"; "toString"; "valueOf"; "__proto__";
   "toLocaleString"].

Module JsObject.

Record t (V : Type) : Type := mk {
  keys : list string;
  props : gmap string V
}.
Arguments mk {V} _ _.
Arguments keys {V} _.
Arguments props {V} _.

Definition empty {V} : t V := mk [] ∅.

(** [o[k]], on the own properties of [o]. *)
Definition get {V} (o : t V) (k : string) : option V := props o !! k.

(** What [o[k]] evaluates to: the value of an own property, a value
    inherited from [Object.prototype], or [undefined]. *)
Inductive property (V : Type) : Type :=
| Own (v : V)
| Inherited
| Undefined.
Arguments Own {V} _.
Arguments Inherited {V}.
Arguments Undefined {V}.

Definition lookup {V} (o : t V) (k : string) : property V :=
  match props o !! k with
  | Some v => Own v
  | None => if decide (k ∈ Object_prototype) then Inherited else Undefined
  end.

(** [o[k] = v]: a new key is created last, an existing key keeps its
    place. *)
Definition set {V} (o : t V) (k : string) (v : V) : t V :=
  mk (match props o !! k with
      | Some _ => keys o
      | None => keys o ++ [k]
      end)
     (<[k := v]> (props o)).

(** [Object.keys(o)] *)
Definition ownKeys {V} (o : t V) : list string := enumeration (keys o).

(** [Object.values(o)] *)
Definition values {V} (o : t V) : list V :=
  omap (λ k, props o !! k) (ownKeys o).

(** The keys enumerate the domain, each once. *)
Definition wf {V} (o : t V) : Prop :=
  NoDup (keys o) ∧ ∀ k, k ∈ keys o ↔ is_Some (props o !! k).

End JsObject.

(** [Array.from(new Set(l))]: first occurrences, in order. *)
Definition js_Set_from (l : list string) : list string :=
  foldl (λ acc x, if decide (x ∈ acc) then acc else acc ++ [x]) [] l.

(** ** Data model (the interfaces of the component) *)

Module Player.
Record t : Type := mk { player : string; spirit : string }.
End Player.

Module Play.
Record t : Type := mk {
  date : string;
  players : list Player.t;
  adversary : option string;
  level : option Z
}.
End Play.

Module Spirit.
Record t : Type := mk {
  spirit : string;
  complexity : string;
  source : string;
  image_url : string
}.
End Spirit.

Module Level.
Record t : Type := mk {
  Level : Z;
  Difficulty : Z;
  Fear_Cards : string;
  Game_Effects : string
}.
End Level.

Module Adversary.
Record t : Type := mk {
  Adversary : string;
  Base_Difficulty : Z;
  Additional_Loss_Condition : string;
  URL : string;
  Escalation : string;
  Levels : list Level.t
}.
End Adversary.

Module PlayerStats.
Record t : Type := mk { plays : nat; lastPlayed : option string }.
End PlayerStats.

Module PlayStats.
Record t : Type := mk {
  spirit : Spirit.t;
  playerStats : gmap string PlayerStats.t
}.
End PlayStats.

Module AdversaryLevelStats.
Record t : Type := mk {
  plays : nat;
  lastPlayed : option string;
  difficulty : Z
}.
End AdversaryLevelStats.

(** Truthiness of a [string | null] value. *)
Definition truthy (o : option string) : bool :=
  match o with
  | Some s => negb (String.eqb s "")
  | None => false
  end.

(** Relational comparison of two [Date]s by time value; an invalid date
    makes every comparison false. *)
Definition Date_lt (a b : option Z) : bool :=
  match a, b with
  | Some x, Some y => x <? y
  | _, _ => false
  end.

Definition Date_gt (a b : option Z) : bool := Date_lt b a.

(** [const uniquePlayers = Array.from(new Set(...)).filter(...).sort()] *)
Definition uniquePlayers (plays : list Play.t) : list string :=
  js_sort_default
    (filter (λ player, player = "A" ∨ player = "E")
       (js_Set_from
          (flat_map (λ play, map Player.player (Play.players play)) plays))).

Section Core.

(** [new Date(s)]: the time value of a date string. *)
Variable new_Date : string → option Z.

(** [d.toLocaleDateString()] for a valid date [d]. *)
Variable toLocaleDateString : Z → string.

(** *** Play aggregator: characters *)

(** The body of the guarded block of [buildPlayStats], on one cell. *)
Definition countPlay (date : string) (st : PlayerStats.t) : PlayerStats.t :=
  PlayerStats.mk
    (S (PlayerStats.plays st))
    (let currentLastPlayed := PlayerStats.lastPlayed st in
     if negb (truthy currentLastPlayed)
        || Date_gt (new_Date date) (currentLastPlayed ≫= new_Date)
     then Some date
     else currentLastPlayed).

Definition zeroPlayerStats : PlayerStats.t := PlayerStats.mk 0 None.

Definition initPlayerStats (ups : list string) : gmap string PlayerStats.t :=
  foldl (λ m player, <[player := zeroPlayerStats]> m) ∅ ups.

Definition initPlayStats (spirits : list Spirit.t) (ups : list string)
  : JsObject.t PlayStats.t :=
  foldl (λ stats spirit,
           JsObject.set stats (Spirit.spirit spirit)
             (PlayStats.mk spirit (initPlayerStats ups)))
        JsObject.empty spirits.

Definition recordPlayer (date : string) (stats : JsObject.t PlayStats.t)
    (p : Player.t) : JsObject.t PlayStats.t :=
  match JsObject.get stats (Player.spirit p) with
  | Some row =>
      match PlayStats.playerStats row !! Player.player p with
      | Some cell =>
          JsObject.set stats (Player.spirit p)
            (PlayStats.mk (PlayStats.spirit row)
               (<[Player.player p := countPlay date cell]>
                  (PlayStats.playerStats row)))
      | None => stats
      end
  | None => stats
  end.

Definition recordPlay (stats : JsObject.t PlayStats.t) (play : Play.t)
  : JsObject.t PlayStats.t :=
  foldl (recordPlayer (Play.date play)) stats (Play.players play).

Definition buildPlayStats (plays : list Play.t) (spirits : list Spirit.t)
  : JsObject.t PlayStats.t :=
  foldl recordPlay (initPlayStats spirits (uniquePlayers plays)) plays.

(** *** Play aggregator: adversaries *)

Definition countAdversaryPlay (date : string) (st : AdversaryLevelStats.t)
  : AdversaryLevelStats.t :=
  AdversaryLevelStats.mk
    (S (AdversaryLevelStats.plays st))
    (let currentLastPlayed := AdversaryLevelStats.lastPlayed st in
     if negb (truthy currentLastPlayed)
        || Date_gt (new_Date date) (currentLastPlayed ≫= new_Date)
     then Some date
     else currentLastPlayed)
    (AdversaryLevelStats.difficulty st).

Definition initLevelStats (adversary : Adversary.t)
  : gmap Z AdversaryLevelStats.t :=
  foldl (λ m level,
           <[Level.Level level :=
               AdversaryLevelStats.mk 0 None (Level.Difficulty level)]> m)
        {[ 0 := AdversaryLevelStats.mk 0 None
                  (Adversary.Base_Difficulty adversary) ]}
        (Adversary.Levels adversary).

Definition initAdversaryStats (adversaries : list Adversary.t)
  : gmap string (gmap Z AdversaryLevelStats.t) :=
  foldl (λ stats adversary,
           <[Adversary.Adversary adversary := initLevelStats adversary]> stats)
        ∅ adversaries.

Definition recordAdversaryPlay
    (stats : gmap string (gmap Z AdversaryLevelStats.t)) (play : Play.t)
  : gmap string (gmap Z AdversaryLevelStats.t) :=
  match Play.adversary play with
  | Some adversary =>
      if truthy (Some adversary) then
        match stats !! adversary with
        | Some levels =>
            let level := default 0 (Play.level play) in
            match levels !! level with
            | Some st =>
                <[adversary :=
                    <[level := countAdversaryPlay (Play.date play) st]> levels]>
                  stats
            | None => stats
            end
        | None => stats
        end
      else stats
  | None => stats
  end.

Definition buildAdversaryStats (plays : list Play.t)
    (adversaries : list Adversary.t)
  : gmap string (gmap Z AdversaryLevelStats.t) :=
  foldl recordAdversaryPlay (initAdversaryStats adversaries) plays.

(** *** Recommendation engine: adversaries *)

Definition Date_toLocaleDateString (d : option Z) : string :=
  match d with
  | Some t => toLocaleDateString t
  | None => "Invalid Date"
  end.

Definition formatDate (dateString : option string) : string :=
  if truthy dateString
  then Date_toLocaleDateString (dateString ≫= new_Date)
  else "Never".

(** One iteration of [for (let i = 0; i <= 6; i++)], on the pair
    [(highestLevelPlayed, mostRecentDate)]. *)
Definition scanLevel (levels : option (gmap Z AdversaryLevelStats.t))
    (acc : Z * option string) (i : Z) : Z * option string :=
  match levels ≫= (.!! i) with
  | None => acc
  | Some levelStats =>
      if (0 <? AdversaryLevelStats.plays levelStats)%nat then
        (Z.max (fst acc) i,
         let lastPlayed := AdversaryLevelStats.lastPlayed levelStats in
         if truthy lastPlayed then
           if negb (truthy (snd acc))
              || Date_gt (lastPlayed ≫= new_Date) (snd acc ≫= new_Date)
           then lastPlayed
           else snd acc
         else snd acc)
      else acc
  end.

Definition scanLevels (levels : option (gmap Z AdversaryLevelStats.t))
  : Z * option string :=
  foldl (scanLevel levels) (-1, None) [0; 1; 2; 3; 4; 5; 6].

Definition levelDifficulty (adversary : Adversary.t) (nextLevel : Z) : Z :=
  if nextLevel =? 0 then Adversary.Base_Difficulty adversary
  else
    match List.find (λ lvl, Level.Level lvl =? nextLevel)
                    (Adversary.Levels adversary) with
    | Some levelData => Level.Difficulty levelData
    | None => Adversary.Base_Difficulty adversary
    end.

End Core.

Module AdversaryRecommendation.
Record t : Type := mk {
  adversary : string;
  level : Z;
  difficulty : Z;
  lastPlayed : option string;
  reason : string
}.
End AdversaryRecommendation.

Module Recommendation.
Record t : Type := mk { spirit : Spirit.t; reason : string }.
End Recommendation.

(** A draw of [Math.random()]: the number [numer / (numer + slack + 1)],
    which lies in the interval from 0 (included) to 1 (excluded). *)
Module Random.
Record t : Type := mk { numer : nat; slack : nat }.

(** [Math.floor(r * length)] *)
Definition index (r : t) (length : nat) : nat :=
  ((numer r * length) `div` (numer r + slack r + 1))%nat.
End Random.

#[global] Instance Spirit_inhabited : Inhabited Spirit.t :=
  populate (Spirit.mk "" "" "" "").

Section Engine.

Variable new_Date : string → option Z.
Variable toLocaleDateString : Z → string.

Definition adversaryRecommendationFor
    (adversaryStats : gmap string (gmap Z AdversaryLevelStats.t))
    (adversary : Adversary.t) : AdversaryRecommendation.t :=
  let scan :=
    scanLevels new_Date (adversaryStats !! Adversary.Adversary adversary) in
  let highestLevelPlayed := fst scan in
  let mostRecentDate := snd scan in
  let nextLevel := Z.min (highestLevelPlayed + 1) 6 in
  AdversaryRecommendation.mk
    (Adversary.Adversary adversary)
    nextLevel
    (levelDifficulty adversary nextLevel)
    mostRecentDate
    (if truthy mostRecentDate
     then "Last played " +:+ formatDate new_Date toLocaleDateString mostRecentDate
     else "Never played").

(** The comparator of [recommendations.sort]; a [NaN] difference counts
    as zero. *)
Definition compareLastPlayed (a b : AdversaryRecommendation.t) : Z :=
  match AdversaryRecommendation.lastPlayed a,
        AdversaryRecommendation.lastPlayed b with
  | None, None => 0
  | None, Some _ => -1
  | Some _, None => 1
  | Some x, Some y =>
      match new_Date x, new_Date y with
      | Some tx, Some ty => tx - ty
      | _, _ => 0
      end
  end.

Definition getAdversaryRecommendation (plays : list Play.t)
    (adversaries : list Adversary.t) : list AdversaryRecommendation.t :=
  let adversaryStats := buildAdversaryStats new_Date plays adversaries in
  js_sort compareLastPlayed
    (map (adversaryRecommendationFor adversaryStats) adversaries).

(** *** Recommendation engine: spirits *)

Definition complexityLevels : list string :=
  ["LOW"; "MODERATE"; "HIGH"; "VERY HIGH"].

(** [playStats[s.spirit].playerStats[player]]; the cell exists for every
    catalog spirit and unique player ([cell_exists] below). *)
Definition cell (playStats : JsObject.t PlayStats.t) (spirit player : string)
  : option PlayerStats.t :=
  JsObject.get playStats spirit ≫= λ row, PlayStats.playerStats row !! player.

Definition cellPlays (playStats : JsObject.t PlayStats.t)
    (spirit player : string) : nat :=
  from_option PlayerStats.plays 0%nat (cell playStats spirit player).

Definition cellLastPlayed (playStats : JsObject.t PlayStats.t)
    (spirit player : string) : option string :=
  cell playStats spirit player ≫= PlayerStats.lastPlayed.

(** One iteration of [complexitySpirits.forEach], on the pair
    [(oldestPlayedSpirit, oldestDate)]. *)
Definition olderSpirit (playStats : JsObject.t PlayStats.t) (player : string)
    (acc : option Spirit.t * Z) (s : Spirit.t) : option Spirit.t * Z :=
  let lastPlayed := cellLastPlayed playStats (Spirit.spirit s) player in
  if truthy lastPlayed then
    match lastPlayed ≫= new_Date with
    | Some t => if t <? snd acc then (Some s, t) else acc
    | None => acc
    end
  else acc.

(** The body of [complexityLevels.forEach], given the draw that
    [Math.random()] would return; the result says whether it was used.
    [playStats[s.spirit].playerStats[player].plays] is read through
    [cellPlays]: [getRecommendations] runs this body for the participants
    and the catalog spirits, whose cells exist. *)
Definition recommendTier (now : Z) (playStats : JsObject.t PlayStats.t)
    (spirits : list Spirit.t) (player complexity : string) (draw : Random.t)
  : option Recommendation.t * bool :=
  let complexitySpirits :=
    filter (λ s, Spirit.complexity s = complexity) spirits in
  let unplayedSpirits :=
    filter (λ s, cellPlays playStats (Spirit.spirit s) player = 0%nat)
           complexitySpirits in
  if (0 <? length unplayedSpirits)%nat then
    let randomIndex := Random.index draw (length unplayedSpirits) in
    (Some (Recommendation.mk (unplayedSpirits !!! randomIndex) "Never played"),
     true)
  else
    let oldest :=
      foldl (olderSpirit playStats player) (None, now) complexitySpirits in
    (match fst oldest with
     | Some oldestPlayedSpirit =>
         Some (Recommendation.mk oldestPlayedSpirit
                 ("Last played " +:+ toLocaleDateString (snd oldest)))
     | None => None
     end, false).

(** The state threaded through the loops of [getRecommendations]: the
    number of draws consumed so far and the table being filled. *)
Definition tierStep (now : Z) (random : nat → Random.t)
    (playStats : JsObject.t PlayStats.t) (spirits : list Spirit.t)
    (player : string) (st : nat * gmap string Recommendation.t)
    (complexity : string) : nat * gmap string Recommendation.t :=
  let r := recommendTier now playStats spirits player complexity
             (random (fst st)) in
  ((if snd r then S (fst st) else fst st),
   match fst r with
   | Some rec => <[complexity := rec]> (snd st)
   | None => snd st
   end).

Definition playerStep (now : Z) (random : nat → Random.t)
    (playStats : JsObject.t PlayStats.t) (spirits : list Spirit.t)
    (st : nat * gmap string (gmap string Recommendation.t)) (player : string)
  : nat * gmap string (gmap string Recommendation.t) :=
  let tiers :=
    foldl (tierStep now random playStats spirits player) (fst st, ∅)
          complexityLevels in
  (fst tiers, <[player := snd tiers]> (snd st)).

Definition getRecommendations (now : Z) (random : nat → Random.t)
    (plays : list Play.t) (spirits : list Spirit.t)
  : gmap string (gmap string Recommendation.t) :=
  let playStats := buildPlayStats new_Date plays spirits in
  snd (foldl (playerStep now random playStats spirits) (0%nat, ∅)
             (uniquePlayers plays)).

End Engine.

(** ** Sort projector *)

Inductive Direction : Type := asc | desc.

Module SortConfig.
Record t : Type := mk { key : string; direction : Direction }.
End SortConfig.

#[global] Instance Direction_eq_dec : EqDecision Direction.
Proof. solve_decision. Defined.

Definition handleSort (sortConfig : option SortConfig.t) (key : string)
  : option SortConfig.t :=
  Some (SortConfig.mk key
          (match sortConfig with
           | Some c =>
               if decide (SortConfig.key c = key
                          ∧ SortConfig.direction c = asc)
               then desc else asc
           | None => asc
           end)).

(** [s.startsWith(p)] *)
Fixpoint startsWith (s p : string) : bool :=
  match p, s with
  | EmptyString, _ => true
  | String a p', String b s' => if decide (a = b) then startsWith s' p' else false
  | String _ _, EmptyString => false
  end.

(** [s.split(sep)] for a one-character separator. *)
Fixpoint split (sep : ascii) (s : string) : list string :=
  match s with
  | EmptyString => [""]
  | String a s' =>
      if decide (a = sep) then "" :: split sep s'
      else match split sep s' with
           | h :: t => String a h :: t
           | [] => [String a ""]
           end
  end.

(** [spirit[key]] for a property name [key]. *)
Definition spiritField (key : string) (s : Spirit.t) : option string :=
  if decide (key = "spirit") then Some (Spirit.spirit s)
  else if decide (key = "complexity") then Some (Spirit.complexity s)
  else if decide (key = "source") then Some (Spirit.source s)
  else if decide (key = "image_url") then Some (Spirit.image_url s)
  else None.

(** [a < b] where either side may be [undefined]. *)
Definition field_lt (a b : option string) : bool :=
  match a, b with
  | Some x, Some y => str_lt x y
  | _, _ => false
  end.

(** The two kinds of value the per-player branch of the comparator
    produces: a count for [statKey = "plays"], a string otherwise. *)
Inductive SortValue : Type :=
| VNum (n : nat)
| VStr (s : string).

(** [row.playerStats[playerKey]?.[statKey] || (statKey === "plays" ? 0 : "")] *)
Definition sortValue (playerKey statKey : string) (row : PlayStats.t)
  : SortValue :=
  let cell := PlayStats.playerStats row !! playerKey in
  if decide (statKey = "plays") then
    VNum (from_option PlayerStats.plays 0%nat cell)
  else if decide (statKey = "lastPlayed") then
    VStr (default "" (cell ≫= PlayerStats.lastPlayed))
  else VStr "".

Definition value_lt (a b : SortValue) : bool :=
  match a, b with
  | VNum x, VNum y => (x <? y)%nat
  | VStr x, VStr y => str_lt x y
  | _, _ => false
  end.

Definition directed (direction : Direction) (lt gt : bool) : Z :=
  if lt then match direction with asc => -1 | desc => 1 end
  else if gt then match direction with asc => 1 | desc => -1 end
  else 0.

(** The comparator of [sortableItems.sort]. *)
Definition compareRows (sortConfig : SortConfig.t) (a b : PlayStats.t) : Z :=
  let key := SortConfig.key sortConfig in
  if startsWith key "player-" then
    let playerKey := default "undefined" (split "-" key !! 1%nat) in
    let statKey := default "undefined" (split "-" key !! 2%nat) in
    let aValue := sortValue playerKey statKey a in
    let bValue := sortValue playerKey statKey b in
    directed (SortConfig.direction sortConfig)
      (value_lt aValue bValue) (value_lt bValue aValue)
  else
    let aField := spiritField key (PlayStats.spirit a) in
    let bField := spiritField key (PlayStats.spirit b) in
    directed (SortConfig.direction sortConfig)
      (field_lt aField bField) (field_lt bField aField).

Definition sortedPlayStats (playStats : JsObject.t PlayStats.t)
    (sortConfig : option SortConfig.t) : list PlayStats.t :=
  let sortableItems := JsObject.values playStats in
  match sortConfig with
  | Some c => js_sort (compareRows c) sortableItems
  | None => sortableItems
  end.

(** ** Summary reducer *)

Module MostPlayed.
Record t : Type := mk { spirit : string; plays : nat }.
End MostPlayed.

Definition playerTotalPlays (playStats : JsObject.t PlayStats.t)
    (player : string) : nat :=
  foldl (λ total row,
           (total + from_option PlayerStats.plays 0
                      (PlayStats.playerStats row !! player))%nat)
        0%nat (JsObject.values playStats).

Definition mostPlayedSpirit (playStats : JsObject.t PlayStats.t)
    (player : string) : MostPlayed.t :=
  foldl (λ most row,
           let plays :=
             from_option PlayerStats.plays 0%nat
               (PlayStats.playerStats row !! player) in
           if (MostPlayed.plays most <? plays)%nat
           then MostPlayed.mk (Spirit.spirit (PlayStats.spirit row)) plays
           else most)
        (MostPlayed.mk "" 0) (JsObject.values playStats).

(** The "Favorite spirit" line, rendered only under
    [mostPlayedSpirit.plays > 0]. *)
Definition favoriteLine (playStats : JsObject.t PlayStats.t) (player : string)
  : option MostPlayed.t :=
  let most := mostPlayedSpirit playStats player in
  if (0 <? MostPlayed.plays most)%nat then Some most else None.

(** ** A host instance

The date-only form [YYYY-MM-DD] of the date-time string format, read as
UTC midnight, and the [en-US] rendering [M/D/YYYY] in UTC.  Used to run
the definitions on concrete logs. *)

Module Host.

Definition digit (a : ascii) : option Z :=
  let n := Z.of_nat (nat_of_ascii a) - 48 in
  if (0 <=? n) && (n <=? 9) then Some n else None.

Definition isLeap (y : Z) : bool :=
  ((y mod 4 =? 0) && negb (y mod 100 =? 0)) || (y mod 400 =? 0).

Definition daysInMonth (y m : Z) : Z :=
  if m =? 2 then (if isLeap y then 29 else 28)
  else if (m =? 4) || (m =? 6) || (m =? 9) || (m =? 11) then 30
  else 31.

(** Days from 1970-01-01 to the civil date [y-m-d]. *)
Definition daysFromCivil (y m d : Z) : Z :=
  let y' := if m <=? 2 then y - 1 else y in
  let era := y' `div` 400 in
  let yoe := y' - era * 400 in
  let mp := if 2 <? m then m - 3 else m + 9 in
  let doy := (153 * mp + 2) `div` 5 + d - 1 in
  let doe := yoe * 365 + yoe `div` 4 - yoe `div` 100 + doy in
  era * 146097 + doe - 719468.

Definition msPerDay : Z := 86400000.

Definition new_Date (s : string) : option Z :=
  match list_ascii_of_string s with
  | [y1; y2; y3; y4; h1; m1; m2; h2; d1; d2] =>
      if decide (h1 = "-"%char ∧ h2 = "-"%char) then
        a ← digit y1; b ← digit y2; c ← digit y3; e ← digit y4;
        f ← digit m1; g ← digit m2; h ← digit d1; i ← digit d2;
        let y := 1000 * a + 100 * b + 10 * c + e in
        let m := 10 * f + g in
        let d := 10 * h + i in
        if (1 <=? m) && (m <=? 12) && (1 <=? d) && (d <=? daysInMonth y m)
        then Some (daysFromCivil y m d * msPerDay)
        else None
      else None
  | _ => None
  end.

(** The civil date of a day number, as [(y, m, d)]. *)
Definition civilFromDays (z : Z) : Z * Z * Z :=
  let z := z + 719468 in
  let era := z `div` 146097 in
  let doe := z - era * 146097 in
  let yoe :=
    (doe - doe `div` 1460 + doe `div` 36524 - doe `div` 146096) `div` 365 in
  let doy := doe - (365 * yoe + yoe `div` 4 - yoe `div` 100) in
  let mp := (5 * doy + 2) `div` 153 in
  let d := doy - (153 * mp + 2) `div` 5 + 1 in
  let m := if mp <? 10 then mp + 3 else mp - 9 in
  (yoe + era * 400 + (if m <=? 2 then 1 else 0), m, d).

Definition toLocaleDateString (t : Z) : string :=
  let '(y, m, d) := civilFromDays (t `div` msPerDay) in
  pretty m +:+ "/" +:+ pretty d +:+ "/" +:+ pretty y.

End Host.

(** ** Specification-side vocabulary *)

(** The dates contributed by one play record to the pair of [spirit] and
    [player]: one per matching entry of its [players] list. *)
Definition pairDates (spirit player : string) (play : Play.t) : list string :=
  map (λ _, Play.date play)
      (filter (λ p, Player.spirit p = spirit ∧ Player.player p = player)
              (Play.players play)).

(** All contributions of a log to a pair, in log order. *)
Definition contributions (spirit player : string) (plays : list Play.t)
  : list string :=
  flat_map (pairDates spirit player) plays.

#[global] Instance Player_eq_dec : EqDecision Player.t.
Proof. solve_decision. Defined.

(** The play records whose [players] list contains the pair. *)
Definition recordsWith (spirit player : string) (plays : list Play.t)
  : list Play.t :=
  filter (λ play, Player.mk player spirit ∈ Play.players play) plays.

(** A cell after a sequence of counted plays, given by their dates. *)
Definition counted (new_Date : string → option Z) (dates : list string)
    (st : PlayerStats.t) : PlayerStats.t :=
  foldl (λ st d, countPlay new_Date d st) st dates.

(** The later of two optional time values. *)
Definition Date_max (a b : option Z) : option Z :=
  match a, b with
  | Some x, Some y => Some (Z.max x y)
  | Some x, None => Some x
  | None, _ => b
  end.

(** The greatest time value among a list of dates; none for no dates. *)
Definition latest (new_Date : string → option Z) (dates : list string)
  : option Z :=
  foldr (λ d, Date_max (new_Date d)) None dates.

(** A date string the host parses: non-empty and with a time value. *)
Definition validDate (new_Date : string → option Z) (d : string) : Prop :=
  d ≠ "" ∧ is_Some (new_Date d).

Definition validLog (new_Date : string → option Z) (plays : list Play.t)
  : Prop :=
  Forall (λ play, validDate new_Date (Play.date play)) plays.

(** Concrete catalog entries and logs, used to run the definitions. *)
Module Sample.

Definition river : Spirit.t := Spirit.mk "River" "LOW" "Base" "river.png".
Definition jagged : Spirit.t :=
  Spirit.mk "Jagged Earth" "HIGH" "Expansion" "jagged.png".
Definition thunder : Spirit.t :=
  Spirit.mk "Thunderspeaker" "MODERATE" "Base" "thunder.png".

Definition session (date : string) (players : list Player.t) : Play.t :=
  Play.mk date players None None.

(** The three dates of the specification's last-played example. *)
Definition threeDates : list Play.t :=
  [session "2024-01-01" [Player.mk "A" "River"; Player.mk "E" "Jagged Earth"];
   session "2024-03-15" [Player.mk "A" "River"];
   session "2024-02-10" [Player.mk "A" "River"; Player.mk "E" "River"]].

(** The specification's summary example: three plays of Jagged Earth and
    one of River by the same player. *)
Definition favorites : list Play.t :=
  [session "2024-01-05" [Player.mk "E" "Jagged Earth"];
   session "2024-01-12" [Player.mk "E" "River"];
   session "2024-02-02" [Player.mk "E" "Jagged Earth"];
   session "2024-02-20" [Player.mk "E" "Jagged Earth"]].

(** The specification's sort example: with the catalog River,
    Thunderspeaker, Jagged Earth, player A has 0, 2 and 1 plays. *)
Definition sortLog : list Play.t :=
  [session "2024-01-05" [Player.mk "A" "Thunderspeaker"];
   session "2024-01-12" [Player.mk "A" "Jagged Earth"];
   session "2024-02-02" [Player.mk "A" "Thunderspeaker"]].

(** A play of Thunderspeaker dated 2030-01-01, read on 2024-06-01 and on
    2031-01-01; River is in the catalog and was never played. *)
Definition postdated : list Play.t :=
  [session "2030-01-01" [Player.mk "A" "Thunderspeaker"]].

Definition june2024 : Z := 1717200000000.

Definition january2031 : Z := 1924992000000.

(** The draw 0 at every call of [Math.random()]. *)
Definition zeros : nat → Random.t := λ _, Random.mk 0 0.

(** One record that lists the same pair twice. *)
Definition twice : list Play.t :=
  [session "2024-01-01" [Player.mk "A" "River"; Player.mk "A" "River"]].

End Sample.

(** A stored last-played value that came from valid dates. *)
Definition goodLast (new_Date : string → option Z) (o : option string) : Prop :=
  match o with
  | Some c => validDate new_Date c
  | None => True
  end.

#[global] Instance Spirit_eq_dec : EqDecision Spirit.t.
Proof. solve_decision. Defined.

#[global] Instance Level_eq_dec : EqDecision Level.t.
Proof. solve_decision. Defined.

#[global] Instance Adversary_eq_dec : EqDecision Adversary.t.
Proof. solve_decision. Defined.

(** Two tables with the same keys and the same spirit in every row. *)
Definition sameShape (o o' : JsObject.t PlayStats.t) : Prop :=
  JsObject.keys o' = JsObject.keys o
  ∧ (JsObject.wf o → JsObject.wf o')
  ∧ ∀ c, PlayStats.spirit <$> JsObject.get o' c
         = PlayStats.spirit <$> JsObject.get o c.

(** ** The aggregators with exceptions

The same two functions, statement by statement, where every read of a
property of a value that may be [undefined] is checked. *)

Inductive Exn (A : Type) : Type :=
| Ok (a : A)
| TypeError.
Arguments Ok {A} _.
Arguments TypeError {A}.

#[global] Instance Exn_ret : MRet Exn := λ A a, Ok a.
#[global] Instance Exn_bind : MBind Exn :=
  λ A B f m, match m with Ok a => f a | TypeError => TypeError end.

(** [o.f] where [o] was looked up and may be [undefined]. *)
Definition deref {A} (o : option A) : Exn A :=
  match o with
  | Some a => Ok a
  | None => TypeError
  end.

(** [l.forEach(x => body)] over a state, stopping at the first exception. *)
Fixpoint forEach {A B} (l : list B) (body : A → B → Exn A) (a : A) : Exn A :=
  match l with
  | [] => Ok a
  | x :: l' => a' ← body a x; forEach l' body a'
  end.

Section CoreExn.

Variable new_Date : string → option Z.

Definition initSpirit_exn (ups : list string)
    (stats : JsObject.t PlayStats.t) (spirit : Spirit.t)
  : Exn (JsObject.t PlayStats.t) :=
  let name := Spirit.spirit spirit in
  forEach ups
    (λ stats player,
       row ← deref (JsObject.get stats name);
       Ok (JsObject.set stats name
             (PlayStats.mk (PlayStats.spirit row)
                (<[player := PlayerStats.mk 0 None]>
                   (PlayStats.playerStats row)))))
    (JsObject.set stats name (PlayStats.mk spirit ∅)).

Definition recordPlayer_exn (date : string)
    (stats : JsObject.t PlayStats.t) (p : Player.t)
  : Exn (JsObject.t PlayStats.t) :=
  let player := Player.player p in
  let spirit := Player.spirit p in
  (* stats[spirit] && stats[spirit].playerStats[player] *)
  match JsObject.lookup stats spirit with
  | JsObject.Undefined => Ok stats
  | JsObject.Inherited =>
      (* a truthy value without [playerStats]: [undefined[player]] *)
      TypeError
  | JsObject.Own row =>
      match PlayStats.playerStats row !! player with
      | Some _ =>
          row ← deref (JsObject.get stats spirit);
          cell ← deref (PlayStats.playerStats row !! player);
          Ok (JsObject.set stats spirit
                (PlayStats.mk (PlayStats.spirit row)
                   (<[player := countPlay new_Date date cell]>
                      (PlayStats.playerStats row))))
      | None =>
          (* [undefined], or an inherited value: the body then writes to
             the inherited value, not to the table *)
          Ok stats
      end
  end.

Definition buildPlayStats_exn (plays : list Play.t) (spirits : list Spirit.t)
  : Exn (JsObject.t PlayStats.t) :=
  stats ← forEach spirits (initSpirit_exn (uniquePlayers plays)) JsObject.empty;
  forEach plays
    (λ stats play,
       forEach (Play.players play) (recordPlayer_exn (Play.date play)) stats)
    stats.

Definition initAdversary_exn
    (stats : gmap string (gmap Z AdversaryLevelStats.t))
    (adversary : Adversary.t)
  : Exn (gmap string (gmap Z AdversaryLevelStats.t)) :=
  let name := Adversary.Adversary adversary in
  let stats := <[name := ∅]> stats in
  levels ← deref (stats !! name);
  let stats :=
    <[name := <[0 := AdversaryLevelStats.mk 0 None
                       (Adversary.Base_Difficulty adversary)]> levels]> stats in
  forEach (Adversary.Levels adversary)
    (λ stats level,
       levels ← deref (stats !! name);
       Ok (<[name := <[Level.Level level :=
                         AdversaryLevelStats.mk 0 None
                           (Level.Difficulty level)]> levels]> stats))
    stats.

Definition recordAdversaryPlay_exn
    (stats : gmap string (gmap Z AdversaryLevelStats.t)) (play : Play.t)
  : Exn (gmap string (gmap Z AdversaryLevelStats.t)) :=
  match Play.adversary play with
  | Some adversary =>
      if truthy (Some adversary) && bool_decide (is_Some (stats !! adversary))
      then
        let level := default 0 (Play.level play) in
        levels ← deref (stats !! adversary);
        match levels !! level with
        | Some _ =>
            levels ← deref (stats !! adversary);
            st ← deref (levels !! level);
            Ok (<[adversary :=
                    <[level := countAdversaryPlay new_Date (Play.date play) st]>
                      levels]> stats)
        | None => Ok stats
        end
      else Ok stats
  | None => Ok stats
  end.

Definition buildAdversaryStats_exn (plays : list Play.t)
    (adversaries : list Adversary.t)
  : Exn (gmap string (gmap Z AdversaryLevelStats.t)) :=
  stats ← forEach adversaries initAdversary_exn ∅;
  forEach plays recordAdversaryPlay_exn stats.

End CoreExn.

(** An entry whose character is outside the catalog and names a property
    that every object inherits. *)
Definition namesInherited (spirits : list Spirit.t) (e : Player.t) : Prop :=
  Player.spirit e ∈ Object_prototype
  ∧ Player.spirit e ∉ map Spirit.spirit spirits.

#[global] Instance namesInherited_dec spirits e :
  Decision (namesInherited spirits e).
Proof. unfold namesInherited. apply _. Defined.

(** The own keys of the character table are the names of the catalog. *)
Definition catalogKeys (spirits : list Spirit.t)
    (stats : JsObject.t PlayStats.t) : Prop :=
  ∀ c, is_Some (JsObject.get stats c) ↔ c ∈ map Spirit.spirit spirits.

(** The states of the character table during the play loops: the initial
    table after any sequence of dated entries. *)
Definition reached (new_Date : string → option Z) (spirits : list Spirit.t)
    (ups : list string) (stats : JsObject.t PlayStats.t) : Prop :=
  ∃ entries : list (string * Player.t),
    stats = foldl (λ st de, recordPlayer new_Date de.1 st de.2)
                  (initPlayStats spirits ups) entries.

(** The states of the adversary table during the play loop. *)
Definition reachedAdversary (new_Date : string → option Z)
    (adversaries : list Adversary.t)
    (stats : gmap string (gmap Z AdversaryLevelStats.t)) : Prop :=
  ∃ prefix : list Play.t,
    stats = foldl (recordAdversaryPlay new_Date)
                  (initAdversaryStats adversaries) prefix.

Module SampleAdversaries.

Definition england : Adversary.t :=
  Adversary.mk "England" 1 "Proud and Mighty Capital" "england.html"
    "Building Boom"
    [Level.mk 1 3 "10 (3/4/3)" "Indentured Servants";
     Level.mk 2 4 "11 (4/4/3)" "Criminals and Malcontents"].

Definition sweden : Adversary.t :=
  Adversary.mk "Sweden" 1 "" "sweden.html" "Swayed by the Invaders"
    [Level.mk 1 2 "9 (3/3/3)" "Heavy Mining"].

Definition against (date adversary : string) (level : option Z) : Play.t :=
  Play.mk date [Player.mk "A" "River"] (Some adversary) level.

(** A record with an entry for a spirit outside the catalog and an entry
    for a player outside the recognized pair, and a record against an
    adversary outside the catalog. *)
Definition strays : list Play.t :=
  [Play.mk "2024-01-01"
     [Player.mk "A" "River"; Player.mk "A" "Nameless"; Player.mk "Z" "River"]
     None None;
   against "2024-01-02" "Nobody" (Some 3)].

(** England played at levels 0 and 1, Sweden never. *)
Definition campaign : list Play.t :=
  [against "2024-01-01" "England" None;
   against "2024-03-01" "England" (Some 1)].

(** England is declared with levels 1 and 2; this record names level 5. *)
Definition undeclared : Play.t := against "2024-02-01" "England" (Some 5).

End SampleAdversaries.

(** Level [i] of a level table has at least one recorded play. *)
Definition playedAt (levels : option (gmap Z AdversaryLevelStats.t)) (i : Z)
  : Prop :=
  ∃ st, levels ≫= (.!! i) = Some st ∧ (0 < AdversaryLevelStats.plays st)%nat.

(** [h] is the largest level from 0 to 6 with a recorded play, or [-1]
    when no such level has one. *)
Definition highestPlayed (levels : option (gmap Z AdversaryLevelStats.t))
    (h : Z) : Prop :=
  (h = -1 ∧ ∀ i, 0 ≤ i ≤ 6 → ¬ playedAt levels i)
  ∨ (0 ≤ h ≤ 6 ∧ playedAt levels h
     ∧ ∀ i, 0 ≤ i ≤ 6 → playedAt levels i → i ≤ h).

(** [lvl] is the declared entry of [adversary] for level number [n] (the
    first one, should the catalog repeat a number). *)
Definition declaredAs (adversary : Adversary.t) (n : Z) (lvl : Level.t) : Prop :=
  ∃ pre post,
    Adversary.Levels adversary = pre ++ lvl :: post
    ∧ Level.Level lvl = n
    ∧ ∀ x, x ∈ pre → Level.Level x ≠ n.

(** The last-played dates of the levels among [l] that have a recorded
    play. *)
Definition playedDates (levels : option (gmap Z AdversaryLevelStats.t))
    (l : list Z) : list string :=
  omap (λ i : Z,
          match levels ≫= (.!! i) with
          | Some st =>
              if (0 <? AdversaryLevelStats.plays st)%nat
              then AdversaryLevelStats.lastPlayed st else None
          | None => None
          end) l.

(** No level from 0 to 6 of the table has a recorded play. *)
Definition neverPlayed (levels : option (gmap Z AdversaryLevelStats.t)) : Prop :=
  ∀ i, 0 ≤ i ≤ 6 → ¬ playedAt levels i.

(** Both recommendations carry a date, and the first is not the later. *)
Definition notLater (new_Date : string → option Z)
    (a b : AdversaryRecommendation.t) : Prop :=
  ∃ ta tb,
    AdversaryRecommendation.lastPlayed a ≫= new_Date = Some ta
    ∧ AdversaryRecommendation.lastPlayed b ≫= new_Date = Some tb
    ∧ ta ≤ tb.

(** Every level of a table has a last-played date that came from a valid
    date, and has one as soon as it has a play. *)
Definition goodLevels (new_Date : string → option Z)
    (levels : option (gmap Z AdversaryLevelStats.t)) : Prop :=
  ∀ l st, levels ≫= (.!! l) = Some st →
          goodLast new_Date (AdversaryLevelStats.lastPlayed st)
          ∧ ((0 < AdversaryLevelStats.plays st)%nat →
             is_Some (AdversaryLevelStats.lastPlayed st)).

(** [recommendations[player]?.[complexity]] *)
Definition recommendationFor
    (recommendations : gmap string (gmap string Recommendation.t))
    (player complexity : string) : option Recommendation.t :=
  match recommendations !! player with
  | Some tiers => tiers !! complexity
  | None => None
  end.

(** The time value of the date [player] last played the spirit [s]. *)
Definition lastTime (new_Date : string → option Z)
    (playStats : JsObject.t PlayStats.t) (player : string) (s : Spirit.t)
  : option Z :=
  cellLastPlayed playStats (Spirit.spirit s) player ≫= new_Date.

(** The date the oldest-date search of [getRecommendations] reads for a
    spirit: that of a truthy last-played value. *)
Definition searchTime (new_Date : string → option Z)
    (playStats : JsObject.t PlayStats.t) (player : string) (s : Spirit.t)
  : option Z :=
  let lastPlayed := cellLastPlayed playStats (Spirit.spirit s) player in
  if truthy lastPlayed then lastPlayed ≫= new_Date else None.

(** Every date of the log that has a time value lies before [now]. *)
Definition pastLog (new_Date : string → option Z) (now : Z)
    (plays : list Play.t) : Prop :=
  ∀ play t, play ∈ plays → new_Date (Play.date play) = Some t → t < now.

(** ** The component as a whole

Everything the render computes, as a function of what it reads from its
surroundings: the clock and the random draws. *)

Module Ambient.
Record t : Type := mk { now : Z; random : nat → Random.t }.
End Ambient.

Module Output.
Record t : Type := mk {
  playStats : JsObject.t PlayStats.t;
  adversaryStats : gmap string (gmap Z AdversaryLevelStats.t);
  recommendations : gmap string (gmap string Recommendation.t);
  adversaryRecommendations : list AdversaryRecommendation.t;
  sortedRows : list PlayStats.t;
  summary : list (string * nat * option MostPlayed.t)
}.
End Output.

Definition SpiritIslandTracker (new_Date : string → option Z)
    (toLocaleDateString : Z → string) (ambient : Ambient.t)
    (plays : list Play.t) (spirits : list Spirit.t)
    (adversaries : list Adversary.t) (sortConfig : option SortConfig.t)
  : Output.t :=
  let playStats := buildPlayStats new_Date plays spirits in
  Output.mk
    playStats
    (buildAdversaryStats new_Date plays adversaries)
    (getRecommendations new_Date toLocaleDateString (Ambient.now ambient)
       (Ambient.random ambient) plays spirits)
    (getAdversaryRecommendation new_Date toLocaleDateString plays adversaries)
    (sortedPlayStats playStats sortConfig)
    (map (λ player,
            (player, playerTotalPlays playStats player,
             favoriteLine playStats player))
         (uniquePlayers plays)).

(** ** Further definitions of the component *)

(** [getDifficultyColor] *)
Definition getDifficultyColor (difficulty : Z) : string :=
  if difficulty <=? 3 then "#34D399"
  else if difficulty <=? 7 then "#FBBF24"
  else if difficulty <=? 10 then "#F87171"
  else "#EF4444".

(** The [style] of a difficulty badge in the adversary tables:
    [{ backgroundColor: getDifficultyColor(d), color: d > 7 ? "white" : "black" }]. *)
Module Style.
Record t : Type := mk { backgroundColor : string; color : string }.
End Style.

Definition difficultyBadge (difficulty : Z) : Style.t :=
  Style.mk (getDifficultyColor difficulty)
           (if 7 <? difficulty then "white" else "black").

(** The player names that occur in the [players] lists of a log. *)
Definition mentioned (plays : list Play.t) : list string :=
  flat_map (λ play, map Player.player (Play.players play)) plays.

(** Every recommendation of a table is filed under one of the four tiers
    and names a catalog spirit of that tier. *)
Definition wellTiered (spirits : list Spirit.t)
    (tiers : gmap string Recommendation.t) : Prop :=
  ∀ tier rec, tiers !! tier = Some rec →
    tier ∈ complexityLevels
    ∧ Recommendation.spirit rec ∈ spirits
    ∧ Spirit.complexity (Recommendation.spirit rec) = tier.

(** All entries of the [players] lists of a log, in order. *)
Definition entries (plays : list Play.t) : list Player.t :=
  flat_map Play.players plays.

(** The dates of the records that count for an adversary at a level, in log
    order: the record names the adversary, the name is truthy, and the
    record's level, 0 when it has none, is the level. *)
Definition adversaryDates (adversary : string) (level : Z)
    (plays : list Play.t) : list string :=
  map Play.date
      (filter (λ play, truthy (Play.adversary play)
                       ∧ Play.adversary play = Some adversary
                       ∧ default 0 (Play.level play) = level) plays).

(** A level entry after a sequence of counted plays, given by their dates. *)
Definition countedAdversary (new_Date : string → option Z)
    (dates : list string) (st : AdversaryLevelStats.t)
  : AdversaryLevelStats.t :=
  foldl (λ st d, countAdversaryPlay new_Date d st) st dates.

(** The count and the date of a level entry. *)
Definition levelCell (st : AdversaryLevelStats.t) : PlayerStats.t :=
  PlayerStats.mk (AdversaryLevelStats.plays st)
                 (AdversaryLevelStats.lastPlayed st).

(** The catalog entry that fills the table of a name: the last one of that
    name. *)
Definition catalogEntry (adversary : string) (adversaries : list Adversary.t)
  : option Adversary.t :=
  last (filter (λ adv, Adversary.Adversary adv = adversary) adversaries).

(** The difficulty the table stores for a level of a catalog entry: that of
    the last declared entry of that number, else the base difficulty at
    level 0, else nothing. *)
Definition tableDifficulty (adversary : Adversary.t) (level : Z) : option Z :=
  match last (filter (λ lvl, Level.Level lvl = level)
                     (Adversary.Levels adversary)) with
  | Some lvl => Some (Level.Difficulty lvl)
  | None =>
      if decide (level = 0) then Some (Adversary.Base_Difficulty adversary)
      else None
  end.

(** A catalog with a name that is an array index, and a log in which E
    played both of its spirits once. *)
Module SampleIndices.

Definition seven : Spirit.t := Spirit.mk "7" "LOW" "Base" "seven.png".

Definition catalog : list Spirit.t := [Sample.river; seven].


End SampleIndices.

(** * Properties *)

(** ** Objects with enumeration order *)

Section JsObjectFacts.
Context {V : Type}.
Implicit Types (o : JsObject.t V) (k : string) (v : V).

Lemma get_set o k v k' :
  JsObject.get (JsObject.set o k v) k'
  = if decide (k = k') then Some v else JsObject.get o k'.
Proof. unfold JsObject.get, JsObject.set; simpl. apply lookup_insert. Qed.

Lemma keys_set_present o k v :
  is_Some (JsObject.get o k) → JsObject.keys (JsObject.set o k v) = JsObject.keys o.
Proof. unfold JsObject.get, JsObject.set; simpl. by intros [x ->]. Qed.

Lemma wf_empty : JsObject.wf (@JsObject.empty V).
Proof.
  split; simpl; [constructor|].
  intros k. rewrite lookup_empty. split; [by intros ?%elem_of_nil|by intros [? ?]].
Qed.

Lemma wf_set o k v : JsObject.wf o → JsObject.wf (JsObject.set o k v).
Proof.
  intros [Hnd Hdom]. unfold JsObject.set; split; simpl.
  - destruct (JsObject.props o !! k) eqn:E; [done|].
    apply NoDup_app; repeat split; [done| |apply NoDup_singleton].
    intros x Hx ->%list_elem_of_singleton.
    apply Hdom in Hx. rewrite E in Hx. by destruct Hx.
  - intros k'. rewrite lookup_insert. case_decide as Hk; subst.
    + split; [by eauto|intros _].
      destruct (JsObject.props o !! k') eqn:E.
      * apply Hdom. rewrite E; eauto.
      * apply elem_of_app. right. by apply list_elem_of_singleton.
    + rewrite <- Hdom. destruct (JsObject.props o !! k); [done|].
      rewrite elem_of_app, list_elem_of_singleton. split; [intros [?|?]; [done|congruence]|intros ?; by left].
Qed.

End JsObjectFacts.

(** ** Sorting and the derived participant list *)

Section SortFacts.
Context {A : Type} (cmp : A → A → Z).

Lemma sort_insert_perm x l : sort_insert cmp x l ≡ₚ x :: l.
Proof.
  induction l as [|y l IH]; simpl; [done|].
  destruct (0 <? cmp x y); [|done].
  rewrite IH. apply Permutation_swap.
Qed.

Lemma js_sort_perm l : js_sort cmp l ≡ₚ l.
Proof.
  induction l as [|x l IH]; simpl; [done|].
  rewrite sort_insert_perm. by f_equiv.
Qed.

Lemma elem_of_js_sort x l : x ∈ js_sort cmp l ↔ x ∈ l.
Proof. by rewrite js_sort_perm. Qed.

End SortFacts.

(** ** The enumeration order *)






Lemma js_Set_from_acc (l acc : list string) x :
  x ∈ foldl (λ acc x, if decide (x ∈ acc) then acc else acc ++ [x]) acc l
  ↔ x ∈ acc ∨ x ∈ l.
Proof.
  revert acc. induction l as [|y l IH]; intros acc; simpl.
  - rewrite elem_of_nil. tauto.
  - rewrite IH, elem_of_cons. case_decide as Hy.
    + split; [tauto|]. intros [?|[->|?]]; auto.
    + rewrite elem_of_app, list_elem_of_singleton. tauto.
Qed.

Lemma elem_of_js_Set_from (l : list string) x : x ∈ js_Set_from l ↔ x ∈ l.
Proof.
  unfold js_Set_from. rewrite js_Set_from_acc, elem_of_nil. tauto.
Qed.

Lemma NoDup_js_Set_from_acc (l acc : list string) :
  NoDup acc →
  NoDup (foldl (λ acc x, if decide (x ∈ acc) then acc else acc ++ [x]) acc l).
Proof.
  revert acc. induction l as [|y l IH]; intros acc Hacc; simpl; [done|].
  apply IH. case_decide as Hy; [done|].
  apply NoDup_app; repeat split; [done| |apply NoDup_singleton].
  by intros x Hx ->%list_elem_of_singleton.
Qed.

Lemma NoDup_js_Set_from (l : list string) : NoDup (js_Set_from l).
Proof. apply NoDup_js_Set_from_acc. constructor. Qed.

(** The names mentioned in the [players] lists of a log. *)
Lemma elem_of_mentioned (plays : list Play.t) p :
  p ∈ flat_map (λ play, map Player.player (Play.players play)) plays
  ↔ ∃ play e, play ∈ plays ∧ e ∈ Play.players play ∧ Player.player e = p.
Proof.
  rewrite list_elem_of_In, in_flat_map. split.
  - intros (play & Hplay & Hp). apply list_elem_of_In, list_elem_of_fmap in Hp.
    destruct Hp as (e & -> & He). exists play, e. by rewrite list_elem_of_In.
  - intros (play & e & Hplay & He & <-). exists play.
    rewrite <- !list_elem_of_In. split; [done|].
    apply list_elem_of_fmap. eauto.
Qed.

Lemma elem_of_uniquePlayers (plays : list Play.t) p :
  p ∈ uniquePlayers plays
  ↔ (p = "A" ∨ p = "E")
    ∧ ∃ play e, play ∈ plays ∧ e ∈ Play.players play ∧ Player.player e = p.
Proof.
  unfold uniquePlayers, js_sort_default.
  rewrite elem_of_js_sort, list_elem_of_filter, elem_of_js_Set_from.
  by rewrite elem_of_mentioned.
Qed.

(** The list is one of [[]], [["A"]], [["E"]], [["A"; "E"]]. *)
Lemma uniquePlayers_canonical (plays : list Play.t) :
  uniquePlayers plays
  = (if decide ("A" ∈ uniquePlayers plays) then ["A"] else [])
    ++ (if decide ("E" ∈ uniquePlayers plays) then ["E"] else []).
Proof.
  unfold uniquePlayers, js_sort_default.
  set (l := filter _ _).
  assert (NoDup l) as Hnd by apply NoDup_filter, NoDup_js_Set_from.
  assert (Forall (λ p, p = "A" ∨ p = "E") l) as Hall.
  { apply Forall_forall. intros p Hp. by apply list_elem_of_filter in Hp as [? _]. }
  clearbody l.
  destruct l as [|a [|b [|c l]]].
  - done.
  - inversion_clear Hall as [|? ? [->| ->] _]; done.
  - inversion_clear Hall as [|? ? Ha Hall']. inversion_clear Hall' as [|? ? Hb _].
    apply NoDup_cons in Hnd as [Hab _]. rewrite list_elem_of_singleton in Hab.
    destruct Ha as [-> | ->], Hb as [-> | ->]; done.
  - exfalso.
    inversion_clear Hall as [|? ? Ha Hall']. inversion_clear Hall' as [|? ? Hb Hall''].
    inversion_clear Hall'' as [|? ? Hc _].
    apply NoDup_cons in Hnd as [Hab Hnd]. apply NoDup_cons in Hnd as [Hbc _].
    rewrite !elem_of_cons in Hab. rewrite elem_of_cons in Hbc.
    destruct Ha as [-> | ->], Hb as [-> | ->], Hc as [-> | ->]; tauto.
Qed.

Lemma uniquePlayers_Permutation (plays plays' : list Play.t) :
  plays ≡ₚ plays' → uniquePlayers plays = uniquePlayers plays'.
Proof.
  intros Hp.
  assert (∀ p, p ∈ uniquePlayers plays ↔ p ∈ uniquePlayers plays') as H.
  { intros p. rewrite !elem_of_uniquePlayers.
    by setoid_rewrite Hp. }
  rewrite (uniquePlayers_canonical plays), (uniquePlayers_canonical plays').
  f_equal; repeat case_decide; try done; exfalso; naive_solver.
Qed.

Lemma NoDup_uniquePlayers (plays : list Play.t) : NoDup (uniquePlayers plays).
Proof.
  rewrite uniquePlayers_canonical.
  repeat case_decide; simpl; repeat constructor; set_solver.
Qed.

(** ** The character aggregator, cell by cell *)

Lemma initPlayerStats_acc (ups : list string) (m : gmap string PlayerStats.t) p :
  foldl (λ m player, <[player := zeroPlayerStats]> m) m ups !! p
  = if decide (p ∈ ups) then Some zeroPlayerStats else m !! p.
Proof.
  revert m. induction ups as [|u ups IH]; intros m; simpl.
  - done.
  - rewrite IH. destruct (decide (p ∈ ups)) as [Hin|Hin].
    + rewrite decide_True; [done|by right].
    + rewrite lookup_insert. destruct (decide (u = p)) as [->|Hne].
      * rewrite decide_True; [done|by left].
      * rewrite decide_False; [done|]. rewrite elem_of_cons. naive_solver.
Qed.

Lemma initPlayerStats_lookup (ups : list string) p :
  initPlayerStats ups !! p
  = if decide (p ∈ ups) then Some zeroPlayerStats else None.
Proof. unfold initPlayerStats. by rewrite initPlayerStats_acc, lookup_empty. Qed.

Lemma initPlayStats_acc (spirits : list Spirit.t) ups (o : JsObject.t PlayStats.t) c :
  let f := λ stats spirit,
             JsObject.set stats (Spirit.spirit spirit)
               (PlayStats.mk spirit (initPlayerStats ups)) in
  ((c ∉ map Spirit.spirit spirits)
   ∧ JsObject.get (foldl f o spirits) c = JsObject.get o c)
  ∨ (∃ s, s ∈ spirits ∧ Spirit.spirit s = c
          ∧ JsObject.get (foldl f o spirits) c
            = Some (PlayStats.mk s (initPlayerStats ups))).
Proof.
  intros f. revert o. induction spirits as [|s spirits IH]; intros o; simpl.
  - left. split; [apply not_elem_of_nil|done].
  - destruct (IH (f o s)) as [[Hnot Hget]|(s' & Hs' & Hc & Hget)].
    + destruct (decide (Spirit.spirit s = c)) as [Hc|Hc].
      * right. exists s. split; [by left|]. split; [done|].
        rewrite Hget. unfold f. rewrite get_set. by rewrite decide_True.
      * left. split.
        { rewrite elem_of_cons. naive_solver. }
        rewrite Hget. unfold f. rewrite get_set. by rewrite decide_False.
    + right. exists s'. split; [by right|done].
Qed.

Lemma get_initPlayStats (spirits : list Spirit.t) ups c :
  ((c ∉ map Spirit.spirit spirits)
   ∧ JsObject.get (initPlayStats spirits ups) c = None)
  ∨ (∃ s, s ∈ spirits ∧ Spirit.spirit s = c
          ∧ JsObject.get (initPlayStats spirits ups) c
            = Some (PlayStats.mk s (initPlayerStats ups))).
Proof.
  destruct (initPlayStats_acc spirits ups JsObject.empty c) as [[? H]|H].
  - left. split; [done|]. unfold initPlayStats. rewrite H.
    apply lookup_empty.
  - by right.
Qed.

Lemma cell_initPlayStats (spirits : list Spirit.t) ups c p :
  cell (initPlayStats spirits ups) c p
  = if decide (c ∈ map Spirit.spirit spirits ∧ p ∈ ups)
    then Some zeroPlayerStats else None.
Proof.
  unfold cell.
  destruct (get_initPlayStats spirits ups c) as [[Hc ->]|(s & Hs & Hc & ->)]; simpl.
  - rewrite decide_False; [done|tauto].
  - rewrite initPlayerStats_lookup.
    assert (c ∈ map Spirit.spirit spirits).
    { subst c. apply list_elem_of_fmap. eauto. }
    repeat case_decide; tauto.
Qed.

Section AggregatorFacts.
Variable new_Date : string → option Z.

Abbreviation countPlay := (countPlay new_Date).
Abbreviation recordPlayer := (recordPlayer new_Date).
Abbreviation recordPlay := (recordPlay new_Date).
Abbreviation buildPlayStats := (buildPlayStats new_Date).

Abbreviation counted := (counted new_Date).

Lemma cell_recordPlayer d (stats : JsObject.t PlayStats.t) e c p :
  cell (recordPlayer d stats e) c p
  = if decide (Player.spirit e = c ∧ Player.player e = p)
    then countPlay d <$> cell stats c p
    else cell stats c p.
Proof.
  unfold recordPlayer, cell.
  destruct (JsObject.get stats (Player.spirit e)) as [row|] eqn:Erow; simpl.
  - destruct (PlayStats.playerStats row !! Player.player e) as [st|] eqn:Est.
    + rewrite get_set.
      destruct (decide (Player.spirit e = c)) as [<-|Hc]; simpl.
      * rewrite Erow; simpl. rewrite lookup_insert.
        destruct (decide (Player.player e = p)) as [<-|Hp].
        -- rewrite decide_True; [|done]. by rewrite Est.
        -- rewrite decide_False; [done|tauto].
      * rewrite decide_False; [done|tauto].
    + case_decide as H; [|done]. destruct H as [<- <-].
      rewrite Erow; simpl. by rewrite Est.
  - case_decide as H; [|done]. destruct H as [<- <-]. by rewrite Erow.
Qed.

Lemma counted_app ds1 ds2 st :
  counted (ds1 ++ ds2) st = counted ds2 (counted ds1 st).
Proof. apply foldl_app. Qed.

Lemma cell_recordPlay (stats : JsObject.t PlayStats.t) play c p :
  cell (recordPlay stats play) c p
  = counted (pairDates c p play) <$> cell stats c p.
Proof.
  unfold recordPlay, pairDates.
  generalize (Play.date play) as d. intros d.
  revert stats. induction (Play.players play) as [|e es IH]; intros stats; simpl.
  - by destruct (cell stats c p).
  - rewrite IH, cell_recordPlayer. rewrite filter_cons.
    case_decide as H; simpl; [|done].
    by destruct (cell stats c p).
Qed.

Lemma cell_foldl_recordPlay (stats : JsObject.t PlayStats.t) plays c p :
  cell (foldl recordPlay stats plays) c p
  = counted (contributions c p plays) <$> cell stats c p.
Proof.
  unfold contributions.
  revert stats. induction plays as [|play plays IH]; intros stats; simpl.
  - by destruct (cell stats c p).
  - rewrite IH, cell_recordPlay.
    destruct (cell stats c p); simpl; [|done].
    by rewrite counted_app.
Qed.

(** Every cell of the aggregate, in closed form. *)
Lemma cell_buildPlayStats plays (spirits : list Spirit.t) c p :
  cell (buildPlayStats plays spirits) c p
  = if decide (c ∈ map Spirit.spirit spirits ∧ p ∈ uniquePlayers plays)
    then Some (counted (contributions c p plays) zeroPlayerStats)
    else None.
Proof.
  unfold buildPlayStats.
  rewrite cell_foldl_recordPlay, cell_initPlayStats.
  by case_decide.
Qed.

Lemma plays_counted ds st :
  PlayerStats.plays (counted ds st) = (PlayerStats.plays st + length ds)%nat.
Proof.
  unfold counted. revert st.
  induction ds as [|d ds IH]; intros st; simpl; [lia|].
  rewrite IH. simpl. lia.
Qed.

End AggregatorFacts.

Section LastPlayedFacts.
Variable new_Date : string → option Z.

Abbreviation countPlay := (countPlay new_Date).
Abbreviation counted := (counted new_Date).
Abbreviation buildPlayStats := (buildPlayStats new_Date).
Abbreviation latest := (latest new_Date).
Abbreviation validDate := (validDate new_Date).

Lemma Date_max_assoc a b c :
  Date_max a (Date_max b c) = Date_max (Date_max a b) c.
Proof. destruct a, b, c; simpl; f_equal; lia. Qed.

Lemma Date_max_comm a b : Date_max a b = Date_max b a.
Proof. destruct a, b; simpl; f_equal; lia. Qed.

Lemma latest_Permutation ds ds' : ds ≡ₚ ds' → latest ds = latest ds'.
Proof.
  unfold latest.
  induction 1 as [|d ds ds' _ IH|d d' ds|ds ds' ds'' _ IH1 _ IH2]; simpl.
  - done.
  - by rewrite IH.
  - rewrite !Date_max_assoc. f_equal. apply Date_max_comm.
  - congruence.
Qed.

Abbreviation goodLast := (goodLast new_Date).

Lemma countPlay_last d st :
  validDate d → goodLast (PlayerStats.lastPlayed st) →
  goodLast (PlayerStats.lastPlayed (countPlay d st))
  ∧ (PlayerStats.lastPlayed (countPlay d st) = Some d
     ∨ PlayerStats.lastPlayed (countPlay d st) = PlayerStats.lastPlayed st)
  ∧ PlayerStats.lastPlayed (countPlay d st) ≫= new_Date
    = Date_max (PlayerStats.lastPlayed st ≫= new_Date) (new_Date d).
Proof.
  intros [Hd [t Ht]] Hst. unfold countPlay; simpl.
  destruct (PlayerStats.lastPlayed st) as [c|]; simpl in *.
  - destruct Hst as [Hc [tc Htc]].
    rewrite Ht, Htc. simpl.
    destruct (String.eqb_spec c "") as [->|_]; [done|]. simpl.
    destruct (Z.ltb_spec tc t); simpl.
    + rewrite Ht. repeat split; eauto. f_equal. lia.
    + rewrite Htc. repeat split; eauto. f_equal. lia.
  - rewrite Ht. repeat split; eauto.
Qed.

Lemma counted_last ds st :
  Forall validDate ds → goodLast (PlayerStats.lastPlayed st) →
  goodLast (PlayerStats.lastPlayed (counted ds st))
  ∧ (PlayerStats.lastPlayed (counted ds st) = PlayerStats.lastPlayed st
     ∨ ∃ d, d ∈ ds ∧ PlayerStats.lastPlayed (counted ds st) = Some d)
  ∧ PlayerStats.lastPlayed (counted ds st) ≫= new_Date
    = Date_max (PlayerStats.lastPlayed st ≫= new_Date) (latest ds).
Proof.
  unfold counted, latest.
  intros Hds. revert st. induction Hds as [|d ds Hd _ IH]; intros st Hst; simpl.
  - split; [done|]. split; [by left|]. by destruct (_ ≫= _).
  - destruct (countPlay_last d st Hd Hst) as (Hgood & Hwhich & Htime).
    destruct (IH _ Hgood) as (Hgood' & Hwhich' & Htime').
    split; [done|]. split.
    + destruct Hwhich' as [->|(d' & Hd' & ->)].
      * destruct Hwhich as [->| ->]; [right; exists d; split; [by left|done]|by left].
      * right. exists d'. split; [by right|done].
    + rewrite Htime', Htime. by rewrite <- Date_max_assoc.
Qed.

Lemma validLog_contributions plays c p :
  validLog new_Date plays → Forall validDate (contributions c p plays).
Proof.
  intros H. apply Forall_forall. intros d Hd.
  apply list_elem_of_In, in_flat_map in Hd as (play & Hplay & Hd).
  apply list_elem_of_In in Hplay. apply list_elem_of_In in Hd.
  unfold pairDates in Hd. apply list_elem_of_fmap in Hd as (e & -> & _).
  by apply (proj1 (Forall_forall _ _) H).
Qed.

Lemma contributions_Permutation plays plays' c p :
  plays ≡ₚ plays' → contributions c p plays ≡ₚ contributions c p plays'.
Proof. intros H. unfold contributions. by apply Permutation_flat_map. Qed.

Lemma validLog_Permutation plays plays' :
  plays ≡ₚ plays' → validLog new_Date plays → validLog new_Date plays'.
Proof. unfold validLog. by intros ->. Qed.

End LastPlayedFacts.

(** With no pair listed twice in a record, a record contributes once. *)
Lemma length_pairDates play c p :
  NoDup (Play.players play) →
  length (pairDates c p play)
  = if decide (Player.mk p c ∈ Play.players play) then 1%nat else 0%nat.
Proof.
  unfold pairDates. rewrite length_map.
  induction 1 as [|e es Hnot _ IH]; [done|].
  rewrite filter_cons.
  destruct (decide (Player.spirit e = c ∧ Player.player e = p)) as [[Hc Hp]|Hne].
  - assert (e = Player.mk p c) as -> by (destruct e; simpl in *; congruence).
    rewrite decide_True by left. simpl. rewrite IH.
    by rewrite decide_False.
  - rewrite IH.
    assert (e ≠ Player.mk p c) by (intros ->; simpl in *; tauto).
    repeat case_decide; try done; rewrite elem_of_cons in *; naive_solver.
Qed.

Lemma length_contributions plays c p :
  Forall (λ play, NoDup (Play.players play)) plays →
  length (contributions c p plays) = length (recordsWith c p plays).
Proof.
  unfold contributions, recordsWith.
  induction 1 as [|play plays Hnd _ IH]; [done|]. simpl.
  rewrite length_app, IH, length_pairDates by done.
  rewrite filter_cons. by case_decide.
Qed.


Section KeysFacts.
  Variable new_Date : string → option Z.

Abbreviation recordPlayer := (recordPlayer new_Date).
Abbreviation recordPlay := (recordPlay new_Date).
Abbreviation buildPlayStats := (buildPlayStats new_Date).

Lemma sameShape_refl o : sameShape o o.
Proof. unfold sameShape. split; [done|]. split; [done|]. done. Qed.

Lemma sameShape_trans o1 o2 o3 :
  sameShape o1 o2 → sameShape o2 o3 → sameShape o1 o3.
Proof.
  intros (K1 & W1 & S1) (K2 & W2 & S2). split; [congruence|].
  split; [tauto|]. intros c. by rewrite S2.
Qed.

Lemma sameShape_recordPlayer d o e : sameShape o (recordPlayer d o e).
Proof.
  unfold recordPlayer.
  destruct (JsObject.get o (Player.spirit e)) as [row|] eqn:Erow;
    [|apply sameShape_refl].
  destruct (PlayStats.playerStats row !! Player.player e) as [st|];
    [|apply sameShape_refl].
  split; [apply keys_set_present; rewrite Erow; eauto|].
  split; [apply wf_set|].
  intros c. rewrite get_set. case_decide as Hc; [|done].
  subst c. by rewrite Erow.
Qed.

Lemma sameShape_recordPlay o play : sameShape o (recordPlay o play).
Proof.
  unfold recordPlay. generalize (Play.date play) as d. intros d.
  revert o. induction (Play.players play) as [|e es IH]; intros o; simpl.
  - apply sameShape_refl.
  - eapply sameShape_trans; [apply sameShape_recordPlayer|apply IH].
Qed.

Lemma sameShape_foldl_recordPlay o plays : sameShape o (foldl recordPlay o plays).
Proof.
  revert o. induction plays as [|play plays IH]; intros o; simpl.
  - apply sameShape_refl.
  - eapply sameShape_trans; [apply sameShape_recordPlay|apply IH].
Qed.


Lemma keys_set_wf {V} (o : JsObject.t V) k v :
  JsObject.wf o →
  JsObject.keys (JsObject.set o k v)
  = if decide (k ∈ JsObject.keys o) then JsObject.keys o else JsObject.keys o ++ [k].
Proof.
  intros [_ Hdom]. unfold JsObject.set; simpl.
  destruct (JsObject.props o !! k) eqn:E.
  - rewrite decide_True; [done|]. apply Hdom. rewrite E; eauto.
  - rewrite decide_False; [done|]. rewrite Hdom, E. by intros [? ?].
Qed.

Lemma keys_initPlayStats_acc spirits ups (o : JsObject.t PlayStats.t) :
  JsObject.wf o →
  JsObject.keys
    (foldl (λ stats spirit,
              JsObject.set stats (Spirit.spirit spirit)
                (PlayStats.mk spirit (initPlayerStats ups))) o spirits)
  = foldl (λ acc x, if decide (x ∈ acc) then acc else acc ++ [x])
          (JsObject.keys o) (map Spirit.spirit spirits).
Proof.
  revert o. induction spirits as [|s spirits IH]; intros o Ho; simpl; [done|].
  rewrite IH by (by apply wf_set). by rewrite keys_set_wf.
Qed.

(** The rows are keyed by the catalog's names, in order of first
    occurrence. *)
Lemma keys_initPlayStats spirits ups :
  JsObject.keys (initPlayStats spirits ups)
  = js_Set_from (map Spirit.spirit spirits).
Proof. apply keys_initPlayStats_acc, wf_empty. Qed.

Lemma keys_buildPlayStats plays spirits :
  JsObject.keys (buildPlayStats plays spirits)
  = js_Set_from (map Spirit.spirit spirits).
Proof.
  unfold buildPlayStats.
  destruct (sameShape_foldl_recordPlay
              (initPlayStats spirits (uniquePlayers plays)) plays) as (-> & _).
  apply keys_initPlayStats.
Qed.



Lemma contributions_nil plays c p :
  (∀ play, play ∈ plays → Player.mk p c ∉ Play.players play) →
  contributions c p plays = [].
Proof.
  unfold contributions, pairDates.
  induction plays as [|play plays IH]; intros H; simpl; [done|].
  rewrite IH by (intros ? ?; apply H; by right).
  rewrite app_nil_r.
  assert (Player.mk p c ∉ Play.players play) as Hnot by (apply H; by left).
  induction (Play.players play) as [|e es IHe]; [done|].
  rewrite filter_cons. rewrite not_elem_of_cons in Hnot. destruct Hnot as [Hne Hnot].
  rewrite decide_False; [by apply IHe|].
  intros [Hc Hp]. apply Hne. destruct e; simpl in *; congruence.
Qed.

End KeysFacts.

(** Deciding a closed proposition by evaluating its decision procedure. *)
Ltac evaluate := apply (bool_decide_unpack _); vm_compute; exact I.

(** C5. After aggregation every catalog character has an entry for every
    recognized participant, and a pair that appears in no play record has
    play count 0 and no last-played date. *)
Theorem every_pair_has_a_cell (new_Date : string → option Z)
    (plays : list Play.t) (spirits : list Spirit.t) (s : Spirit.t) (p : string) :
  s ∈ spirits → p ∈ uniquePlayers plays →
  let stats := buildPlayStats new_Date plays spirits in
  (∃ row st, JsObject.get stats (Spirit.spirit s) = Some row
             ∧ PlayStats.playerStats row !! p = Some st)
  ∧ ((∀ play, play ∈ plays → Player.mk p (Spirit.spirit s) ∉ Play.players play) →
     cell stats (Spirit.spirit s) p = Some (PlayerStats.mk 0 None)).
Proof.
  intros Hs Hp stats.
  assert (cell stats (Spirit.spirit s) p
          = Some (counted new_Date (contributions (Spirit.spirit s) p plays)
                    zeroPlayerStats)) as Hcell.
  { unfold stats. rewrite cell_buildPlayStats. rewrite decide_True; [done|].
    split; [|done]. apply list_elem_of_fmap. eauto. }
  split.
  - unfold cell in Hcell.
    destruct (JsObject.get stats (Spirit.spirit s)) as [row|]; [|done].
    simpl in Hcell. eauto.
  - intros Hno. rewrite Hcell, contributions_nil by done. done.
Qed.

Lemma every_pair_has_a_cell_witness :
  let stats := buildPlayStats Host.new_Date Sample.threeDates
                 [Sample.river; Sample.jagged] in
  (∃ row st, JsObject.get stats "Jagged Earth" = Some row
             ∧ PlayStats.playerStats row !! "A" = Some st)
  ∧ ((∀ play, play ∈ Sample.threeDates →
              Player.mk "A" "Jagged Earth" ∉ Play.players play) →
     cell stats "Jagged Earth" "A" = Some (PlayerStats.mk 0 None)).
Proof.
  apply (every_pair_has_a_cell Host.new_Date Sample.threeDates
           [Sample.river; Sample.jagged] Sample.jagged "A").
  - evaluate.
  - evaluate.
Defined.

(** A concrete log has valid dates: each is non-empty and parses. *)
Ltac valid_log :=
  repeat (apply Forall_cons; split;
          [split; [discriminate|vm_compute; eauto]|]);
  constructor.

(** C1 (amended). For a log of valid dates, a known character [c] and a
    recognized participant [p]: the play count of the pair is the number of
    entries [(p, c)] in the participant lists of the log, which is the number
    of play records containing the pair when no record lists an entry twice;
    the last-played date is the date of a contributing record and its time
    value is the greatest among the contributing records (none without
    contributions); and a permutation of the log changes neither the rows,
    nor any count, nor the time value of any last-played date. *)
Theorem playCount_and_lastPlayed (new_Date : string → option Z)
    (plays : list Play.t) (spirits : list Spirit.t) (c p : string) :
  validLog new_Date plays →
  c ∈ map Spirit.spirit spirits → p ∈ uniquePlayers plays →
  let stats := buildPlayStats new_Date plays spirits in
  cellPlays stats c p = length (contributions c p plays)
  ∧ (Forall (λ play, NoDup (Play.players play)) plays →
     cellPlays stats c p = length (recordsWith c p plays))
  ∧ cellLastPlayed stats c p ≫= new_Date
    = latest new_Date (contributions c p plays)
  ∧ (∀ d, cellLastPlayed stats c p = Some d → d ∈ contributions c p plays)
  ∧ ∀ plays', plays' ≡ₚ plays →
      let stats' := buildPlayStats new_Date plays' spirits in
      JsObject.keys stats' = JsObject.keys stats
      ∧ (∀ c', PlayStats.spirit <$> JsObject.get stats' c'
               = PlayStats.spirit <$> JsObject.get stats c')
      ∧ ∀ c' p',
          cellPlays stats' c' p' = cellPlays stats c' p'
          ∧ cellLastPlayed stats' c' p' ≫= new_Date
            = cellLastPlayed stats c' p' ≫= new_Date.
Proof.
  intros Hvalid Hc Hp stats.
  assert (∀ log c' p',
            validLog new_Date log →
            cell (buildPlayStats new_Date log spirits) c' p'
            = Some (counted new_Date (contributions c' p' log) zeroPlayerStats) →
            cellPlays (buildPlayStats new_Date log spirits) c' p'
            = length (contributions c' p' log)
            ∧ cellLastPlayed (buildPlayStats new_Date log spirits) c' p' ≫= new_Date
              = latest new_Date (contributions c' p' log)
            ∧ ∀ d, cellLastPlayed (buildPlayStats new_Date log spirits) c' p' = Some d
                   → d ∈ contributions c' p' log) as Hknown.
  { intros log c' p' Hlog Hcell. unfold cellPlays, cellLastPlayed.
    rewrite Hcell; simpl.
    destruct (counted_last new_Date (contributions c' p' log) zeroPlayerStats)
      as (_ & Hwhich & Htime); [by apply validLog_contributions|done|].
    split; [by rewrite plays_counted|]. split; [by rewrite Htime|].
    intros d Hd. destruct Hwhich as [Hz|(d' & Hd' & Hlast)]; [|congruence].
    rewrite Hz in Hd. done. }
  assert (cell stats c p
          = Some (counted new_Date (contributions c p plays) zeroPlayerStats))
    as Hcell.
  { unfold stats. rewrite cell_buildPlayStats. by rewrite decide_True. }
  destruct (Hknown plays c p Hvalid Hcell) as (Hcount & Hlast & Hfrom).
  split; [done|]. split.
  { intros Hnd. fold stats in Hcount. rewrite Hcount. by apply length_contributions. }
  split; [done|]. split; [done|].
  intros plays' Hperm stats'. split.
  { unfold stats', stats. by rewrite !keys_buildPlayStats. }
  split.
  { intros c'. unfold stats', stats, buildPlayStats.
    destruct (sameShape_foldl_recordPlay new_Date
                (initPlayStats spirits (uniquePlayers plays')) plays')
      as (_ & _ & ->).
    destruct (sameShape_foldl_recordPlay new_Date
                (initPlayStats spirits (uniquePlayers plays)) plays)
      as (_ & _ & ->).
    by rewrite (uniquePlayers_Permutation _ _ Hperm). }
  intros c' p'.
  assert (validLog new_Date plays') as Hvalid'
    by (eapply validLog_Permutation; [symmetry; exact Hperm|done]).
  pose proof (cell_buildPlayStats new_Date plays spirits c' p') as H1.
  pose proof (cell_buildPlayStats new_Date plays' spirits c' p') as H2.
  rewrite (uniquePlayers_Permutation _ _ Hperm) in H2.
  destruct (decide (c' ∈ map Spirit.spirit spirits ∧ p' ∈ uniquePlayers plays)).
  - unfold stats', stats.
    destruct (Hknown plays c' p' Hvalid H1) as (-> & -> & _).
    destruct (Hknown plays' c' p' Hvalid' H2) as (-> & -> & _).
    pose proof (contributions_Permutation plays' plays c' p' Hperm) as Hc'.
    split; [by rewrite Hc'|by apply latest_Permutation].
  - unfold stats', stats, cellPlays, cellLastPlayed. by rewrite H1, H2.
Qed.

Lemma playCount_and_lastPlayed_witness :
  let plays := Sample.threeDates in
  let stats := buildPlayStats Host.new_Date plays [Sample.river; Sample.jagged] in
  cellPlays stats "River" "A" = 3%nat
  ∧ cellLastPlayed stats "River" "A" ≫= Host.new_Date
    = Host.new_Date "2024-03-15".
Proof.
  pose proof (playCount_and_lastPlayed Host.new_Date Sample.threeDates
                [Sample.river; Sample.jagged] "River" "A") as H.
  simpl in H. destruct H as (Hcount & _ & Hlast & _).
  - valid_log.
  - evaluate.
  - evaluate.
  - split; [exact Hcount|exact Hlast].
Defined.

(** C1 as stated fails on a record that lists a pair twice: the pair is
    counted twice although one play record contains it. *)
Lemma playCount_counts_entries_not_records :
  let plays := Sample.twice in
  let stats := buildPlayStats Host.new_Date plays [Sample.river] in
  validLog Host.new_Date plays
  ∧ "River" ∈ map Spirit.spirit [Sample.river]
  ∧ "A" ∈ uniquePlayers plays
  ∧ cellPlays stats "River" "A" = 2%nat
  ∧ length (recordsWith "River" "A" plays) = 1%nat
  ∧ cellPlays stats "River" "A" ≠ length (recordsWith "River" "A" plays).
Proof.
  simpl. split.
  { valid_log. }
  split; [evaluate|]. split; [evaluate|].
  split; [by vm_compute|]. split; [by vm_compute|]. by vm_compute.
Qed.

(** ** The aggregators and exceptions *)

Lemma forEach_ok {A B} (I : A → Prop) (f : A → B → A) (body : A → B → Exn A)
    (l : list B) (a : A) :
  I a →
  (∀ a x, I a → body a x = Ok (f a x) ∧ I (f a x)) →
  forEach l body a = Ok (foldl f a l).
Proof.
  intros Ha Hbody. revert a Ha.
  induction l as [|x l IH]; intros a Ha; simpl; [done|].
  destruct (Hbody a x Ha) as [-> Ha']. simpl. by apply IH.
Qed.

Lemma set_set {V} (o : JsObject.t V) k v v' :
  JsObject.set (JsObject.set o k v) k v' = JsObject.set o k v'.
Proof.
  unfold JsObject.set; simpl. rewrite lookup_insert_eq, insert_insert_eq.
  done.
Qed.

Section ExnFacts.
Variable new_Date : string → option Z.

Lemma initSpirit_exn_ok ups (stats : JsObject.t PlayStats.t) spirit :
  initSpirit_exn ups stats spirit
  = Ok (JsObject.set stats (Spirit.spirit spirit)
          (PlayStats.mk spirit (initPlayerStats ups))).
Proof.
  unfold initSpirit_exn, initPlayerStats.
  generalize (∅ : gmap string PlayerStats.t) as m.
  induction ups as [|u ups IH]; intros m; simpl; [done|].
  rewrite get_set, decide_True by done. simpl.
  rewrite set_set. apply IH.
Qed.

Lemma recordPlayer_exn_spec d (stats : JsObject.t PlayStats.t) e :
  recordPlayer_exn new_Date d stats e
  = if decide (JsObject.get stats (Player.spirit e) = None
               ∧ Player.spirit e ∈ Object_prototype)
    then TypeError
    else Ok (recordPlayer new_Date d stats e).
Proof.
  unfold recordPlayer_exn, recordPlayer, JsObject.lookup, JsObject.get.
  destruct (JsObject.props stats !! Player.spirit e) as [row|] eqn:Hrow.
  - rewrite decide_False by (by intros [? _]). simpl.
    by destruct (PlayStats.playerStats row !! Player.player e).
  - destruct (decide (Player.spirit e ∈ Object_prototype)) as [Hin|Hout].
    + by rewrite decide_True.
    + by rewrite decide_False by (by intros [_ ?]).
Qed.

Lemma catalogKeys_initPlayStats spirits ups :
  catalogKeys spirits (initPlayStats spirits ups).
Proof.
  intros c. destruct (get_initPlayStats spirits ups c)
    as [[Hnot ->]|(s & Hs & Hname & ->)].
  - split; [by intros [? ?]|done].
  - split; [|by eexists]. intros _. rewrite <- Hname.
    by apply list_elem_of_fmap_2.
Qed.

Lemma catalogKeys_recordPlayer spirits d stats e :
  catalogKeys spirits stats →
  catalogKeys spirits (recordPlayer new_Date d stats e).
Proof.
  intros H c. rewrite <- (H c).
  destruct (sameShape_recordPlayer new_Date d stats e) as (_ & _ & Hs).
  by rewrite <- !(fmap_is_Some PlayStats.spirit), Hs.
Qed.

Lemma catalogKeys_recordPlay spirits stats play :
  catalogKeys spirits stats →
  catalogKeys spirits (recordPlay new_Date stats play).
Proof.
  unfold recordPlay. revert stats.
  induction (Play.players play) as [|e es IH]; intros stats H; simpl; [done|].
  by apply IH, catalogKeys_recordPlayer.
Qed.

Lemma catalogKeys_reached spirits ups stats :
  reached new_Date spirits ups stats → catalogKeys spirits stats.
Proof.
  intros [es ->].
  generalize (catalogKeys_initPlayStats spirits ups).
  generalize (initPlayStats spirits ups) as st.
  induction es as [|[d e] es IH]; intros st Hst; cbn [foldl]; [done|].
  apply IH. by apply catalogKeys_recordPlayer.
Qed.

(** A loop whose body raises exactly on the elements that satisfy [P]. *)
Lemma forEach_raises {A B} (I : A → Prop) (P : B → Prop)
    `{!∀ x, Decision (P x)} (f : A → B → A) (body : A → B → Exn A)
    (l : list B) (a : A) :
  I a →
  (∀ a x, I a →
          body a x = (if decide (P x) then TypeError else Ok (f a x))
          ∧ I (f a x)) →
  forEach l body a
  = if decide (Exists P l) then TypeError else Ok (foldl f a l).
Proof.
  intros Ha Hbody. revert a Ha.
  induction l as [|x l IH]; intros a Ha; cbn [forEach foldl].
  - destruct (decide (Exists P [])) as [Hn|_]; [|done].
    by apply Exists_nil in Hn.
  - destruct (Hbody a x Ha) as [-> Ha'].
    destruct (decide (P x)) as [Hx|Hx]; cbn [mbind Exn_bind].
    + destruct (decide (Exists P (x :: l))) as [_|Hn]; [done|].
      exfalso. apply Hn. by left.
    + rewrite (IH _ Ha').
      destruct (decide (Exists P l)) as [Hl|Hl],
        (decide (Exists P (x :: l))) as [Hxl|Hxl]; try done.
      * exfalso. apply Hxl. by right.
      * exfalso. by apply Exists_cons in Hxl as [?|?].
Qed.

Lemma recordPlay_exn_spec spirits stats play :
  catalogKeys spirits stats →
  forEach (Play.players play) (recordPlayer_exn new_Date (Play.date play)) stats
  = if decide (Exists (namesInherited spirits) (Play.players play))
    then TypeError
    else Ok (recordPlay new_Date stats play).
Proof.
  intros H. unfold recordPlay.
  apply (forEach_raises (catalogKeys spirits)); [done|].
  intros st e Hst. split; [|by apply catalogKeys_recordPlayer].
  rewrite recordPlayer_exn_spec.
  destruct (decide (namesInherited spirits e)) as [[Hin Hout]|Hno].
  - rewrite decide_True; [done|]. split; [|done].
    apply eq_None_not_Some. by rewrite (Hst _).
  - rewrite decide_False; [done|]. intros [Hnone Hin]. apply Hno.
    split; [done|]. rewrite <- (Hst _). by rewrite Hnone; intros [? ?].
Qed.

(** The character aggregator raises exactly when some entry of the log
    names an inherited property outside the catalog. *)
Lemma buildPlayStats_exn_spec plays spirits :
  buildPlayStats_exn new_Date plays spirits
  = if decide (Exists (λ play, Exists (namesInherited spirits)
                                      (Play.players play)) plays)
    then TypeError
    else Ok (buildPlayStats new_Date plays spirits).
Proof.
  unfold buildPlayStats_exn, buildPlayStats.
  rewrite (forEach_ok (λ _, True)
             (λ stats spirit,
                JsObject.set stats (Spirit.spirit spirit)
                  (PlayStats.mk spirit (initPlayerStats (uniquePlayers plays)))));
    [|done|intros; split; [apply initSpirit_exn_ok|done]].
  simpl. fold (initPlayStats spirits (uniquePlayers plays)).
  apply (forEach_raises (catalogKeys spirits));
    [apply catalogKeys_initPlayStats|].
  intros stats play Hst. split; [|by apply catalogKeys_recordPlay].
  by apply recordPlay_exn_spec.
Qed.

Lemma Exists_entries (P : Player.t → Prop) (plays : list Play.t) :
  Exists (λ play, Exists P (Play.players play)) plays
  ↔ ∃ e, e ∈ entries plays ∧ P e.
Proof.
  unfold entries. rewrite Exists_exists. split.
  - intros (play & Hplay & (e & He & HP)%Exists_exists). exists e.
    split; [|done]. apply list_elem_of_In, in_flat_map. exists play.
    by rewrite <- !list_elem_of_In.
  - intros (e & He & HP).
    apply list_elem_of_In, in_flat_map in He as (play & Hplay & He).
    exists play. rewrite list_elem_of_In. split; [done|].
    apply Exists_exists. exists e. by rewrite list_elem_of_In.
Qed.

Lemma initAdversary_exn_ok
    (stats : gmap string (gmap Z AdversaryLevelStats.t)) adversary :
  initAdversary_exn stats adversary
  = Ok (<[Adversary.Adversary adversary := initLevelStats adversary]> stats).
Proof.
  unfold initAdversary_exn, initLevelStats.
  rewrite lookup_insert_eq. simpl. rewrite insert_insert_eq.
  rewrite insert_empty.
  generalize ({[0 := AdversaryLevelStats.mk 0 None
                        (Adversary.Base_Difficulty adversary)]}
              : gmap Z AdversaryLevelStats.t) as m.
  induction (Adversary.Levels adversary) as [|lv lvs IH]; intros m; simpl; [done|].
  rewrite lookup_insert_eq. simpl. rewrite insert_insert_eq. apply IH.
Qed.

Lemma recordAdversaryPlay_exn_ok
    (stats : gmap string (gmap Z AdversaryLevelStats.t)) play :
  recordAdversaryPlay_exn new_Date stats play
  = Ok (recordAdversaryPlay new_Date stats play).
Proof.
  unfold recordAdversaryPlay_exn, recordAdversaryPlay.
  destruct (Play.adversary play) as [a|]; [|done].
  destruct (truthy (Some a)); simpl; [|done].
  destruct (stats !! a) as [levels|] eqn:E; simpl; [|done].
  by destruct (levels !! default 0 (Play.level play)).
Qed.

Lemma buildAdversaryStats_exn_ok plays adversaries :
  buildAdversaryStats_exn new_Date plays adversaries
  = Ok (buildAdversaryStats new_Date plays adversaries).
Proof.
  unfold buildAdversaryStats_exn, buildAdversaryStats, initAdversaryStats.
  rewrite (forEach_ok (λ _, True)
             (λ stats adversary,
                <[Adversary.Adversary adversary := initLevelStats adversary]> stats));
    [|done|intros; split; [apply initAdversary_exn_ok|done]].
  simpl. apply (forEach_ok (λ _, True)); [done|]. intros; split; [|done].
  apply recordAdversaryPlay_exn_ok.
Qed.

End ExnFacts.

(** ** Entries and records the aggregators skip *)

Section SkipFacts.
Variable new_Date : string → option Z.

Lemma recordPlayer_skip d (stats : JsObject.t PlayStats.t) e :
  cell stats (Player.spirit e) (Player.player e) = None →
  recordPlayer new_Date d stats e = stats.
Proof.
  unfold cell, recordPlayer.
  destruct (JsObject.get stats (Player.spirit e)) as [row|]; simpl; [|done].
  by intros ->.
Qed.

Lemma cell_entries (stats : JsObject.t PlayStats.t)
    (entries : list (string * Player.t)) c p :
  is_Some (cell (foldl (λ st de, recordPlayer new_Date de.1 st de.2)
                       stats entries) c p)
  ↔ is_Some (cell stats c p).
Proof.
  revert stats. induction entries as [|[d e] entries IH]; intros stats; simpl.
  - done.
  - rewrite IH, cell_recordPlayer. case_decide; [|done].
    by rewrite fmap_is_Some.
Qed.

Lemma reached_cell spirits ups stats c p :
  reached new_Date spirits ups stats →
  is_Some (cell stats c p) ↔ c ∈ map Spirit.spirit spirits ∧ p ∈ ups.
Proof.
  intros [entries ->]. rewrite cell_entries, cell_initPlayStats.
  case_decide as H; split; [done|by eauto|by intros [? ?]|done].
Qed.

(** The nested loops visit the dated entries of the log in order. *)
Lemma foldl_recordPlay_entries (stats : JsObject.t PlayStats.t) plays :
  foldl (recordPlay new_Date) stats plays
  = foldl (λ st de, recordPlayer new_Date de.1 st de.2) stats
          (flat_map (λ play, map (λ e, (Play.date play, e)) (Play.players play))
                    plays).
Proof.
  revert stats. induction plays as [|play plays IH]; intros stats; simpl; [done|].
  rewrite foldl_app, IH. f_equal. unfold recordPlay.
  generalize (Play.date play) as d. intros d. revert stats.
  induction (Play.players play) as [|e es IHe]; intros stats; simpl; [done|].
  apply IHe.
Qed.

Lemma reached_prefix plays spirits prefix :
  reached new_Date spirits (uniquePlayers plays)
    (foldl (recordPlay new_Date)
           (initPlayStats spirits (uniquePlayers plays)) prefix).
Proof. eexists. apply foldl_recordPlay_entries. Qed.

Lemma reached_step spirits ups stats d e :
  reached new_Date spirits ups stats →
  reached new_Date spirits ups (recordPlayer new_Date d stats e).
Proof.
  intros [entries ->]. exists (entries ++ [(d, e)]). by rewrite foldl_app.
Qed.

(** *** Adversaries *)

Lemma lookup_initAdversaryStats_acc adversaries
    (stats : gmap string (gmap Z AdversaryLevelStats.t)) a :
  let f := λ stats adversary,
             <[Adversary.Adversary adversary := initLevelStats adversary]> stats in
  ((a ∉ map Adversary.Adversary adversaries)
   ∧ foldl f stats adversaries !! a = stats !! a)
  ∨ (∃ adv, adv ∈ adversaries ∧ Adversary.Adversary adv = a
            ∧ foldl f stats adversaries !! a = Some (initLevelStats adv)).
Proof.
  intros f. revert stats.
  induction adversaries as [|adv advs IH]; intros stats; simpl.
  - left. split; [apply not_elem_of_nil|done].
  - destruct (IH (f stats adv)) as [[Hnot Hget]|(adv' & Hin & Ha & Hget)].
    + destruct (decide (Adversary.Adversary adv = a)) as [Ha|Ha].
      * right. exists adv. split; [by left|]. split; [done|].
        rewrite Hget. unfold f. by rewrite Ha, lookup_insert_eq.
      * left. split.
        { rewrite not_elem_of_cons. done. }
        rewrite Hget. unfold f. by rewrite lookup_insert_ne.
    + right. exists adv'. split; [by right|done].
Qed.

Lemma lookup_initAdversaryStats adversaries a :
  ((a ∉ map Adversary.Adversary adversaries)
   ∧ initAdversaryStats adversaries !! a = None)
  ∨ (∃ adv, adv ∈ adversaries ∧ Adversary.Adversary adv = a
            ∧ initAdversaryStats adversaries !! a = Some (initLevelStats adv)).
Proof.
  destruct (lookup_initAdversaryStats_acc adversaries ∅ a) as [[? H]|H].
  - left. split; [done|]. unfold initAdversaryStats. by rewrite H, lookup_empty.
  - by right.
Qed.

Lemma dom_initLevelStats adv :
  dom (initLevelStats adv)
  = ({[0]} ∪ list_to_set (Level.Level <$> Adversary.Levels adv) : gset Z).
Proof.
  unfold initLevelStats.
  rewrite <- (dom_singleton_L (M := gmap Z) 0
                (AdversaryLevelStats.mk 0 None (Adversary.Base_Difficulty adv))).
  generalize ({[0 := AdversaryLevelStats.mk 0 None
                        (Adversary.Base_Difficulty adv)]}
              : gmap Z AdversaryLevelStats.t) as m.
  induction (Adversary.Levels adv) as [|lv lvs IH]; intros m; simpl.
  - set_solver.
  - rewrite IH, dom_insert_L. set_solver.
Qed.

Lemma initLevelStats_zero adv l st :
  initLevelStats adv !! l = Some st →
  AdversaryLevelStats.plays st = 0%nat
  ∧ AdversaryLevelStats.lastPlayed st = None.
Proof.
  unfold initLevelStats.
  assert (map_Forall (λ _ st, AdversaryLevelStats.plays st = 0%nat
                              ∧ AdversaryLevelStats.lastPlayed st = None)
            ({[0 := AdversaryLevelStats.mk 0 None
                      (Adversary.Base_Difficulty adv)]}
             : gmap Z AdversaryLevelStats.t)) as Hm.
  { by apply map_Forall_singleton. }
  revert Hm.
  generalize ({[0 := AdversaryLevelStats.mk 0 None
                        (Adversary.Base_Difficulty adv)]}
              : gmap Z AdversaryLevelStats.t) as m.
  induction (Adversary.Levels adv) as [|lv lvs IH]; intros m Hm; simpl.
  - intros H. by apply Hm in H.
  - apply IH. by apply map_Forall_insert_2.
Qed.

Lemma dom_recordAdversaryPlay
    (stats : gmap string (gmap Z AdversaryLevelStats.t)) play :
  (dom <$> recordAdversaryPlay new_Date stats play : gmap string (gset Z))
  = dom <$> stats.
Proof.
  unfold recordAdversaryPlay.
  destruct (Play.adversary play) as [a|]; [|done].
  destruct (truthy (Some a)); [|done].
  destruct (stats !! a) as [levels|] eqn:Ea; [|done].
  destruct (levels !! default 0 (Play.level play)) as [st|] eqn:El; [|done].
  rewrite fmap_insert, dom_insert_lookup_L by eauto.
  apply insert_id. by rewrite lookup_fmap, Ea.
Qed.

Lemma dom_reachedAdversary adversaries stats :
  reachedAdversary new_Date adversaries stats →
  (dom <$> stats : gmap string (gset Z)) = dom <$> initAdversaryStats adversaries.
Proof.
  intros [prefix ->]. generalize (initAdversaryStats adversaries) as s.
  induction prefix as [|play prefix IH]; intros s; simpl; [done|].
  by rewrite IH, dom_recordAdversaryPlay.
Qed.

(** The level table of an adversary holds level 0 and the declared levels
    of the catalog entry that defines it. *)
Lemma reachedAdversary_levels adversaries stats a levels :
  reachedAdversary new_Date adversaries stats →
  stats !! a = Some levels →
  ∃ adv, adv ∈ adversaries ∧ Adversary.Adversary adv = a
         ∧ initAdversaryStats adversaries !! a = Some (initLevelStats adv)
         ∧ dom levels
           = ({[0]} ∪ list_to_set (Level.Level <$> Adversary.Levels adv) : gset Z).
Proof.
  intros Hr Ha. apply dom_reachedAdversary in Hr.
  apply (f_equal (.!! a)) in Hr. rewrite !lookup_fmap, Ha in Hr. simpl in Hr.
  destruct (lookup_initAdversaryStats adversaries a)
    as [[_ Hn]|(adv & Hin & Hname & Hget)].
  - by rewrite Hn in Hr.
  - exists adv. repeat (split; [done|]).
    rewrite Hget in Hr. simpl in Hr. injection Hr as ->.
    apply dom_initLevelStats.
Qed.

Lemma recordAdversaryPlay_skip
    (stats : gmap string (gmap Z AdversaryLevelStats.t)) play a :
  Play.adversary play = Some a →
  (∀ levels, stats !! a = Some levels →
             levels !! default 0 (Play.level play) = None) →
  recordAdversaryPlay new_Date stats play = stats.
Proof.
  intros Ha Hl. unfold recordAdversaryPlay. rewrite Ha.
  destruct (truthy (Some a)); [|done].
  destruct (stats !! a) as [levels|]; [|done].
  by rewrite (Hl levels).
Qed.

Lemma recordAdversaryPlay_unknown adversaries stats play a :
  reachedAdversary new_Date adversaries stats →
  Play.adversary play = Some a →
  a ∉ map Adversary.Adversary adversaries →
  recordAdversaryPlay new_Date stats play = stats.
Proof.
  intros Hr Ha Hnot. apply (recordAdversaryPlay_skip _ _ a); [done|].
  intros levels Hlv.
  destruct (reachedAdversary_levels _ _ _ _ Hr Hlv) as (adv & Hin & Hname & _).
  exfalso. apply Hnot. rewrite <- Hname. apply list_elem_of_fmap. eauto.
Qed.

Lemma recordAdversaryPlay_undeclared adversaries stats play a :
  reachedAdversary new_Date adversaries stats →
  Play.adversary play = Some a →
  (∀ adv, adv ∈ adversaries → Adversary.Adversary adv = a →
          default 0 (Play.level play) ≠ 0
          ∧ default 0 (Play.level play) ∉ Level.Level <$> Adversary.Levels adv) →
  recordAdversaryPlay new_Date stats play = stats.
Proof.
  intros Hr Ha Hl. apply (recordAdversaryPlay_skip _ _ a); [done|].
  intros levels Hlv.
  destruct (reachedAdversary_levels _ _ _ _ Hr Hlv)
    as (adv & Hin & Hname & _ & Hdom).
  destruct (Hl adv Hin Hname) as [H0 Hdecl].
  apply not_elem_of_dom. rewrite Hdom. set_solver.
Qed.

(** A record the loop skips can be dropped from the log. *)
Lemma buildAdversaryStats_drop adversaries l1 play l2 :
  (∀ stats, reachedAdversary new_Date adversaries stats →
            recordAdversaryPlay new_Date stats play = stats) →
  buildAdversaryStats new_Date (l1 ++ play :: l2) adversaries
  = buildAdversaryStats new_Date (l1 ++ l2) adversaries.
Proof.
  intros H. unfold buildAdversaryStats. rewrite !foldl_app. simpl.
  rewrite H; [done|]. by exists l1.
Qed.

End SkipFacts.

Lemma foldl_recordPlay_empty new_Date plays :
  foldl (recordPlay new_Date) JsObject.empty plays = JsObject.empty.
Proof.
  induction plays as [|play plays IH]; simpl; [done|].
  replace (recordPlay new_Date JsObject.empty play)
    with (@JsObject.empty PlayStats.t); [done|].
  unfold recordPlay. induction (Play.players play) as [|e es IHe]; [done|].
  simpl. rewrite recordPlayer_skip; [done|]. unfold cell, JsObject.get. simpl.
  by rewrite lookup_empty.
Qed.

Lemma foldl_recordAdversaryPlay_empty new_Date plays :
  foldl (recordAdversaryPlay new_Date) ∅ plays = ∅.
Proof.
  induction plays as [|play plays IH]; simpl; [done|].
  replace (recordAdversaryPlay new_Date ∅ play)
    with (∅ : gmap string (gmap Z AdversaryLevelStats.t)); [done|].
  unfold recordAdversaryPlay. destruct (Play.adversary play) as [a|]; [|done].
  destruct (truthy (Some a)); [|done]. by rewrite lookup_empty.
Qed.

(** C6. The character aggregator raises a TypeError exactly when some
    entry of the log names a character that is outside the catalog and is a
    property name inherited from [Object.prototype]; on every other log it
    returns its table.  The adversary aggregator raises on no log.  An entry
    that names a character outside the catalog or a participant outside the
    recognized set leaves the table unchanged unless it raises, a record that
    names an adversary outside the catalog leaves the table unchanged, and
    an empty log or an empty catalog gives empty or all-zero tables. *)
Theorem aggregation_raises_on_inherited_names
    (new_Date : string → option Z) (plays : list Play.t)
    (spirits : list Spirit.t) (adversaries : list Adversary.t) :
  "__proto__" ∉ map Spirit.spirit spirits →
  (∀ e, e ∈ entries plays → Player.player e ≠ "__proto__") →
  (buildPlayStats_exn new_Date plays spirits = TypeError
   ↔ ∃ e, e ∈ entries plays ∧ namesInherited spirits e)
  ∧ ((∀ e, e ∈ entries plays → ¬ namesInherited spirits e) →
     buildPlayStats_exn new_Date plays spirits
     = Ok (buildPlayStats new_Date plays spirits))
  ∧ buildAdversaryStats_exn new_Date plays adversaries
    = Ok (buildAdversaryStats new_Date plays adversaries)
  ∧ (∀ stats d e,
       reached new_Date spirits (uniquePlayers plays) stats →
       Player.spirit e ∉ map Spirit.spirit spirits
       ∨ Player.player e ∉ uniquePlayers plays →
       recordPlayer new_Date d stats e = stats
       ∧ (namesInherited spirits e →
          recordPlayer_exn new_Date d stats e = TypeError)
       ∧ (¬ namesInherited spirits e →
          recordPlayer_exn new_Date d stats e = Ok stats))
  ∧ (∀ stats play a,
       reachedAdversary new_Date adversaries stats →
       Play.adversary play = Some a →
       a ∉ map Adversary.Adversary adversaries →
       recordAdversaryPlay new_Date stats play = stats
       ∧ recordAdversaryPlay_exn new_Date stats play = Ok stats)
  ∧ (∀ l1 play l2 a,
       plays = l1 ++ play :: l2 →
       Play.adversary play = Some a →
       a ∉ map Adversary.Adversary adversaries →
       buildAdversaryStats new_Date plays adversaries
       = buildAdversaryStats new_Date (l1 ++ l2) adversaries)
  ∧ (plays = [] →
     (∀ c row, JsObject.get (buildPlayStats new_Date plays spirits) c = Some row →
               PlayStats.playerStats row = ∅)
     ∧ ∀ a levels l st,
         buildAdversaryStats new_Date plays adversaries !! a = Some levels →
         levels !! l = Some st →
         AdversaryLevelStats.plays st = 0%nat
         ∧ AdversaryLevelStats.lastPlayed st = None)
  ∧ (spirits = [] → buildPlayStats new_Date plays spirits = JsObject.empty)
  ∧ (adversaries = [] → buildAdversaryStats new_Date plays adversaries = ∅).
Proof.
  intros _ _.
  pose proof (buildPlayStats_exn_spec new_Date plays spirits) as Hspec.
  pose proof (Exists_entries (namesInherited spirits) plays) as Hentries.
  split.
  { rewrite Hspec, <- Hentries. by case_decide. }
  split.
  { intros Hnone. rewrite Hspec. rewrite decide_False; [done|].
    intros (e & He & Hstray)%Hentries. by apply (Hnone e). }
  split; [apply buildAdversaryStats_exn_ok|].
  split.
  { intros stats d e Hr He.
    assert (recordPlayer new_Date d stats e = stats) as Hskip.
    { apply recordPlayer_skip. apply eq_None_not_Some.
      rewrite (reached_cell _ _ _ _ _ _ Hr). tauto. }
    split; [done|].
    pose proof (catalogKeys_reached new_Date _ _ _ Hr) as Hkeys.
    rewrite recordPlayer_exn_spec, Hskip. split.
    - intros [Hin Hout]. rewrite decide_True; [done|]. split; [|done].
      apply eq_None_not_Some. by rewrite (Hkeys _).
    - intros Hno. rewrite decide_False; [done|]. intros [Hnone Hin].
      apply Hno. split; [done|]. rewrite <- (Hkeys _).
      rewrite Hnone. by intros [? ?]. }
  split.
  { intros stats play a Hr Ha Hnot.
    assert (recordAdversaryPlay new_Date stats play = stats) as Hskip
      by (by eapply recordAdversaryPlay_unknown).
    split; [done|]. by rewrite recordAdversaryPlay_exn_ok, Hskip. }
  split.
  { intros l1 play l2 a -> Ha Hnot. apply buildAdversaryStats_drop.
    intros stats Hr. by eapply recordAdversaryPlay_unknown. }
  split.
  { intros ->. split.
    - intros c row. unfold buildPlayStats; simpl.
      destruct (get_initPlayStats spirits (uniquePlayers []) c)
        as [[_ ->]|(s & _ & _ & ->)]; [done|].
      by intros [= <-].
    - intros a levels l st. unfold buildAdversaryStats; simpl.
      destruct (lookup_initAdversaryStats adversaries a)
        as [[_ ->]|(adv & _ & _ & ->)]; [done|].
      intros [= <-]. apply initLevelStats_zero. }
  split.
  - intros ->. apply foldl_recordPlay_empty.
  - intros ->. apply foldl_recordAdversaryPlay_empty.
Qed.

Lemma aggregation_raises_on_inherited_names_witness :
  buildPlayStats_exn Host.new_Date
    [Sample.session "2024-01-05"
       [Player.mk "A" "River"; Player.mk "A" "toString"]]
    [Sample.river]
  = TypeError.
Proof.
  apply (aggregation_raises_on_inherited_names Host.new_Date
           [Sample.session "2024-01-05"
              [Player.mk "A" "River"; Player.mk "A" "toString"]]
           [Sample.river] []).
  - evaluate.
  - intros e He. vm_compute in He.
    apply elem_of_cons in He as [->|He]; [done|].
    apply elem_of_cons in He as [->|He]; [done|].
    by apply elem_of_nil in He.
  - exists (Player.mk "A" "toString"). split; evaluate.
Defined.

Lemma same_name_same_entry (adversaries : list Adversary.t) adv adv' :
  NoDup (map Adversary.Adversary adversaries) →
  adv ∈ adversaries → adv' ∈ adversaries →
  Adversary.Adversary adv = Adversary.Adversary adv' → adv = adv'.
Proof.
  induction adversaries as [|x l IH]; simpl; intros Hnd Hin Hin' Hname.
  - by apply elem_of_nil in Hin.
  - apply NoDup_cons in Hnd as [Hx Hnd].
    apply elem_of_cons in Hin as [->|Hin]; apply elem_of_cons in Hin' as [->|Hin'].
    + done.
    + exfalso. apply Hx. rewrite Hname. apply list_elem_of_fmap. eauto.
    + exfalso. apply Hx. rewrite <- Hname. apply list_elem_of_fmap. eauto.
    + by apply IH.
Qed.

(** C10. A play record against a catalog adversary at a level that is
    neither 0 nor declared for it leaves the adversary table unchanged and
    raises no exception, so the log gives the same statistics with and
    without it; the level table of an adversary holds exactly level 0 and
    the declared levels. *)
Theorem undeclared_level_is_ignored (new_Date : string → option Z)
    (adversaries : list Adversary.t) (play : Play.t) (a : string) :
  Play.adversary play = Some a →
  a ∈ map Adversary.Adversary adversaries →
  (∀ adv, adv ∈ adversaries → Adversary.Adversary adv = a →
          default 0 (Play.level play) ≠ 0
          ∧ default 0 (Play.level play) ∉ Level.Level <$> Adversary.Levels adv) →
  (∀ stats,
     reachedAdversary new_Date adversaries stats →
     recordAdversaryPlay new_Date stats play = stats
     ∧ recordAdversaryPlay_exn new_Date stats play = Ok stats
     ∧ (∀ name levels,
          stats !! name = Some levels →
          ∃ adv, adv ∈ adversaries ∧ Adversary.Adversary adv = name
                 ∧ dom levels
                   = ({[0]} ∪ list_to_set (Level.Level <$> Adversary.Levels adv)
                      : gset Z))
     ∧ (NoDup (map Adversary.Adversary adversaries) →
        ∀ adv, adv ∈ adversaries →
               ∃ levels,
                 stats !! Adversary.Adversary adv = Some levels
                 ∧ dom levels
                   = ({[0]} ∪ list_to_set (Level.Level <$> Adversary.Levels adv)
                      : gset Z)))
  ∧ ∀ l1 l2,
      buildAdversaryStats new_Date (l1 ++ play :: l2) adversaries
      = buildAdversaryStats new_Date (l1 ++ l2) adversaries
      ∧ buildAdversaryStats_exn new_Date (l1 ++ play :: l2) adversaries
        = Ok (buildAdversaryStats new_Date (l1 ++ l2) adversaries).
Proof.
  intros Ha Hin Hlevel.
  assert (∀ stats, reachedAdversary new_Date adversaries stats →
                   recordAdversaryPlay new_Date stats play = stats) as Hskip.
  { intros stats Hr. by eapply recordAdversaryPlay_undeclared. }
  split.
  - intros stats Hr. split; [by apply Hskip|].
    split; [by rewrite recordAdversaryPlay_exn_ok, Hskip|].
    split.
    + intros name levels Hlv.
      destruct (reachedAdversary_levels _ _ _ _ _ Hr Hlv)
        as (adv & ? & ? & _ & ?). by exists adv.
    + intros Hnd adv Hadv.
      pose proof (dom_reachedAdversary _ _ _ Hr) as Hdom.
      apply (f_equal (.!! Adversary.Adversary adv)) in Hdom.
      rewrite !lookup_fmap in Hdom.
      destruct (lookup_initAdversaryStats adversaries (Adversary.Adversary adv))
        as [[Hnot _]|(adv' & Hin' & Hname & Hget)].
      { exfalso. apply Hnot, list_elem_of_fmap. eauto. }
      assert (adv' = adv) as -> by (by apply (same_name_same_entry adversaries)).
      rewrite Hget in Hdom. simpl in Hdom.
      destruct (stats !! Adversary.Adversary adv) as [levels|]; [|done].
      exists levels. split; [done|]. simpl in Hdom. injection Hdom as ->.
      apply dom_initLevelStats.
  - intros l1 l2.
    assert (buildAdversaryStats new_Date (l1 ++ play :: l2) adversaries
            = buildAdversaryStats new_Date (l1 ++ l2) adversaries) as Hdrop
      by (by apply buildAdversaryStats_drop).
    split; [done|]. by rewrite buildAdversaryStats_exn_ok, Hdrop.
Qed.

Lemma undeclared_level_is_ignored_witness :
  let catalog := [SampleAdversaries.england; SampleAdversaries.sweden] in
  buildAdversaryStats Host.new_Date
    (SampleAdversaries.strays ++ SampleAdversaries.undeclared :: []) catalog
  = buildAdversaryStats Host.new_Date (SampleAdversaries.strays ++ []) catalog.
Proof.
  apply (undeclared_level_is_ignored Host.new_Date
           [SampleAdversaries.england; SampleAdversaries.sweden]
           SampleAdversaries.undeclared "England").
  - reflexivity.
  - evaluate.
  - intros adv Hadv Hname. split; [done|].
    apply elem_of_cons in Hadv as [->|Hadv].
    + evaluate.
    + apply list_elem_of_singleton in Hadv as ->. done.
Defined.

(** ** The adversary recommendation *)

Section ScanFacts.
Variable new_Date : string → option Z.

Lemma fst_scanLevel levels acc i :
  (playedAt levels i ∧ fst (scanLevel new_Date levels acc i) = Z.max (fst acc) i)
  ∨ (¬ playedAt levels i ∧ scanLevel new_Date levels acc i = acc).
Proof.
  unfold scanLevel, playedAt.
  destruct (levels ≫= (.!! i)) as [st|]; [|right; split; [by intros (? & ? & ?)|done]].
  destruct (Nat.ltb_spec 0 (AdversaryLevelStats.plays st)).
  - left. split; [eauto|done].
  - right. split; [|done]. intros (st' & [= <-] & ?). lia.
Qed.

Lemma scan_highest levels l acc :
  let r := foldl (scanLevel new_Date levels) acc l in
  fst acc ≤ fst r
  ∧ (fst r = fst acc ∨ (fst r ∈ l ∧ playedAt levels (fst r)))
  ∧ ∀ i, i ∈ l → playedAt levels i → i ≤ fst r.
Proof.
  revert acc. induction l as [|j l IH]; intros acc; simpl.
  - split; [lia|]. split; [by left|]. by intros i ?%elem_of_nil.
  - destruct (IH (scanLevel new_Date levels acc j)) as (Hle & Hwhich & Hmax).
    destruct (fst_scanLevel levels acc j) as [[Hp Hj]|[Hp Hj]].
    + rewrite Hj in *. split; [lia|]. split.
      * destruct Hwhich as [Heq|[Hin Hpl]]; [|right; split; [by right|done]].
        destruct (Z.max_spec (fst acc) j) as [[_ Hm]|[_ Hm]]; rewrite Hm in Heq.
        -- right. rewrite Heq. split; [by left|done].
        -- by left.
      * intros i [->|Hi]%elem_of_cons Hpi; [lia|by apply Hmax].
    + rewrite Hj in *. split; [done|]. split.
      * destruct Hwhich as [?|[? ?]]; [by left|right; split; [by right|done]].
      * intros i [->|Hi]%elem_of_cons Hpi; [done|by apply Hmax].
Qed.

Lemma scanLevels_highest levels :
  highestPlayed levels (fst (scanLevels new_Date levels)).
Proof.
  unfold scanLevels, highestPlayed.
  destruct (scan_highest levels [0; 1; 2; 3; 4; 5; 6] (-1, None))
    as (Hle & Hwhich & Hmax).
  change (fst (-1, @None string)) with (-1) in Hle, Hwhich.
  assert (∀ i, 0 ≤ i ≤ 6 → i ∈ [0; 1; 2; 3; 4; 5; 6]) as Hrange.
  { intros i Hi. rewrite !elem_of_cons.
    assert (i = 0 ∨ i = 1 ∨ i = 2 ∨ i = 3 ∨ i = 4 ∨ i = 5 ∨ i = 6) by lia.
    tauto. }
  destruct Hwhich as [Heq|[Hin Hp]].
  - left. split; [done|]. intros i Hi Hp.
    specialize (Hmax i (Hrange i Hi) Hp). lia.
  - right. split; [|split; [done|]].
    + rewrite !elem_of_cons, elem_of_nil in Hin. lia.
    + intros i Hi. apply Hmax. by apply Hrange.
Qed.

End ScanFacts.

Lemma find_first {A} (f : A → bool) (pre post : list A) x :
  f x = true → (∀ y, y ∈ pre → f y = false) →
  List.find f (pre ++ x :: post) = Some x.
Proof.
  intros Hx. induction pre as [|y pre IH]; intros Hpre; simpl.
  - by rewrite Hx.
  - rewrite (Hpre y) by left. apply IH. intros z Hz. apply Hpre. by right.
Qed.

Lemma find_absent {A} (f : A → bool) (l : list A) :
  (∀ y, y ∈ l → f y = false) → List.find f l = None.
Proof.
  induction l as [|y l IH]; intros Hl; simpl; [done|].
  rewrite (Hl y) by left. apply IH. intros z Hz. apply Hl. by right.
Qed.

(** C3. The recommendation of a catalog adversary names level
    [min (h + 1) 6], where [h] is the largest level from 0 to 6 of its level
    table with a recorded play, or [-1] without one; its difficulty is the
    base difficulty at level 0 and otherwise the difficulty of the declared
    entry for that level, or the base difficulty when none is declared. *)
Theorem adversary_next_level (new_Date : string → option Z)
    (toLocaleDateString : Z → string) (plays : list Play.t)
    (adversaries : list Adversary.t) (adv : Adversary.t) :
  adv ∈ adversaries →
  let stats := buildAdversaryStats new_Date plays adversaries in
  let rec := adversaryRecommendationFor new_Date toLocaleDateString stats adv in
  rec ∈ getAdversaryRecommendation new_Date toLocaleDateString plays adversaries
  ∧ AdversaryRecommendation.adversary rec = Adversary.Adversary adv
  ∧ (∃ h, highestPlayed (stats !! Adversary.Adversary adv) h
          ∧ AdversaryRecommendation.level rec = Z.min (h + 1) 6)
  ∧ (AdversaryRecommendation.level rec = 0 →
     AdversaryRecommendation.difficulty rec = Adversary.Base_Difficulty adv)
  ∧ (AdversaryRecommendation.level rec ≠ 0 →
     (∀ lvl, declaredAs adv (AdversaryRecommendation.level rec) lvl →
             AdversaryRecommendation.difficulty rec = Level.Difficulty lvl)
     ∧ ((∀ lvl, lvl ∈ Adversary.Levels adv →
                Level.Level lvl ≠ AdversaryRecommendation.level rec) →
        AdversaryRecommendation.difficulty rec = Adversary.Base_Difficulty adv)).
Proof.
  intros Hadv stats rec. split.
  { unfold getAdversaryRecommendation. apply elem_of_js_sort.
    apply list_elem_of_fmap. by exists adv. }
  split; [done|]. split.
  { eexists. split; [apply (scanLevels_highest new_Date)|done]. }
  unfold rec, adversaryRecommendationFor; simpl.
  set (n := Z.min _ 6). unfold levelDifficulty. split.
  - intros ->. done.
  - intros Hn. apply Z.eqb_neq in Hn. rewrite Hn. split.
    + intros lvl (pre & post & -> & Hl & Hpre).
      rewrite (find_first _ pre post lvl); [done|by apply Z.eqb_eq|].
      intros y Hy. apply Z.eqb_neq. by apply Hpre.
    + intros Hnone. rewrite find_absent; [done|].
      intros y Hy. apply Z.eqb_neq. by apply Hnone.
Qed.

Lemma adversary_next_level_witness :
  let rec :=
    adversaryRecommendationFor Host.new_Date Host.toLocaleDateString
      (buildAdversaryStats Host.new_Date SampleAdversaries.campaign
         [SampleAdversaries.england; SampleAdversaries.sweden])
      SampleAdversaries.england in
  AdversaryRecommendation.level rec = 2
  ∧ AdversaryRecommendation.difficulty rec = 4.
Proof.
  destruct (adversary_next_level Host.new_Date Host.toLocaleDateString
              SampleAdversaries.campaign
              [SampleAdversaries.england; SampleAdversaries.sweden]
              SampleAdversaries.england) as (_ & _ & _ & _ & Hd).
  - evaluate.
  - split; [by vm_compute|].
    destruct Hd as [Hdecl _]; [by vm_compute|].
    apply (Hdecl (Level.mk 2 4 "11 (4/4/3)" "Criminals and Malcontents")).
    exists [Level.mk 1 3 "10 (3/4/3)" "Indentured Servants"], [].
    split; [reflexivity|]. split; [by vm_compute|].
    intros x ->%list_elem_of_singleton. by vm_compute.
Defined.

(** ** Order of a sorted array *)

Section SortOrder.
Context {A : Type} (cmp : A → A → Z) (le : A → A → Prop) (P : A → Prop).
Hypothesis le_trans : ∀ a b c, P a → P b → P c → le a b → le b c → le a c.
Hypothesis cmp_gt : ∀ a b, P a → P b → 0 < cmp a b → le b a.
Hypothesis cmp_le : ∀ a b, P a → P b → ¬ 0 < cmp a b → le a b.

Lemma sort_insert_sorted x l :
  P x → Forall P l → StronglySorted le l →
  StronglySorted le (sort_insert cmp x l).
Proof using le_trans cmp_gt cmp_le.
  intros Hx HP Hs. induction Hs as [|y l Hs IH Hy]; simpl.
  - repeat constructor.
  - apply Forall_cons in HP as [HPy HPl].
    destruct (Z.ltb_spec 0 (cmp x y)) as [Hgt|Hle].
    + constructor; [by apply IH|].
      rewrite sort_insert_perm. constructor; [by apply cmp_gt|done].
    + assert (le x y) as Hxy by (apply cmp_le; [done..|lia]).
      constructor; [by constructor|]. constructor; [done|].
      rewrite Forall_forall in Hy, HPl |- *. intros z Hz.
      apply (le_trans x y z); auto.
Qed.

Lemma js_sort_sorted l : Forall P l → StronglySorted le (js_sort cmp l).
Proof using le_trans cmp_gt cmp_le.
  induction 1 as [|x l Hx Hl IH]; simpl; [constructor|].
  apply sort_insert_sorted; [done| |done].
  by rewrite js_sort_perm.
Qed.

End SortOrder.


Section SortFront.
Context {A : Type} (cmp : A → A → Z) (front : A → Prop)
        `{!∀ a, Decision (front a)}.
Hypothesis front_stays : ∀ a b, front a → ¬ 0 < cmp a b.
Hypothesis back_passes : ∀ a b, ¬ front a → front b → 0 < cmp a b.

Lemma sort_insert_front x l : front x → sort_insert cmp x l = x :: l.
Proof using front_stays.
  intros Hx. destruct l as [|y l]; simpl; [done|].
  destruct (Z.ltb_spec 0 (cmp x y)) as [Hgt|_]; [|done].
  by apply front_stays in Hgt.
Qed.

Lemma sort_insert_back x l1 l2 :
  ¬ front x → Forall front l1 →
  sort_insert cmp x (l1 ++ l2) = l1 ++ sort_insert cmp x l2.
Proof using back_passes.
  intros Hx. induction 1 as [|y l1 Hy _ IH]; simpl; [done|].
  destruct (Z.ltb_spec 0 (cmp x y)) as [_|Hle]; [by rewrite IH|].
  pose proof (back_passes x y Hx Hy). lia.
Qed.

(** The front elements come first, in their original order. *)
Lemma js_sort_front l :
  js_sort cmp l
  = filter front l ++ js_sort cmp (filter (λ a, ¬ front a) l).
Proof using front_stays back_passes.
  induction l as [|x l IH]; simpl; [done|].
  rewrite !filter_cons. rewrite IH.
  destruct (decide (front x)) as [Hx|Hx].
  - rewrite decide_False by tauto. by apply sort_insert_front.
  - rewrite decide_True by done. simpl. apply sort_insert_back; [done|].
    apply Forall_forall. by intros y [? _]%list_elem_of_filter.
Qed.

End SortFront.

(** ** Dates in the adversary table *)

Section AdversaryDates.
Variable new_Date : string → option Z.

Lemma countAdversaryPlay_good d st :
  validDate new_Date d →
  goodLast new_Date (AdversaryLevelStats.lastPlayed st) →
  goodLast new_Date
    (AdversaryLevelStats.lastPlayed (countAdversaryPlay new_Date d st))
  ∧ is_Some (AdversaryLevelStats.lastPlayed (countAdversaryPlay new_Date d st)).
Proof.
  intros Hd Hst. unfold countAdversaryPlay; simpl.
  destruct (AdversaryLevelStats.lastPlayed st) as [c|]; simpl in *.
  - destruct (_ || _); split; eauto.
  - split; eauto.
Qed.

Lemma goodLevels_init adversaries a :
  goodLevels new_Date (initAdversaryStats adversaries !! a).
Proof.
  intros l st.
  destruct (lookup_initAdversaryStats adversaries a)
    as [[_ ->]|(adv & _ & _ & ->)]; simpl; [done|].
  intros [-> ->]%initLevelStats_zero. split; [done|lia].
Qed.

Lemma goodLevels_step stats play :
  validDate new_Date (Play.date play) →
  (∀ a, goodLevels new_Date (stats !! a)) →
  ∀ a, goodLevels new_Date (recordAdversaryPlay new_Date stats play !! a).
Proof.
  intros Hd Hgood a. unfold recordAdversaryPlay.
  destruct (Play.adversary play) as [b|]; [|done].
  destruct (truthy (Some b)); [|done].
  destruct (stats !! b) as [levels|] eqn:Eb; [|done].
  destruct (levels !! default 0 (Play.level play)) as [st0|] eqn:El; [|done].
  destruct (decide (b = a)) as [->|Hne]; [|by rewrite lookup_insert_ne].
  rewrite lookup_insert_eq. intros l st; simpl.
  destruct (decide (default 0 (Play.level play) = l)) as [<-|Hl].
  - rewrite lookup_insert_eq. intros [= <-].
    destruct (Hgood a (default 0 (Play.level play)) st0) as [Hg _].
    { rewrite Eb. done. }
    destruct (countAdversaryPlay_good (Play.date play) st0 Hd Hg). split; done.
  - rewrite lookup_insert_ne by done. intros Hst.
    apply (Hgood a l st). rewrite Eb. done.
Qed.

Lemma goodLevels_build plays adversaries a :
  validLog new_Date plays →
  goodLevels new_Date (buildAdversaryStats new_Date plays adversaries !! a).
Proof.
  unfold buildAdversaryStats. intros Hlog. revert a.
  generalize (goodLevels_init adversaries).
  generalize (initAdversaryStats adversaries) as stats.
  induction Hlog as [|play plays Hd _ IH]; intros stats Hgood; simpl; [done|].
  apply IH. by apply goodLevels_step.
Qed.

Lemma truthy_valid d : validDate new_Date d → truthy (Some d) = true.
Proof.
  intros [Hd _]. simpl. by destruct (String.eqb_spec d "").
Qed.

(** One step of the scan, on the most recent date. *)
Lemma snd_scanLevel levels acc i :
  goodLevels new_Date levels → goodLast new_Date (snd acc) →
  goodLast new_Date (snd (scanLevel new_Date levels acc i))
  ∧ snd (scanLevel new_Date levels acc i) ≫= new_Date
    = Date_max (snd acc ≫= new_Date) (latest new_Date (playedDates levels [i]))
  ∧ (snd (scanLevel new_Date levels acc i) = None
     ↔ snd acc = None ∧ ¬ playedAt levels i).
Proof.
  intros Hlevels Hacc. unfold scanLevel, playedAt, playedDates; simpl.
  destruct (levels ≫= (.!! i)) as [st|] eqn:Est; simpl.
  2:{ split; [done|]. split; [by destruct (snd acc ≫= new_Date)|].
      split; [intros ?; split; [done|by intros (? & ? & ?)]|tauto]. }
  destruct (Hlevels i st Est) as [Hgood Hsome].
  destruct (Nat.ltb_spec 0 (AdversaryLevelStats.plays st)) as [Hpos|Hzero]; simpl.
  2:{ split; [done|]. split; [by destruct (snd acc ≫= new_Date)|].
      split; [intros ?; split; [done|]|tauto].
      intros (st' & [= <-] & ?). lia. }
  destruct (Hsome Hpos) as [d Hd]. rewrite Hd in *. simpl in Hgood.
  rewrite (truthy_valid d Hgood).
  destruct Hgood as [Hne [t Ht]].
  destruct (snd acc) as [c|] eqn:Ec; simpl in *.
  - destruct Hacc as [Hc [tc Htc]].
    destruct (String.eqb_spec c "") as [->|_]; [done|]. simpl.
    rewrite Ht, Htc. simpl.
    destruct (Z.ltb_spec tc t); simpl.
    + rewrite Ht. split; [split; eauto|]. split; [f_equal; lia|].
      split; [done|by intros [? _]].
    + rewrite Htc. split; [split; eauto|]. split; [f_equal; lia|].
      split; [done|by intros [? _]].
  - rewrite Ht. split; [split; eauto|]. split; [done|].
    split; [done|]. intros [_ Hnot]. exfalso. apply Hnot. eauto.
Qed.

Lemma playedDates_cons levels i l :
  latest new_Date (playedDates levels (i :: l))
  = Date_max (latest new_Date (playedDates levels [i]))
             (latest new_Date (playedDates levels l)).
Proof.
  unfold playedDates; simpl.
  destruct (match levels ≫= (.!! i) with Some _ => _ | None => _ end); simpl.
  - by rewrite <- Date_max_assoc.
  - done.
Qed.

Lemma scan_mostRecent levels l acc :
  goodLevels new_Date levels → goodLast new_Date (snd acc) →
  let r := foldl (scanLevel new_Date levels) acc l in
  goodLast new_Date (snd r)
  ∧ snd r ≫= new_Date
    = Date_max (snd acc ≫= new_Date) (latest new_Date (playedDates levels l))
  ∧ (snd r = None ↔ snd acc = None ∧ ∀ i, i ∈ l → ¬ playedAt levels i).
Proof.
  intros Hlevels. revert acc.
  induction l as [|i l IH]; intros acc Hacc; cbv zeta; cbn [foldl].
  - split; [done|]. split; [simpl; by destruct (snd acc ≫= new_Date)|].
    split; [intros ?; split; [done|by intros ? ?%elem_of_nil]|tauto].
  - destruct (snd_scanLevel levels acc i Hlevels Hacc) as (Hg & Ht & Hn).
    destruct (IH _ Hg) as (Hg' & Ht' & Hn').
    split; [done|]. split.
    + rewrite Ht', Ht, (playedDates_cons levels i l). symmetry.
      apply Date_max_assoc.
    + rewrite Hn', Hn. split.
      * intros [[? ?] ?]. split; [done|].
        by intros j [->|?]%elem_of_cons; auto.
      * intros [? Hall]. split; [split; [done|]|].
        -- apply Hall. by left.
        -- intros j ?. apply Hall. by right.
Qed.

Lemma scanLevels_mostRecent levels :
  goodLevels new_Date levels →
  let mostRecentDate := snd (scanLevels new_Date levels) in
  goodLast new_Date mostRecentDate
  ∧ mostRecentDate ≫= new_Date
    = latest new_Date (playedDates levels [0; 1; 2; 3; 4; 5; 6])
  ∧ (mostRecentDate = None ↔ neverPlayed levels).
Proof.
  intros Hlevels.
  destruct (scan_mostRecent levels [0; 1; 2; 3; 4; 5; 6] (-1, None) Hlevels)
    as (Hg & Ht & Hn); [done|].
  split; [done|]. split; [done|].
  unfold scanLevels. rewrite Hn. unfold neverPlayed. split.
  - intros [_ H] i Hi. apply H. rewrite !elem_of_cons.
    assert (i = 0 ∨ i = 1 ∨ i = 2 ∨ i = 3 ∨ i = 4 ∨ i = 5 ∨ i = 6) by lia.
    tauto.
  - intros H. split; [done|]. intros i Hi. apply H.
    rewrite !elem_of_cons, elem_of_nil in Hi. lia.
Qed.

End AdversaryDates.

(** C4. For a log of valid dates, the recommendation of an adversary has no
    date exactly when none of its levels 0 to 6 has a recorded play, and
    otherwise carries the most recent date of its played levels; in the
    list, the recommendations without a date come first, in catalog order,
    followed by the dated ones in ascending order of date. *)
Theorem adversary_recommendation_order (new_Date : string → option Z)
    (toLocaleDateString : Z → string) (plays : list Play.t)
    (adversaries : list Adversary.t) :
  validLog new_Date plays →
  let stats := buildAdversaryStats new_Date plays adversaries in
  let recs :=
    map (adversaryRecommendationFor new_Date toLocaleDateString stats)
        adversaries in
  (∀ adv,
     let rec := adversaryRecommendationFor new_Date toLocaleDateString stats adv in
     (AdversaryRecommendation.lastPlayed rec = None
      ↔ neverPlayed (stats !! Adversary.Adversary adv))
     ∧ AdversaryRecommendation.lastPlayed rec ≫= new_Date
       = latest new_Date
           (playedDates (stats !! Adversary.Adversary adv) [0; 1; 2; 3; 4; 5; 6]))
  ∧ ∃ played,
      getAdversaryRecommendation new_Date toLocaleDateString plays adversaries
      = filter (λ r, AdversaryRecommendation.lastPlayed r = None) recs ++ played
      ∧ played
        ≡ₚ filter (λ r, AdversaryRecommendation.lastPlayed r ≠ None) recs
      ∧ StronglySorted (notLater new_Date) played.
Proof.
  intros Hlog stats recs.
  assert (∀ adv,
            goodLast new_Date
              (AdversaryRecommendation.lastPlayed
                 (adversaryRecommendationFor new_Date toLocaleDateString stats adv))
            ∧ (AdversaryRecommendation.lastPlayed
                 (adversaryRecommendationFor new_Date toLocaleDateString stats adv)
               = None ↔ neverPlayed (stats !! Adversary.Adversary adv))
            ∧ AdversaryRecommendation.lastPlayed
                (adversaryRecommendationFor new_Date toLocaleDateString stats adv)
              ≫= new_Date
              = latest new_Date
                  (playedDates (stats !! Adversary.Adversary adv)
                     [0; 1; 2; 3; 4; 5; 6])) as Hrec.
  { intros adv. simpl.
    destruct (scanLevels_mostRecent new_Date (stats !! Adversary.Adversary adv))
      as (Hg & Ht & Hn); [by apply goodLevels_build|].
    split; [done|]. split; [done|done]. }
  split.
  { intros adv rec. destruct (Hrec adv) as (_ & ? & ?). done. }
  set (front := λ r, AdversaryRecommendation.lastPlayed r = None).
  exists (js_sort (compareLastPlayed new_Date) (filter (λ r, ¬ front r) recs)).
  split; [|split].
  - unfold getAdversaryRecommendation. fold stats. fold recs.
    apply (js_sort_front (compareLastPlayed new_Date) front).
    + intros a b Ha. unfold front in Ha. unfold compareLastPlayed. rewrite Ha.
      destruct (AdversaryRecommendation.lastPlayed b); lia.
    + intros a b Ha Hb. unfold front in Ha, Hb. unfold compareLastPlayed.
      rewrite Hb. destruct (AdversaryRecommendation.lastPlayed a); [lia|done].
  - apply js_sort_perm.
  - apply (js_sort_sorted (compareLastPlayed new_Date) (notLater new_Date)
             (λ r, ∃ d, AdversaryRecommendation.lastPlayed r = Some d
                        ∧ validDate new_Date d)).
    + intros a b c _ _ _ (ta & tb & Ha & Hb & Hab) (tb' & tc & Hb' & Hc & Hbc).
      exists ta, tc. split; [done|]. split; [done|].
      rewrite Hb in Hb'. injection Hb' as <-. lia.
    + intros a b (da & Ha & _ & [ta Hta]) (db & Hb & _ & [tb Htb]).
      unfold compareLastPlayed, notLater. rewrite Ha, Hb, Hta, Htb. simpl.
      rewrite Hta, Htb. intros ?. exists tb, ta. split; [done|]. split; [done|lia].
    + intros a b (da & Ha & _ & [ta Hta]) (db & Hb & _ & [tb Htb]).
      unfold compareLastPlayed, notLater. rewrite Ha, Hb, Hta, Htb. simpl.
      rewrite Hta, Htb. intros ?. exists ta, tb. split; [done|]. split; [done|lia].
    + apply Forall_forall. intros r [Hr Hin]%list_elem_of_filter.
      apply list_elem_of_fmap in Hin as (adv & -> & _).
      destruct (Hrec adv) as (Hg & _ & _). unfold front in Hr.
      destruct (AdversaryRecommendation.lastPlayed _) as [d|]; [|done].
      by exists d.
Qed.

Lemma adversary_recommendation_order_witness :
  let plays := SampleAdversaries.campaign in
  let adversaries := [SampleAdversaries.england; SampleAdversaries.sweden] in
  let stats := buildAdversaryStats Host.new_Date plays adversaries in
  let recs :=
    map (adversaryRecommendationFor Host.new_Date Host.toLocaleDateString stats)
        adversaries in
  ∃ played,
    getAdversaryRecommendation Host.new_Date Host.toLocaleDateString plays
      adversaries
    = filter (λ r, AdversaryRecommendation.lastPlayed r = None) recs ++ played
    ∧ played ≡ₚ filter (λ r, AdversaryRecommendation.lastPlayed r ≠ None) recs
    ∧ StronglySorted (notLater Host.new_Date) played.
Proof.
  apply (adversary_recommendation_order Host.new_Date Host.toLocaleDateString
           SampleAdversaries.campaign
           [SampleAdversaries.england; SampleAdversaries.sweden]).
  valid_log.
Defined.

(** The specification's ordering example: a never-played adversary comes
    before one that was played, whatever the catalog order. *)
Example never_played_comes_first :
  map AdversaryRecommendation.adversary
      (getAdversaryRecommendation Host.new_Date Host.toLocaleDateString
         SampleAdversaries.campaign
         [SampleAdversaries.england; SampleAdversaries.sweden])
  = ["Sweden"; "England"].
Proof. by vm_compute. Qed.

(** ** The summary *)



Section SummaryFacts.
Variable new_Date : string → option Z.



End SummaryFacts.

Section SummaryTheorem.
Variable new_Date : string → option Z.




End SummaryTheorem.


(** The specification's summary example. *)
Example summary_of_favorites :
  let stats :=
    buildPlayStats Host.new_Date Sample.favorites [Sample.river; Sample.jagged] in
  playerTotalPlays stats "E" = 4%nat
  ∧ favoriteLine stats "E" = Some (MostPlayed.mk "Jagged Earth" 3)
  ∧ favoriteLine stats "A" = None.
Proof. by vm_compute. Qed.


(** ** The sort projection *)

Lemma str_lt_empty_l s : str_lt "" s = negb (String.eqb s "").
Proof. by destruct s. Qed.

Lemma str_lt_empty_r s : str_lt s "" = false.
Proof. by destruct s. Qed.

(** The count and the date string a row is compared by. *)
Lemma compareRows_plays (p : string) (direction : Direction) (a b : PlayStats.t) :
  p = "A" ∨ p = "E" →
  let count := λ row,
        from_option PlayerStats.plays 0%nat (PlayStats.playerStats row !! p) in
  compareRows (SortConfig.mk ("player-" +:+ p +:+ "-plays") direction) a b
  = directed direction (count a <? count b)%nat (count b <? count a)%nat.
Proof. by intros [-> | ->]. Qed.

Lemma compareRows_lastPlayed (p : string) (direction : Direction)
    (a b : PlayStats.t) :
  p = "A" ∨ p = "E" →
  let date := λ row,
        default "" (PlayStats.playerStats row !! p ≫= PlayerStats.lastPlayed) in
  compareRows (SortConfig.mk ("player-" +:+ p +:+ "-lastPlayed") direction) a b
  = directed direction (str_lt (date a) (date b)) (str_lt (date b) (date a)).
Proof. by intros [-> | ->]. Qed.

Lemma uniquePlayers_A_or_E plays p : p ∈ uniquePlayers plays → p = "A" ∨ p = "E".
Proof. by intros [? _]%elem_of_uniquePlayers. Qed.

(** Two arrangements of the same rows with the same sequence of pairwise
    distinct keys are equal. *)
Lemma arrangement_unique {A B} (f : A → B) (l1 l2 : list A) :
  NoDup (map f l1) → l1 ≡ₚ l2 → map f l1 = map f l2 → l1 = l2.
Proof.
  revert l2. induction l1 as [|a l1 IH]; intros l2 Hnd Hperm Hmap.
  - by apply Permutation_nil in Hperm.
  - destruct l2 as [|b l2]; [by apply Permutation_nil_r in Hperm|].
    simpl in Hmap. injection Hmap as Hab Hmap.
    apply NoDup_cons in Hnd as [Ha Hnd].
    assert (a = b) as ->.
    { assert (b ∈ a :: l1) as Hb by (rewrite Hperm; by left).
      apply elem_of_cons in Hb as [->|Hb]; [done|].
      exfalso. apply Ha. rewrite Hab. apply list_elem_of_fmap. eauto. }
    f_equal. apply IH; [done| |done]. by apply Permutation_cons_inv in Hperm.
Qed.

Section SortProjection.
Context (rows : list PlayStats.t) (p : string).
Hypothesis Hp : p = "A" ∨ p = "E".

Let count : PlayStats.t → nat := λ row,
  from_option PlayerStats.plays 0%nat (PlayStats.playerStats row !! p).
Let byPlays (direction : Direction) : list PlayStats.t :=
  js_sort (compareRows (SortConfig.mk ("player-" +:+ p +:+ "-plays") direction))
          rows.

Lemma byPlays_asc_sorted :
  StronglySorted (λ a b, (count a ≤ count b)%nat) (byPlays asc).
Proof using Hp.
  apply (js_sort_sorted _ _ (λ _, True)).
  - intros a b c _ _ _ ? ?. lia.
  - intros a b _ _. rewrite compareRows_plays by done.
    unfold directed. fold (count a). fold (count b).
    destruct (Nat.ltb_spec (count a) (count b));
      destruct (Nat.ltb_spec (count b) (count a)); lia.
  - intros a b _ _. rewrite compareRows_plays by done.
    unfold directed. fold (count a). fold (count b).
    destruct (Nat.ltb_spec (count a) (count b));
      destruct (Nat.ltb_spec (count b) (count a)); lia.
  - by apply Forall_forall.
Qed.

Lemma byPlays_desc_sorted :
  StronglySorted (λ a b, (count b ≤ count a)%nat) (byPlays desc).
Proof using Hp.
  apply (js_sort_sorted _ _ (λ _, True)).
  - intros a b c _ _ _ ? ?. lia.
  - intros a b _ _. rewrite compareRows_plays by done.
    unfold directed. fold (count a). fold (count b).
    destruct (Nat.ltb_spec (count a) (count b));
      destruct (Nat.ltb_spec (count b) (count a)); lia.
  - intros a b _ _. rewrite compareRows_plays by done.
    unfold directed. fold (count a). fold (count b).
    destruct (Nat.ltb_spec (count a) (count b));
      destruct (Nat.ltb_spec (count b) (count a)); lia.
  - by apply Forall_forall.
Qed.

Lemma byPlays_desc_reverse :
  map count (byPlays desc) = reverse (map count (byPlays asc)).
Proof using Hp.
  rewrite <- (reverse_involutive (map count (byPlays desc))). f_equal.
  apply (Sorted_unique le).
  - apply (Sorted_reverse ge), StronglySorted_Sorted.
    apply (StronglySorted_fmap _ (λ a b, (count b ≤ count a)%nat)); [done|].
    apply byPlays_desc_sorted.
  - apply StronglySorted_Sorted.
    apply (StronglySorted_fmap _ (λ a b, (count a ≤ count b)%nat)); [done|].
    apply byPlays_asc_sorted.
  - rewrite reverse_Permutation. unfold byPlays.
    by rewrite !js_sort_perm.
Qed.

Lemma byPlays_desc_reverse_rows :
  NoDup (map count rows) → byPlays desc = reverse (byPlays asc).
Proof using Hp.
  intros Hnd. apply (arrangement_unique count).
  - unfold byPlays. by rewrite js_sort_perm.
  - unfold byPlays. by rewrite reverse_Permutation, !js_sort_perm.
  - rewrite byPlays_desc_reverse. unfold reverse.
    by rewrite <- !rev_alt, map_rev.
Qed.

(** Rows without a date for [p] come first, in their original order. *)
Lemma byLastPlayed_asc_front :
  let date := λ row,
        default "" (PlayStats.playerStats row !! p ≫= PlayerStats.lastPlayed) in
  let cmp :=
    compareRows (SortConfig.mk ("player-" +:+ p +:+ "-lastPlayed") asc) in
  js_sort cmp rows
  = filter (λ row, date row = "") rows
    ++ js_sort cmp (filter (λ row, date row ≠ "") rows).
Proof using Hp.
  intros date cmp.
  apply (js_sort_front cmp (λ row, date row = "")).
  - intros a b Ha. unfold cmp. rewrite compareRows_lastPlayed by done.
    cbv zeta. fold (date a). fold (date b). change (date a = "") in Ha.
    rewrite Ha, str_lt_empty_l, str_lt_empty_r. unfold directed.
    destruct (negb _); lia.
  - intros a b Ha Hb. unfold cmp. rewrite compareRows_lastPlayed by done.
    cbv zeta. fold (date a). fold (date b).
    change (date a ≠ "") in Ha. change (date b = "") in Hb.
    rewrite Hb, str_lt_empty_l, str_lt_empty_r. unfold directed.
    destruct (String.eqb_spec (date a) ""); [done|]. simpl. lia.
Qed.

End SortProjection.

(** C8. In the comparator for a participant's key, a missing play count is
    read as 0 and a missing last-played date as the empty string, so that
    sorting by last-played date ascending puts the rows without a date
    first; sorting by play count ascending gives non-decreasing counts,
    descending gives non-increasing counts, the reverse sequence of counts
    (and the reverse sequence of rows when the counts are pairwise
    distinct); and selecting the same key twice from ascending returns to
    ascending. *)
Theorem sort_projection (new_Date : string → option Z) (plays : list Play.t)
    (spirits : list Spirit.t) (p : string) :
  p ∈ uniquePlayers plays →
  let stats := buildPlayStats new_Date plays spirits in
  let rows := JsObject.values stats in
  let playsKey := "player-" +:+ p +:+ "-plays" in
  let dateKey := "player-" +:+ p +:+ "-lastPlayed" in
  let byPlays := λ direction,
        sortedPlayStats stats (Some (SortConfig.mk playsKey direction)) in
  let count := λ row,
        from_option PlayerStats.plays 0%nat (PlayStats.playerStats row !! p) in
  let date := λ row,
        default "" (PlayStats.playerStats row !! p ≫= PlayerStats.lastPlayed) in
  (∀ row, sortValue p "plays" row = VNum (count row)
          ∧ sortValue p "lastPlayed" row = VStr (date row))
  ∧ (∀ row, PlayStats.playerStats row !! p = None →
            count row = 0%nat ∧ date row = "")
  ∧ (∀ row st, PlayStats.playerStats row !! p = Some st →
               PlayerStats.lastPlayed st = None → date row = "")
  ∧ (∀ direction a b,
       compareRows (SortConfig.mk playsKey direction) a b
       = directed direction
           (value_lt (sortValue p "plays" a) (sortValue p "plays" b))
           (value_lt (sortValue p "plays" b) (sortValue p "plays" a))
       ∧ compareRows (SortConfig.mk dateKey direction) a b
         = directed direction
             (value_lt (sortValue p "lastPlayed" a) (sortValue p "lastPlayed" b))
             (value_lt (sortValue p "lastPlayed" b) (sortValue p "lastPlayed" a)))
  ∧ sortedPlayStats stats (Some (SortConfig.mk dateKey asc))
    = filter (λ row, date row = "") rows
      ++ js_sort (compareRows (SortConfig.mk dateKey asc))
           (filter (λ row, date row ≠ "") rows)
  ∧ byPlays asc ≡ₚ rows
  ∧ StronglySorted (λ a b, (count a ≤ count b)%nat) (byPlays asc)
  ∧ StronglySorted (λ a b, (count b ≤ count a)%nat) (byPlays desc)
  ∧ map count (byPlays desc) = reverse (map count (byPlays asc))
  ∧ (NoDup (map count rows) → byPlays desc = reverse (byPlays asc))
  ∧ ∀ key,
      handleSort None key = Some (SortConfig.mk key asc)
      ∧ handleSort (Some (SortConfig.mk key asc)) key
        = Some (SortConfig.mk key desc)
      ∧ handleSort (handleSort (Some (SortConfig.mk key asc)) key) key
        = Some (SortConfig.mk key asc).
Proof.
  intros Hp%uniquePlayers_A_or_E stats rows playsKey dateKey byPlays count date.
  split; [done|]. split.
  { intros row Hrow. unfold count, date. by rewrite Hrow. }
  split.
  { intros row st Hrow Hst. unfold date. by rewrite Hrow; simpl; rewrite Hst. }
  split.
  { intros direction a b. by destruct Hp as [-> | ->]. }
  split; [by apply byLastPlayed_asc_front|].
  split; [apply js_sort_perm|].
  split; [by apply byPlays_asc_sorted|].
  split; [by apply byPlays_desc_sorted|].
  split; [by apply byPlays_desc_reverse|].
  split; [by apply byPlays_desc_reverse_rows|].
  intros key. unfold handleSort; simpl.
  rewrite !decide_True by done. simpl. by rewrite decide_False by (by intros [_ ?]).
Qed.

Lemma sort_projection_witness :
  let stats :=
    buildPlayStats Host.new_Date Sample.sortLog
      [Sample.river; Sample.thunder; Sample.jagged] in
  let count := λ row,
        from_option PlayerStats.plays 0%nat (PlayStats.playerStats row !! "A") in
  let byPlays := λ direction,
        sortedPlayStats stats (Some (SortConfig.mk "player-A-plays" direction)) in
  map count (JsObject.values stats) = [0; 2; 1]%nat
  ∧ map count (byPlays asc) = [0; 1; 2]%nat
  ∧ map count (byPlays desc) = reverse (map count (byPlays asc))
  ∧ byPlays desc = reverse (byPlays asc).
Proof.
  destruct (sort_projection Host.new_Date Sample.sortLog
              [Sample.river; Sample.thunder; Sample.jagged] "A")
    as (_ & _ & _ & _ & _ & _ & _ & _ & Hrev & Hrows & _).
  - evaluate.
  - split; [by vm_compute|]. split; [by vm_compute|]. split; [exact Hrev|].
    apply Hrows. apply (bool_decide_unpack _). vm_compute. exact I.
Defined.

(** ** The spirit recommendation *)

Lemma Random_index_lt (r : Random.t) (len : nat) :
  (0 < len)%nat → (Random.index r len < len)%nat.
Proof.
  intros Hlen. unfold Random.index.
  apply Nat.Div0.div_lt_upper_bound. nia.
Qed.

Section RecommendationFacts.
Variable new_Date : string → option Z.
Variable toLocaleDateString : Z → string.

Lemma olderSpirit_searchTime playStats player acc s :
  olderSpirit new_Date playStats player acc s
  = match searchTime new_Date playStats player s with
    | Some t => if t <? snd acc then (Some s, t) else acc
    | None => acc
    end.
Proof.
  unfold olderSpirit, searchTime.
  by destruct (truthy (cellLastPlayed playStats (Spirit.spirit s) player)).
Qed.

(** The search returns the first spirit with the earliest date among those
    dated before the bound it started from. *)
Lemma oldest_fold playStats player (l : list Spirit.t) (acc : option Spirit.t * Z) :
  let time := searchTime new_Date playStats player in
  let r := foldl (olderSpirit new_Date playStats player) acc l in
  (r = acc ∧ ∀ s t, s ∈ l → time s = Some t → snd acc ≤ t)
  ∨ (∃ pre s post t,
       l = pre ++ s :: post ∧ r = (Some s, t) ∧ time s = Some t ∧ t < snd acc
       ∧ (∀ x tx, x ∈ pre → time x = Some tx → t < tx)
       ∧ (∀ x tx, x ∈ post → time x = Some tx → t ≤ tx)).
Proof.
  intros time. revert acc.
  induction l as [|s l IH]; intros acc; cbv zeta; cbn [foldl].
  - left. split; [done|]. by intros s t ?%elem_of_nil.
  - rewrite olderSpirit_searchTime. fold (time s).
    destruct (time s) as [t|] eqn:Es.
    + destruct (Z.ltb_spec t (snd acc)) as [Hlt|Hge].
      * right.
        destruct (IH (Some s, t))
          as [[Hr Hall]|(pre & s' & post & t' & Hl & Hr & Hs' & Hlt' & Hpre & Hpost)].
        -- exists [], s, l, t. split; [done|]. split; [done|]. split; [done|].
           split; [done|]. split; [by intros ? ? ?%elem_of_nil|]. exact Hall.
        -- simpl in Hlt'. exists (s :: pre), s', post, t'.
           split; [by rewrite Hl|]. split; [done|]. split; [done|].
           split; [lia|]. split; [|done].
           intros x tx [->|Hx]%elem_of_cons Hx'; [|by eapply Hpre].
           rewrite Es in Hx'. injection Hx' as <-. done.
      * destruct (IH acc)
          as [[Hr Hall]|(pre & s' & post & t' & Hl & Hr & Hs' & Hlt' & Hpre & Hpost)].
        -- left. split; [done|].
           intros x tx [->|Hx]%elem_of_cons Hx'; [|by eapply Hall].
           rewrite Es in Hx'. injection Hx' as <-. done.
        -- right. exists (s :: pre), s', post, t'.
           split; [by rewrite Hl|]. split; [done|]. split; [done|].
           split; [done|]. split; [|done].
           intros x tx [->|Hx]%elem_of_cons Hx'; [|by eapply Hpre].
           rewrite Es in Hx'. injection Hx' as <-. lia.
    + destruct (IH acc)
        as [[Hr Hall]|(pre & s' & post & t' & Hl & Hr & Hs' & Hlt' & Hpre & Hpost)].
      * left. split; [done|].
        intros x tx [->|Hx]%elem_of_cons Hx'; [congruence|by eapply Hall].
      * right. exists (s :: pre), s', post, t'.
        split; [by rewrite Hl|]. split; [done|]. split; [done|].
        split; [done|]. split; [|done].
        intros x tx [->|Hx]%elem_of_cons Hx'; [congruence|by eapply Hpre].
Qed.

(** *** The tables filled by the two loops *)

Lemma tierStep_other now random playStats spirits player l st tier :
  tier ∉ l →
  snd (foldl (tierStep new_Date toLocaleDateString now random playStats spirits
                player) st l) !! tier
  = snd st !! tier.
Proof.
  revert st. induction l as [|c l IH]; intros st Hnot; simpl; [done|].
  apply not_elem_of_cons in Hnot as [Hne Hnot].
  rewrite IH by done. unfold tierStep; simpl.
  destruct (fst (recommendTier _ _ _ _ _ _ _ _)); [|done].
  by rewrite lookup_insert_ne.
Qed.

Lemma tierStep_lookup now random playStats spirits player l st tier :
  NoDup l → tier ∈ l → snd st !! tier = None →
  ∃ k, snd (foldl (tierStep new_Date toLocaleDateString now random playStats
                     spirits player) st l) !! tier
       = fst (recommendTier new_Date toLocaleDateString now playStats spirits
                player tier (random k)).
Proof.
  revert st. induction l as [|c l IH]; intros st Hnd Hin Hst; simpl.
  - by apply elem_of_nil in Hin.
  - apply NoDup_cons in Hnd as [Hc Hnd].
    destruct (decide (c = tier)) as [->|Hne].
    + exists (fst st). rewrite tierStep_other by done. unfold tierStep; simpl.
      destruct (fst (recommendTier _ _ _ _ _ _ _ _)); [|done].
      by rewrite lookup_insert_eq.
    + apply elem_of_cons in Hin as [?|Hin]; [congruence|].
      apply IH; [done..|]. unfold tierStep; simpl.
      destruct (fst (recommendTier _ _ _ _ _ _ _ _)); [|done].
      by rewrite lookup_insert_ne.
Qed.

Lemma playerStep_other now random playStats spirits ups st player :
  player ∉ ups →
  snd (foldl (playerStep new_Date toLocaleDateString now random playStats spirits)
             st ups) !! player
  = snd st !! player.
Proof.
  revert st. induction ups as [|u ups IH]; intros st Hnot; simpl; [done|].
  apply not_elem_of_cons in Hnot as [Hne Hnot].
  rewrite IH by done. unfold playerStep; simpl. by rewrite lookup_insert_ne.
Qed.

Lemma playerStep_lookup now random playStats spirits ups st player :
  NoDup ups → player ∈ ups →
  ∃ n, snd (foldl (playerStep new_Date toLocaleDateString now random playStats
                     spirits) st ups) !! player
       = Some (snd (foldl (tierStep new_Date toLocaleDateString now random
                             playStats spirits player) (n, ∅) complexityLevels)).
Proof.
  revert st. induction ups as [|u ups IH]; intros st Hnd Hin; simpl.
  - by apply elem_of_nil in Hin.
  - apply NoDup_cons in Hnd as [Hu Hnd].
    destruct (decide (u = player)) as [->|Hne].
    + exists (fst st). rewrite playerStep_other by done.
      unfold playerStep; simpl. by rewrite lookup_insert_eq.
    + apply elem_of_cons in Hin as [?|Hin]; [congruence|]. by apply IH.
Qed.

(** Every cell of the recommendation table is the result of the tier body
    on some draw. *)
Lemma getRecommendations_lookup now random plays spirits player tier :
  player ∈ uniquePlayers plays → tier ∈ complexityLevels →
  ∃ k, recommendationFor
         (getRecommendations new_Date toLocaleDateString now random plays spirits)
         player tier
       = fst (recommendTier new_Date toLocaleDateString now
                (buildPlayStats new_Date plays spirits) spirits player tier
                (random k)).
Proof.
  intros Hp Htier. unfold getRecommendations, recommendationFor.
  destruct (playerStep_lookup now random (buildPlayStats new_Date plays spirits)
              spirits (uniquePlayers plays) (0%nat, ∅) player)
    as [n ->]; [apply NoDup_uniquePlayers|done|].
  apply tierStep_lookup; [|done|apply lookup_empty].
  apply (bool_decide_unpack _). by vm_compute.
Qed.

End RecommendationFacts.

Section CellDates.
Variable new_Date : string → option Z.

Lemma latest_is_Some ds :
  Forall (validDate new_Date) ds → ds ≠ [] → is_Some (latest new_Date ds).
Proof.
  intros Hds Hne. destruct Hds as [|d ds [_ [t Ht]] _]; [done|]. simpl.
  rewrite Ht. destruct (latest new_Date ds); simpl; eauto.
Qed.

(** What a cell of the aggregate of a valid log holds. *)
Lemma cell_dates plays spirits c p st :
  validLog new_Date plays →
  cell (buildPlayStats new_Date plays spirits) c p = Some st →
  goodLast new_Date (PlayerStats.lastPlayed st)
  ∧ ((0 < PlayerStats.plays st)%nat → is_Some (PlayerStats.lastPlayed st))
  ∧ ∀ d, PlayerStats.lastPlayed st = Some d →
         ∃ play, play ∈ plays ∧ Play.date play = d.
Proof.
  intros Hlog. rewrite cell_buildPlayStats. case_decide; [|done].
  intros [= <-].
  destruct (counted_last new_Date (contributions c p plays) zeroPlayerStats)
    as (Hgood & Hwhich & Htime); [by apply validLog_contributions|done|].
  split; [done|]. split.
  - rewrite plays_counted. simpl. intros Hpos.
    destruct (latest_is_Some (contributions c p plays)) as [t Ht].
    { by apply validLog_contributions. }
    { intros Hnil. rewrite Hnil in Hpos. simpl in Hpos. lia. }
    rewrite Ht in Htime. simpl in Htime.
    destruct (PlayerStats.lastPlayed _); [eauto|done].
  - intros d Hd. destruct Hwhich as [Hz|(d' & Hin & Hd')].
    + rewrite Hz in Hd. done.
    + rewrite Hd' in Hd. injection Hd as <-.
      apply list_elem_of_In, in_flat_map in Hin as (play & Hplay & Hin).
      exists play. split; [by apply list_elem_of_In|].
      apply list_elem_of_In in Hin. unfold pairDates in Hin.
      by apply list_elem_of_fmap in Hin as (e & -> & _).
Qed.

Lemma searchTime_lastTime plays spirits p s :
  validLog new_Date plays →
  searchTime new_Date (buildPlayStats new_Date plays spirits) p s
  = lastTime new_Date (buildPlayStats new_Date plays spirits) p s.
Proof.
  intros Hlog. unfold searchTime, lastTime, cellLastPlayed.
  destruct (cell _ _ _) as [st|] eqn:Ecell; simpl; [|done].
  destruct (cell_dates _ _ _ _ _ Hlog Ecell) as (Hgood & _ & _).
  destruct (PlayerStats.lastPlayed st) as [d|]; [|done].
  by rewrite (truthy_valid new_Date d Hgood).
Qed.

End CellDates.

(** C2 (amended). For a log of valid dates, a recognized participant and one
    of the four tiers: if some tier member has no play by the participant,
    the recommendation is one of those members with reason
    ["Never played"]; otherwise every member has a last-played date, and
    the recommendation is the first member with the earliest date among the
    members last played strictly before the current time, with reason
    ["Last played "] followed by that date, and there is none when no member
    was last played before the current time; a tier without members has no
    recommendation; and when every date of the log lies before the current
    time, a fully played tier with members has one. *)
Theorem spirit_recommendation (new_Date : string → option Z)
    (toLocaleDateString : Z → string) (now : Z) (random : nat → Random.t)
    (plays : list Play.t) (spirits : list Spirit.t) (p tier : string) :
  validLog new_Date plays →
  p ∈ uniquePlayers plays → tier ∈ complexityLevels →
  let stats := buildPlayStats new_Date plays spirits in
  let members := filter (λ s, Spirit.complexity s = tier) spirits in
  let unplayed :=
    filter (λ s, cellPlays stats (Spirit.spirit s) p = 0%nat) members in
  let rec :=
    recommendationFor
      (getRecommendations new_Date toLocaleDateString now random plays spirits)
      p tier in
  (unplayed ≠ [] →
   ∃ s, s ∈ unplayed ∧ rec = Some (Recommendation.mk s "Never played"))
  ∧ (unplayed = [] →
     (∀ s, s ∈ members → is_Some (lastTime new_Date stats p s))
     ∧ ((rec = None
         ∧ ∀ s t, s ∈ members → lastTime new_Date stats p s = Some t → now ≤ t)
        ∨ ∃ pre s post t,
            members = pre ++ s :: post
            ∧ lastTime new_Date stats p s = Some t ∧ t < now
            ∧ rec = Some (Recommendation.mk s
                            ("Last played " +:+ toLocaleDateString t))
            ∧ (∀ x tx, x ∈ pre → lastTime new_Date stats p x = Some tx → t < tx)
            ∧ (∀ x tx, x ∈ post → lastTime new_Date stats p x = Some tx → t ≤ tx)))
  ∧ (members = [] → rec = None)
  ∧ (pastLog new_Date now plays → unplayed = [] → members ≠ [] → is_Some rec).
Proof.
  intros Hlog Hp Htier stats members unplayed rec.
  destruct (getRecommendations_lookup new_Date toLocaleDateString now random
              plays spirits p tier Hp Htier) as [k Hrec].
  fold rec in Hrec. fold stats in Hrec.
  unfold recommendTier in Hrec. fold members in Hrec. fold unplayed in Hrec.
  assert (∀ s, s ∈ members → Spirit.spirit s ∈ map Spirit.spirit spirits) as Hknown.
  { intros s [_ Hs]%list_elem_of_filter. apply list_elem_of_fmap. eauto. }
  assert (unplayed = [] →
          ∀ s, s ∈ members →
               ∃ d t, cellLastPlayed stats (Spirit.spirit s) p = Some d
                      ∧ new_Date d = Some t
                      ∧ ∃ play, play ∈ plays ∧ Play.date play = d) as Hplayed.
  { intros Hnil s Hs.
    assert (cellPlays stats (Spirit.spirit s) p ≠ 0%nat) as Hpos.
    { intros Hzero. assert (s ∈ unplayed) as Hin by (by apply list_elem_of_filter).
      rewrite Hnil in Hin. by apply elem_of_nil in Hin. }
    unfold cellPlays, cellLastPlayed in *.
    destruct (cell stats (Spirit.spirit s) p) as [st|] eqn:Ecell; [|done].
    simpl in *.
    destruct (cell_dates new_Date plays spirits _ _ _ Hlog Ecell)
      as (Hgood & Hsome & Hfrom).
    destruct Hsome as [d Hd]; [lia|]. rewrite Hd in Hgood.
    destruct Hgood as [_ [t Ht]]. exists d, t. split; [done|]. split; [done|].
    by apply Hfrom. }
  assert (unplayed = [] →
          (∀ s, s ∈ members → is_Some (lastTime new_Date stats p s))
          ∧ ((rec = None
              ∧ ∀ s t, s ∈ members → lastTime new_Date stats p s = Some t → now ≤ t)
             ∨ ∃ pre s post t,
                 members = pre ++ s :: post
                 ∧ lastTime new_Date stats p s = Some t ∧ t < now
                 ∧ rec = Some (Recommendation.mk s
                                 ("Last played " +:+ toLocaleDateString t))
                 ∧ (∀ x tx, x ∈ pre → lastTime new_Date stats p x = Some tx → t < tx)
                 ∧ (∀ x tx, x ∈ post → lastTime new_Date stats p x = Some tx → t ≤ tx)))
    as Hfull.
  { intros Hnil. split.
    { intros s Hs. destruct (Hplayed Hnil s Hs) as (d & t & Hd & Ht & _).
      unfold lastTime. rewrite Hd. simpl. eauto. }
    rewrite Hnil in Hrec. simpl in Hrec.
    assert (∀ s, searchTime new_Date stats p s = lastTime new_Date stats p s)
      as Hsearch by (intros s; by apply searchTime_lastTime).
    destruct (oldest_fold new_Date stats p members (None, now))
      as [[Hr Hall]|(pre & s & post & t & Hl & Hr & Hs & Hlt & Hpre & Hpost)].
    - left. rewrite Hr in Hrec. split; [done|].
      intros s t Hs Ht. apply (Hall s t Hs). by rewrite Hsearch.
    - right. exists pre, s, post, t. rewrite Hr in Hrec. simpl in *.
      split; [done|]. split; [by rewrite <- Hsearch|]. split; [done|].
      split; [done|]. split.
      + intros x tx Hx Htx. apply (Hpre x tx Hx). by rewrite Hsearch.
      + intros x tx Hx Htx. apply (Hpost x tx Hx). by rewrite Hsearch. }
  split.
  { intros Hne.
    assert (0 < length unplayed)%nat as Hlen by (destruct unplayed; [done|simpl; lia]).
    destruct (Nat.ltb_spec 0 (length unplayed)) as [_|?]; [|lia].
    simpl in Hrec. eexists. split; [|exact Hrec].
    apply list_elem_of_lookup_total_2. by apply Random_index_lt. }
  split; [done|]. split.
  { intros Hnil. unfold unplayed in Hrec. rewrite Hnil in Hrec. done. }
  intros Hpast Hnil Hne.
  destruct (Hfull Hnil) as [_ [[_ Hlate]|(pre & s & post & t & _ & _ & _ & -> & _)]];
    [|by eauto].
  exfalso. destruct members as [|s members']; [done|].
  destruct (Hplayed Hnil s) as (d & t & Hd & Ht & play & Hplay & Hdate); [by left|].
  assert (now ≤ t) as Hle.
  { apply (Hlate s t); [by left|]. unfold lastTime. by rewrite Hd. }
  specialize (Hpast play t Hplay). rewrite Hdate in Hpast. specialize (Hpast Ht). lia.
Qed.

Lemma spirit_recommendation_witness :
  recommendationFor
    (getRecommendations Host.new_Date Host.toLocaleDateString Sample.january2031
       Sample.zeros Sample.postdated [Sample.river; Sample.thunder])
    "A" "MODERATE"
  = Some (Recommendation.mk Sample.thunder "Last played 1/1/2030").
Proof.
  destruct (spirit_recommendation Host.new_Date Host.toLocaleDateString
              Sample.january2031 Sample.zeros Sample.postdated
              [Sample.river; Sample.thunder] "A" "MODERATE")
    as (_ & _ & _ & Hsome).
  - valid_log.
  - evaluate.
  - evaluate.
  - destruct Hsome as [rec Hrec].
    + intros play t ->%list_elem_of_singleton [= <-]. by vm_compute.
    + by vm_compute.
    + by vm_compute.
    + rewrite Hrec. revert Hrec. by vm_compute.
Defined.

(** C2 as stated fails twice on a log with one play of Thunderspeaker dated
    after the current time: the reason for the unplayed tier is
    ["Never played"], not ["never played"], and the fully played tier of
    Thunderspeaker gets no recommendation although it has a member. *)
Lemma no_recommendation_for_postdated_tier :
  let plays := Sample.postdated in
  let spirits := [Sample.river; Sample.thunder] in
  let stats := buildPlayStats Host.new_Date plays spirits in
  let recs :=
    getRecommendations Host.new_Date Host.toLocaleDateString Sample.june2024
      Sample.zeros plays spirits in
  "A" ∈ uniquePlayers plays
  ∧ recommendationFor recs "A" "LOW"
    = Some (Recommendation.mk Sample.river "Never played")
  ∧ Recommendation.reason <$> recommendationFor recs "A" "LOW"
    ≠ Some "never played"
  ∧ filter (λ s, Spirit.complexity s = "MODERATE") spirits = [Sample.thunder]
  ∧ cellPlays stats "Thunderspeaker" "A" = 1%nat
  ∧ cellLastPlayed stats "Thunderspeaker" "A" = Some "2030-01-01"
  ∧ recommendationFor recs "A" "MODERATE" = None.
Proof.
  simpl. split; [evaluate|]. by vm_compute.
Qed.

(** ** What the render reads from its surroundings *)

Lemma foldl_pointwise {A B} (f g : A → B → A) (l : list B) (a : A) :
  (∀ a x, f a x = g a x) → foldl f a l = foldl g a l.
Proof.
  intros Hfg. revert a. induction l as [|x l IH]; intros a; simpl; [done|].
  by rewrite Hfg, IH.
Qed.

Section ClockFacts.
Variable new_Date : string → option Z.
Variable toLocaleDateString : Z → string.

Lemma counted_from ds st :
  PlayerStats.lastPlayed (counted new_Date ds st) = PlayerStats.lastPlayed st
  ∨ ∃ d, d ∈ ds ∧ PlayerStats.lastPlayed (counted new_Date ds st) = Some d.
Proof.
  unfold counted. revert st. induction ds as [|d ds IH]; intros st; simpl.
  - by left.
  - destruct (IH (countPlay new_Date d st)) as [->|(d' & Hd' & ->)].
    + unfold countPlay; simpl. destruct (_ || _); [|by left].
      right. exists d. split; [by left|done].
    + right. exists d'. split; [by right|done].
Qed.

(** A date the search reads comes from a record of the log. *)
Lemma searchTime_from_log plays spirits p s t :
  searchTime new_Date (buildPlayStats new_Date plays spirits) p s = Some t →
  ∃ play, play ∈ plays ∧ new_Date (Play.date play) = Some t.
Proof.
  unfold searchTime, cellLastPlayed. rewrite cell_buildPlayStats.
  case_decide; [|done]. simpl.
  destruct (counted_from (contributions (Spirit.spirit s) p plays) zeroPlayerStats)
    as [->|(d & Hd & ->)]; simpl; [done|].
  destruct (negb (String.eqb d "")); [|done]. intros Ht.
  apply list_elem_of_In, in_flat_map in Hd as (play & Hplay & Hd).
  exists play. split; [by apply list_elem_of_In|].
  apply list_elem_of_In in Hd. unfold pairDates in Hd.
  by apply list_elem_of_fmap in Hd as (e & -> & _).
Qed.

(** The search does not depend on its bound when every date it reads lies
    before the bound. *)
Lemma oldest_bound_irrelevant playStats p (l : list Spirit.t) (now1 now2 : Z) :
  (∀ s t, s ∈ l → searchTime new_Date playStats p s = Some t →
          t < now1 ∧ t < now2) →
  let r1 := foldl (olderSpirit new_Date playStats p) (None, now1) l in
  let r2 := foldl (olderSpirit new_Date playStats p) (None, now2) l in
  (fst r1 = None ∧ fst r2 = None) ∨ r1 = r2.
Proof.
  induction l as [|s l IH]; intros Hall; cbv zeta; cbn [foldl].
  - by left.
  - rewrite !olderSpirit_searchTime. cbn [snd].
    destruct (searchTime new_Date playStats p s) as [t|] eqn:Es.
    + destruct (Hall s t) as [H1 H2]; [by left|done|].
      destruct (Z.ltb_spec t now1); [|lia]. destruct (Z.ltb_spec t now2); [|lia].
      by right.
    + apply IH. intros x tx Hx. apply Hall. by right.
Qed.

Lemma recommendTier_clock now1 now2 plays spirits p tier draw :
  pastLog new_Date now1 plays → pastLog new_Date now2 plays →
  recommendTier new_Date toLocaleDateString now1
    (buildPlayStats new_Date plays spirits) spirits p tier draw
  = recommendTier new_Date toLocaleDateString now2
      (buildPlayStats new_Date plays spirits) spirits p tier draw.
Proof.
  intros H1 H2. unfold recommendTier.
  destruct (0 <? length _)%nat; [done|].
  set (members := filter (λ s, Spirit.complexity s = tier) spirits).
  destruct (oldest_bound_irrelevant (buildPlayStats new_Date plays spirits) p
              members now1 now2) as [[-> ->]| ->]; [|done..].
  intros s t _ Hs. apply searchTime_from_log in Hs as (play & Hplay & Ht).
  split; [by eapply H1|by eapply H2].
Qed.

Lemma getRecommendations_clock now1 now2 random1 random2 plays spirits :
  (∀ k, random1 k = random2 k) →
  pastLog new_Date now1 plays → pastLog new_Date now2 plays →
  getRecommendations new_Date toLocaleDateString now1 random1 plays spirits
  = getRecommendations new_Date toLocaleDateString now2 random2 plays spirits.
Proof.
  intros Hrandom H1 H2. unfold getRecommendations. f_equal.
  apply foldl_pointwise. intros st player. unfold playerStep.
  rewrite (foldl_pointwise
             (tierStep new_Date toLocaleDateString now1 random1
                (buildPlayStats new_Date plays spirits) spirits player)
             (tierStep new_Date toLocaleDateString now2 random2
                (buildPlayStats new_Date plays spirits) spirits player));
    [done|].
  intros st' tier. unfold tierStep.
  by rewrite Hrandom, (recommendTier_clock now1 now2).
Qed.

End ClockFacts.

(** C9 (amended). Two renders of the same log, catalogs and sort
    configuration give the same aggregates, adversary recommendations,
    projection and summaries whatever the clock and the random draws; they
    give the same spirit recommendations when they see the same draws and
    every date of the log lies before the current time of both. *)
Theorem render_reads_clock_and_draws (new_Date : string → option Z)
    (toLocaleDateString : Z → string) (plays : list Play.t)
    (spirits : list Spirit.t) (adversaries : list Adversary.t)
    (sortConfig : option SortConfig.t) (ambient1 ambient2 : Ambient.t) :
  let render := λ ambient,
        SpiritIslandTracker new_Date toLocaleDateString ambient plays spirits
          adversaries sortConfig in
  Output.playStats (render ambient1) = Output.playStats (render ambient2)
  ∧ Output.adversaryStats (render ambient1)
    = Output.adversaryStats (render ambient2)
  ∧ Output.adversaryRecommendations (render ambient1)
    = Output.adversaryRecommendations (render ambient2)
  ∧ Output.sortedRows (render ambient1) = Output.sortedRows (render ambient2)
  ∧ Output.summary (render ambient1) = Output.summary (render ambient2)
  ∧ ((∀ k, Ambient.random ambient1 k = Ambient.random ambient2 k) →
     pastLog new_Date (Ambient.now ambient1) plays →
     pastLog new_Date (Ambient.now ambient2) plays →
     render ambient1 = render ambient2).
Proof.
  intros render. repeat (split; [done|]).
  intros Hrandom H1 H2. unfold render, SpiritIslandTracker. f_equal.
  by apply getRecommendations_clock.
Qed.

Lemma render_reads_clock_and_draws_witness :
  SpiritIslandTracker Host.new_Date Host.toLocaleDateString
    (Ambient.mk Sample.january2031 Sample.zeros) Sample.postdated
    [Sample.river; Sample.thunder] [] None
  = SpiritIslandTracker Host.new_Date Host.toLocaleDateString
      (Ambient.mk (Sample.january2031 + 86400000) Sample.zeros) Sample.postdated
      [Sample.river; Sample.thunder] [] None.
Proof.
  apply (render_reads_clock_and_draws Host.new_Date Host.toLocaleDateString
           Sample.postdated [Sample.river; Sample.thunder] [] None
           (Ambient.mk Sample.january2031 Sample.zeros)
           (Ambient.mk (Sample.january2031 + 86400000) Sample.zeros)).
  - done.
  - intros play t ->%list_elem_of_singleton [= <-]. by vm_compute.
  - intros play t ->%list_elem_of_singleton [= <-]. by vm_compute.
Defined.

(** C9 as stated fails: the same log, catalog and draws give different
    spirit recommendations at two readings of the clock. *)
Lemma recommendations_depend_on_the_clock :
  let recommend := λ now,
        getRecommendations Host.new_Date Host.toLocaleDateString now
          Sample.zeros Sample.postdated [Sample.river; Sample.thunder] in
  recommendationFor (recommend Sample.june2024) "A" "MODERATE" = None
  ∧ recommendationFor (recommend Sample.january2031) "A" "MODERATE"
    = Some (Recommendation.mk Sample.thunder "Last played 1/1/2030")
  ∧ recommend Sample.june2024 ≠ recommend Sample.january2031.
Proof.
  simpl. split; [by vm_compute|]. split; [by vm_compute|].
  intros Heq.
  apply (f_equal (λ recs, recommendationFor recs "A" "MODERATE")) in Heq.
  revert Heq. by vm_compute.
Qed.

(** * Further properties *)

(** ** The recognized participants *)

(** X1. The participant list is ["A"; "E"] restricted to the names that
    occur in the log: it has no other name, no duplicate, is in ascending
    order, and depends only on which names occur. *)
Theorem uniquePlayers_are_the_mentioned_A_and_E (plays : list Play.t) :
  uniquePlayers plays = filter (λ p, p ∈ mentioned plays) ["A"; "E"]
  ∧ ∀ plays',
      (∀ p, p ∈ mentioned plays ↔ p ∈ mentioned plays') →
      uniquePlayers plays' = uniquePlayers plays.
Proof.
  assert (∀ log, uniquePlayers log = filter (λ p, p ∈ mentioned log) ["A"; "E"])
    as Hform.
  { intros log. rewrite uniquePlayers_canonical.
    assert (∀ p, p = "A" ∨ p = "E" →
                 p ∈ uniquePlayers log ↔ p ∈ mentioned log) as Hin.
    { intros p Hp. rewrite elem_of_uniquePlayers, <- elem_of_mentioned.
      unfold mentioned. tauto. }
    rewrite !filter_cons, filter_nil.
    pose proof (Hin "A" (or_introl eq_refl)) as HA.
    pose proof (Hin "E" (or_intror eq_refl)) as HE.
    repeat case_decide; try done; tauto. }
  split; [apply Hform|].
  intros plays' Hsame. rewrite !Hform.
  rewrite !filter_cons, filter_nil.
  pose proof (Hsame "A") as HA. pose proof (Hsame "E") as HE.
  repeat case_decide; try done; tauto.
Qed.

(** ** The sort state *)

(** X7. A click on a column always selects that column; the direction is
    descending exactly when the column was already selected ascending;
    clicks on one column alternate with period two; and a click on another
    column starts ascending. *)
Theorem handleSort_alternates (sortConfig : option SortConfig.t) (key : string) :
  (∃ direction,
     handleSort sortConfig key = Some (SortConfig.mk key direction)
     ∧ (direction = desc ↔ sortConfig = Some (SortConfig.mk key asc)))
  ∧ handleSort (handleSort (handleSort sortConfig key) key) key
    = handleSort sortConfig key
  ∧ handleSort (handleSort sortConfig key) key ≠ handleSort sortConfig key
  ∧ ∀ other, other ≠ key →
      handleSort (handleSort sortConfig key) other
      = Some (SortConfig.mk other asc).
Proof.
  assert (∀ c k,
            (c = Some (SortConfig.mk k asc)
             ∧ handleSort c k = Some (SortConfig.mk k desc))
            ∨ (c ≠ Some (SortConfig.mk k asc)
               ∧ handleSort c k = Some (SortConfig.mk k asc))) as Hstep.
  { intros [[k' d']|] k; unfold handleSort; simpl; [|by right].
    destruct (decide (k' = k ∧ d' = asc)) as [[-> ->]|Hne]; [by left|].
    right. split; [|done]. intros [= -> ->]. by destruct Hne. }
  destruct (Hstep sortConfig key) as [[Hc H1]|[Hc H1]]; rewrite H1.
  - destruct (Hstep (Some (SortConfig.mk key desc)) key) as [[? _]|[_ H2]];
      [done|]. rewrite H2.
    destruct (Hstep (Some (SortConfig.mk key asc)) key) as [[_ H3]|[? _]];
      [|done]. rewrite H3.
    split; [exists desc; by split|]. split; [done|]. split; [done|].
    intros other Hother.
    destruct (Hstep (Some (SortConfig.mk key desc)) other) as [[? _]|[_ H4]];
      [done|]. by rewrite H4.
  - destruct (Hstep (Some (SortConfig.mk key asc)) key) as [[_ H2]|[? _]];
      [|done]. rewrite H2.
    destruct (Hstep (Some (SortConfig.mk key desc)) key) as [[? _]|[_ H3]];
      [done|]. rewrite H3.
    split; [exists asc; split; [done|]; split; [done|by intros ?]|].
    split; [done|]. split; [done|].
    intros other Hother.
    destruct (Hstep (Some (SortConfig.mk key asc)) other) as [[H _]|[_ H4]];
      [|by rewrite H4]. injection H as ->. done.
Qed.

(** ** Difficulty badges *)

(** X10. The four colours split the difficulties into the bands up to 3,
    4 to 7, 8 to 10 and above 10, and the badge text is white exactly on
    the two red backgrounds. *)
Theorem difficulty_bands (difficulty : Z) :
  (getDifficultyColor difficulty = "#34D399" ↔ difficulty ≤ 3)
  ∧ (getDifficultyColor difficulty = "#FBBF24" ↔ 4 ≤ difficulty ≤ 7)
  ∧ (getDifficultyColor difficulty = "#F87171" ↔ 8 ≤ difficulty ≤ 10)
  ∧ (getDifficultyColor difficulty = "#EF4444" ↔ 11 ≤ difficulty)
  ∧ (Style.color (difficultyBadge difficulty) = "white"
     ↔ Style.backgroundColor (difficultyBadge difficulty) = "#F87171"
       ∨ Style.backgroundColor (difficultyBadge difficulty) = "#EF4444")
  ∧ (Style.color (difficultyBadge difficulty) = "black"
     ↔ Style.backgroundColor (difficultyBadge difficulty) = "#34D399"
       ∨ Style.backgroundColor (difficultyBadge difficulty) = "#FBBF24").
Proof.
  unfold difficultyBadge, getDifficultyColor; simpl.
  destruct (Z.leb_spec difficulty 3); destruct (Z.leb_spec difficulty 7);
    destruct (Z.leb_spec difficulty 10); destruct (Z.ltb_spec 7 difficulty);
    try lia; repeat split; intros; try done; try lia;
    try (by left); try (by right);
    match goal with H : _ ∨ _ |- _ => by destruct H end.
Qed.

(** ** The random pick *)

(** X14. For a recognized participant, every cell that the search for
    unplayed spirits reads exists.  [Math.floor(Math.random() * n)] is always
    an index below [n], and every index below [n] is the result of some
    draw: the pick among the unplayed spirits of a tier is always one of
    them, and each of them can be picked. *)
Theorem every_unplayed_member_can_be_drawn (new_Date : string → option Z)
    (toLocaleDateString : Z → string) (now : Z)
    (plays : list Play.t) (spirits : list Spirit.t)
    (player tier : string) (s : Spirit.t) :
  let playStats := buildPlayStats new_Date plays spirits in
  let members := filter (λ s, Spirit.complexity s = tier) spirits in
  let unplayed :=
    filter (λ s, cellPlays playStats (Spirit.spirit s) player = 0%nat) members in
  player ∈ uniquePlayers plays →
  s ∈ unplayed →
  (∀ m, m ∈ members → is_Some (cell playStats (Spirit.spirit m) player))
  ∧ (∃ draw,
       recommendTier new_Date toLocaleDateString now playStats spirits player
         tier draw
       = (Some (Recommendation.mk s "Never played"), true))
  ∧ ∀ draw,
      (Random.index draw (length unplayed) < length unplayed)%nat
      ∧ ∃ s', s' ∈ unplayed
              ∧ recommendTier new_Date toLocaleDateString now playStats spirits
                  player tier draw
                = (Some (Recommendation.mk s' "Never played"), true).
Proof.
  intros playStats members unplayed Hplayer Hs.
  assert (0 < length unplayed)%nat as Hlen.
  { destruct unplayed; [by apply elem_of_nil in Hs|simpl; lia]. }
  assert (∀ draw,
            recommendTier new_Date toLocaleDateString now playStats spirits
              player tier draw
            = (Some (Recommendation.mk
                       (unplayed !!! Random.index draw (length unplayed))
                       "Never played"), true)) as Hpick.
  { intros draw. unfold recommendTier. fold members. fold unplayed.
    by destruct (Nat.ltb_spec 0 (length unplayed)); [|lia]. }
  split; [|split].
  - intros m [_ Hm]%list_elem_of_filter. unfold playStats.
    rewrite cell_buildPlayStats. rewrite decide_True; [by eexists|].
    split; [by apply list_elem_of_fmap_2|done].
  - apply list_elem_of_lookup in Hs as [i Hi].
    pose proof (lookup_lt_Some _ _ _ Hi) as Hlt.
    exists (Random.mk i (length unplayed - i - 1)).
    rewrite Hpick. do 3 f_equal.
    apply list_lookup_total_correct.
    replace (Random.index _ _) with i; [done|].
    unfold Random.index; simpl.
    replace (i + (length unplayed - i - 1) + 1)%nat with (length unplayed) by lia.
    symmetry. apply Nat.div_mul. lia.
  - intros draw. pose proof (Random_index_lt draw _ Hlen) as Hlt.
    split; [done|]. eexists. split; [|apply Hpick].
    by apply list_elem_of_lookup_total_2.
Qed.

Lemma every_unplayed_member_can_be_drawn_witness :
  ∃ draw,
    recommendTier Host.new_Date Host.toLocaleDateString Sample.june2024
      (buildPlayStats Host.new_Date Sample.sortLog
         [Sample.river; SampleIndices.seven; Sample.thunder])
      [Sample.river; SampleIndices.seven; Sample.thunder] "A" "LOW" draw
    = (Some (Recommendation.mk SampleIndices.seven "Never played"), true).
Proof.
  apply (every_unplayed_member_can_be_drawn Host.new_Date
           Host.toLocaleDateString Sample.june2024 Sample.sortLog
           [Sample.river; SampleIndices.seven; Sample.thunder] "A" "LOW"
           SampleIndices.seven).
  - evaluate.
  - evaluate.
Defined.

(** ** The shape of the recommendation table *)

Lemma foldl_invariant {A B} (I : A → Prop) (f : A → B → A) (l : list B) (a : A) :
  (∀ a x, I a → I (f a x)) → I a → I (foldl f a l).
Proof.
  intros Hf. revert a. induction l as [|x l IH]; intros a Ha; [done|].
  cbn [foldl]. by apply IH, Hf.
Qed.

Section TableShape.
Variable new_Date : string → option Z.
Variable toLocaleDateString : Z → string.

Lemma recommendTier_member now playStats spirits player tier draw rec :
  fst (recommendTier new_Date toLocaleDateString now playStats spirits player
         tier draw) = Some rec →
  Recommendation.spirit rec ∈ spirits
  ∧ Spirit.complexity (Recommendation.spirit rec) = tier.
Proof.
  unfold recommendTier.
  set (members := filter (λ s, Spirit.complexity s = tier) spirits).
  set (unplayed := filter _ members).
  assert (∀ s, s ∈ members → s ∈ spirits ∧ Spirit.complexity s = tier) as Hm.
  { intros s [? ?]%list_elem_of_filter. done. }
  destruct (Nat.ltb_spec 0 (length unplayed)) as [Hlen|_]; simpl.
  - intros [= <-]. simpl. apply Hm.
    assert (unplayed !!! Random.index draw (length unplayed) ∈ unplayed) as Hin.
    { apply list_elem_of_lookup_total_2. by apply Random_index_lt. }
    by apply list_elem_of_filter in Hin as [_ ?].
  - destruct (oldest_fold new_Date playStats player members (None, now))
      as [[-> _]|(pre & s & post & t & Hl & -> & _)]; simpl; [done|].
    intros [= <-]. simpl. apply Hm. rewrite Hl.
    apply elem_of_app. right. by left.
Qed.

Lemma tierStep_keys now random playStats spirits player l st :
  wellTiered spirits (snd st) →
  (∀ tier, tier ∈ l → tier ∈ complexityLevels) →
  wellTiered spirits
    (snd (foldl (tierStep new_Date toLocaleDateString now random playStats
                   spirits player) st l)).
Proof.
  revert st. induction l as [|c l IH]; intros st Hst Hl; [done|].
  cbn [foldl]. apply IH; [|intros tier ?; apply Hl; by right].
  intros tier rec. unfold tierStep; cbn [fst snd].
  destruct (fst (recommendTier _ _ _ _ _ _ _ _)) as [r|] eqn:Er; [|apply Hst].
  rewrite lookup_insert. case_decide as Hc; [|apply Hst].
  intros [= <-]. subst tier. split; [apply Hl; by left|].
  by eapply recommendTier_member.
Qed.

Lemma playerStep_keys now random playStats spirits ups st :
  (∀ player tiers, snd st !! player = Some tiers → wellTiered spirits tiers) →
  ∀ player tiers,
    snd (foldl (playerStep new_Date toLocaleDateString now random playStats
                  spirits) st ups) !! player = Some tiers →
    wellTiered spirits tiers.
Proof.
  apply (foldl_invariant
           (λ st, ∀ player tiers, snd st !! player = Some tiers →
                                  wellTiered spirits tiers)).
  clear st. intros st u Hst player tiers. unfold playerStep; cbn [fst snd].
  rewrite lookup_insert. case_decide as Hu; [|apply Hst].
  intros Heq. apply (inj Some) in Heq. rewrite <- Heq.
  apply tierStep_keys; [|done].
  intros ? ?. cbn [snd]. by rewrite lookup_empty.
Qed.

Lemma playerStep_dom now random playStats spirits ups st player :
  is_Some (snd (foldl (playerStep new_Date toLocaleDateString now random
                         playStats spirits) st ups) !! player)
  ↔ player ∈ ups ∨ is_Some (snd st !! player).
Proof.
  revert st. induction ups as [|u ups IH]; intros st.
  - cbn [foldl]. rewrite elem_of_nil. tauto.
  - cbn [foldl]. rewrite IH, elem_of_cons. unfold playerStep; cbn [fst snd].
    rewrite lookup_insert. case_decide as Hu.
    + subst u. split; [tauto|]. intros _. right. eauto.
    + split; [tauto|]. intros [[?|?]|?]; [congruence|tauto..].
Qed.

End TableShape.

(** X12. The recommendation table has one (possibly empty) entry for each
    recognized participant and for no one else; its tiers are among LOW,
    MODERATE, HIGH and VERY HIGH; and a recommended spirit is a catalog
    spirit of the tier it is recommended for. *)
Theorem recommendation_table_shape (new_Date : string → option Z)
    (toLocaleDateString : Z → string) (now : Z) (random : nat → Random.t)
    (plays : list Play.t) (spirits : list Spirit.t) :
  let recommendations :=
    getRecommendations new_Date toLocaleDateString now random plays spirits in
  (∀ player, is_Some (recommendations !! player) ↔ player ∈ uniquePlayers plays)
  ∧ ∀ player tier rec,
      recommendationFor recommendations player tier = Some rec →
      player ∈ uniquePlayers plays
      ∧ tier ∈ ["LOW"; "MODERATE"; "HIGH"; "VERY HIGH"]
      ∧ Recommendation.spirit rec ∈ spirits
      ∧ Spirit.complexity (Recommendation.spirit rec) = tier.
Proof.
  intros recommendations.
  assert (∀ player, is_Some (recommendations !! player)
                    ↔ player ∈ uniquePlayers plays) as Hdom.
  { intros player. unfold recommendations, getRecommendations.
    rewrite playerStep_dom. cbn [snd]. rewrite lookup_empty.
    split; [intros [?|[? ?]]; done|by left]. }
  split; [done|].
  intros player tier rec. unfold recommendationFor.
  destruct (recommendations !! player) as [tiers|] eqn:Ep; [|done].
  intros Hrec. split; [apply Hdom; rewrite Ep; eauto|].
  unfold recommendations, getRecommendations in Ep.
  eapply playerStep_keys in Ep; [by apply Ep|].
  intros ? ?. cbn [snd]. by rewrite lookup_empty.
Qed.

(** ** Order of strings *)

Lemma ascii_compare_Lt_trans (a b c : ascii) :
  Ascii.compare a b = Lt → Ascii.compare b c = Lt → Ascii.compare a c = Lt.
Proof.
  unfold Ascii.compare. rewrite !N.compare_lt_iff. lia.
Qed.

Lemma string_compare_refl (s : string) : String.compare s s = Eq.
Proof.
  induction s as [|a s IH]; simpl; [done|].
  unfold Ascii.compare. by rewrite N.compare_refl.
Qed.

Lemma string_compare_Lt_trans (s1 s2 s3 : string) :
  String.compare s1 s2 = Lt → String.compare s2 s3 = Lt →
  String.compare s1 s3 = Lt.
Proof.
  revert s2 s3. induction s1 as [|a s1 IH]; intros [|b s2] [|c s3]; simpl;
    try done.
  destruct (Ascii.compare a b) eqn:Eab; [|idtac|done].
  - apply Ascii.compare_eq_iff in Eab as ->.
    destruct (Ascii.compare b c) eqn:Ebc; [|done..]. apply IH.
  - intros _. destruct (Ascii.compare b c) eqn:Ebc; [|idtac|done].
    + apply Ascii.compare_eq_iff in Ebc as ->. by rewrite Eab.
    + by rewrite (ascii_compare_Lt_trans a b c).
Qed.

(** [a] is not above [b]. *)
Lemma str_le_trans (a b c : string) :
  str_lt b a = false → str_lt c b = false → str_lt c a = false.
Proof.
  unfold str_lt, String.ltb. intros Hba Hcb.
  destruct (String.compare c a) eqn:Eca; [done| |done]. exfalso.
  destruct (String.compare b a) eqn:Eba; [|done|].
  - apply String.compare_eq_iff in Eba as ->. by rewrite Eca in Hcb.
  - destruct (String.compare c b) eqn:Ecb; [|done|].
    + apply String.compare_eq_iff in Ecb as ->. by rewrite Eca in Eba.
    + rewrite String.compare_antisym in Eba, Ecb.
      destruct (String.compare a b) eqn:Eab; [done| |done].
      destruct (String.compare b c) eqn:Ebc; [done| |done].
      pose proof (string_compare_Lt_trans a b c Eab Ebc) as Eac.
      rewrite String.compare_antisym, Eac in Eca. done.
Qed.

Lemma str_lt_asym (a b : string) : str_lt a b = true → str_lt b a = false.
Proof.
  unfold str_lt, String.ltb. rewrite (String.compare_antisym a b).
  by destruct (String.compare b a).
Qed.

Lemma str_lt_irrefl (a : string) : str_lt a a = false.
Proof. unfold str_lt, String.ltb. by rewrite string_compare_refl. Qed.

(** ** Ties and the sort *)

Section SortTies.
Context {A : Type} (cmp : A → A → Z) (P : A → Prop) `{!∀ a, Decision (P a)}.
Hypothesis ties : ∀ a b, P a → P b → ¬ 0 < cmp a b.

Lemma sort_insert_ties x l :
  filter P (sort_insert cmp x l) = filter P (x :: l).
Proof using ties.
  induction l as [|y l IH]; simpl; [done|].
  destruct (Z.ltb_spec 0 (cmp x y)) as [Hgt|_]; [|done].
  rewrite filter_cons, IH, !filter_cons.
  destruct (decide (P y)) as [Hy|Hy]; destruct (decide (P x)) as [Hx|Hx];
    try done.
  by destruct (ties x y Hx Hy).
Qed.

(** Elements none of which compares above another keep their order. *)
Lemma js_sort_ties l : filter P (js_sort cmp l) = filter P l.
Proof using ties.
  induction l as [|x l IH]; simpl; [done|].
  by rewrite sort_insert_ties, !filter_cons, IH.
Qed.

End SortTies.

(** ** The sort projection, for every key *)

Lemma compareRows_field (key : string) (direction : Direction)
    (a b : PlayStats.t) :
  key ∈ ["spirit"; "complexity"; "source"; "image_url"] →
  let field := λ row, default "" (spiritField key (PlayStats.spirit row)) in
  compareRows (SortConfig.mk key direction) a b
  = directed direction (str_lt (field a) (field b)) (str_lt (field b) (field a)).
Proof.
  rewrite !elem_of_cons, elem_of_nil.
  by intros [->|[->|[->|[->|[]]]]].
Qed.




(** X9. Sorting by a spirit attribute orders the rows by that attribute as
    a string: non-decreasing when ascending, non-increasing when
    descending; rows with the same attribute value keep their table
    order. *)
Theorem sort_by_attribute (playStats : JsObject.t PlayStats.t) (key : string) :
  key ∈ ["spirit"; "complexity"; "source"; "image_url"] →
  let field := λ row, default "" (spiritField key (PlayStats.spirit row)) in
  let sorted := λ direction,
        sortedPlayStats playStats (Some (SortConfig.mk key direction)) in
  StronglySorted (λ a b, str_lt (field b) (field a) = false) (sorted asc)
  ∧ StronglySorted (λ a b, str_lt (field a) (field b) = false) (sorted desc)
  ∧ ∀ direction v,
      filter (λ row, field row = v) (sorted direction)
      = filter (λ row, field row = v) (JsObject.values playStats).
Proof.
  intros Hkey field sorted. unfold sorted, sortedPlayStats.
  assert (∀ direction a b,
            compareRows (SortConfig.mk key direction) a b
            = directed direction (str_lt (field a) (field b))
                (str_lt (field b) (field a))) as Hcmp.
  { intros direction a b. by apply compareRows_field. }
  split; [|split].
  - apply (js_sort_sorted _ _ (λ _, True)).
    + intros a b c _ _ _ Hab Hbc. by apply (str_le_trans _ (field b)).
    + intros a b _ _. rewrite Hcmp. unfold directed.
      destruct (str_lt (field a) (field b)) eqn:Hlt; [lia|]. done.
    + intros a b _ _. rewrite Hcmp. unfold directed.
      destruct (str_lt (field a) (field b)) eqn:Hlt; [by intros _; apply str_lt_asym|].
      destruct (str_lt (field b) (field a)); [lia|done].
    + by apply Forall_forall.
  - apply (js_sort_sorted _ _ (λ _, True)).
    + intros a b c _ _ _ Hab Hbc. by apply (str_le_trans _ (field b)).
    + intros a b _ _. rewrite Hcmp. unfold directed.
      destruct (str_lt (field a) (field b)) eqn:Hlt; [by intros _; apply str_lt_asym|].
      destruct (str_lt (field b) (field a)); [lia|lia].
    + intros a b _ _. rewrite Hcmp. unfold directed.
      destruct (str_lt (field a) (field b)) eqn:Hlt; [lia|]. done.
    + by apply Forall_forall.
  - intros direction v. apply js_sort_ties.
    intros a b Ha Hb. rewrite Hcmp, Ha, Hb, str_lt_irrefl. unfold directed. lia.
Qed.

Lemma sort_by_attribute_witness :
  let playStats :=
    buildPlayStats Host.new_Date Sample.sortLog
      [Sample.river; Sample.thunder; Sample.jagged] in
  StronglySorted
    (λ a b, str_lt (Spirit.spirit (PlayStats.spirit b))
                   (Spirit.spirit (PlayStats.spirit a)) = false)
    (sortedPlayStats playStats (Some (SortConfig.mk "spirit" asc))).
Proof.
  destruct (sort_by_attribute
              (buildPlayStats Host.new_Date Sample.sortLog
                 [Sample.river; Sample.thunder; Sample.jagged]) "spirit")
    as (Hasc & _ & _).
  - evaluate.
  - exact Hasc.
Defined.

(** X6. Sorting by a participant's play count or last-played date, in
    either direction, keeps rows with equal values in their table order. *)
Theorem equal_values_keep_table_order (playStats : JsObject.t PlayStats.t)
    (p : string) (direction : Direction) :
  p = "A" ∨ p = "E" →
  let count := λ row,
        from_option PlayerStats.plays 0%nat (PlayStats.playerStats row !! p) in
  let date := λ row,
        default "" (PlayStats.playerStats row !! p ≫= PlayerStats.lastPlayed) in
  (∀ k,
     filter (λ row, count row = k)
       (sortedPlayStats playStats
          (Some (SortConfig.mk ("player-" +:+ p +:+ "-plays") direction)))
     = filter (λ row, count row = k) (JsObject.values playStats))
  ∧ ∀ d,
      filter (λ row, date row = d)
        (sortedPlayStats playStats
           (Some (SortConfig.mk ("player-" +:+ p +:+ "-lastPlayed") direction)))
      = filter (λ row, date row = d) (JsObject.values playStats).
Proof.
  intros Hp count date. unfold sortedPlayStats. split.
  - intros k. apply js_sort_ties. intros a b Ha Hb.
    rewrite compareRows_plays by done. fold (count a). fold (count b).
    rewrite Ha, Hb, Nat.ltb_irrefl. unfold directed. lia.
  - intros d. apply js_sort_ties. intros a b Ha Hb.
    rewrite compareRows_lastPlayed by done. fold (date a). fold (date b).
    rewrite Ha, Hb, str_lt_irrefl. unfold directed. lia.
Qed.

Lemma equal_values_keep_table_order_witness :
  let playStats :=
    buildPlayStats Host.new_Date Sample.sortLog
      [Sample.river; Sample.thunder; Sample.jagged] in
  let count := λ row,
        from_option PlayerStats.plays 0%nat (PlayStats.playerStats row !! "E") in
  filter (λ row, count row = 0%nat)
    (sortedPlayStats playStats (Some (SortConfig.mk "player-E-plays" desc)))
  = filter (λ row, count row = 0%nat) (JsObject.values playStats).
Proof.
  destruct (equal_values_keep_table_order
              (buildPlayStats Host.new_Date Sample.sortLog
                 [Sample.river; Sample.thunder; Sample.jagged]) "E" desc)
    as [Hcount _].
  - by right.
  - exact (Hcount 0%nat).
Defined.

(** ** Counting entries *)





Section TotalFacts.
Variable new_Date : string → option Z.



End TotalFacts.



(** ** Longer logs *)

Lemma contributions_app c p (plays more : list Play.t) :
  contributions c p (plays ++ more)
  = contributions c p plays ++ contributions c p more.
Proof. unfold contributions. apply flat_map_app. Qed.

Lemma contributions_unmentioned c p (plays : list Play.t) :
  p ∉ mentioned plays → contributions c p plays = [].
Proof.
  intros Hp. apply contributions_nil. intros play Hplay He. apply Hp.
  apply elem_of_mentioned. by exists play, (Player.mk p c).
Qed.

Section LongerLogs.
Variable new_Date : string → option Z.

(** The cell of a catalog spirit and of A or E, read with the defaults the
    component uses for a missing cell, is the fold of the pair's dates. *)
Lemma cell_or_zero plays spirits c p :
  c ∈ map Spirit.spirit spirits → p = "A" ∨ p = "E" →
  let stats := buildPlayStats new_Date plays spirits in
  let st := counted new_Date (contributions c p plays) zeroPlayerStats in
  cellPlays stats c p = PlayerStats.plays st
  ∧ cellLastPlayed stats c p = PlayerStats.lastPlayed st.
Proof.
  intros Hc Hp stats st. unfold cellPlays, cellLastPlayed, stats.
  rewrite cell_buildPlayStats.
  destruct (decide (p ∈ uniquePlayers plays)) as [Hin|Hout].
  - by rewrite decide_True.
  - rewrite decide_False by tauto. unfold st.
    rewrite contributions_unmentioned; [done|].
    intros Hm. apply Hout, elem_of_uniquePlayers. split; [done|].
    by apply elem_of_mentioned.
Qed.

Lemma latest_app (ds ds' : list string) :
  latest new_Date (ds ++ ds')
  = Date_max (latest new_Date ds) (latest new_Date ds').
Proof.
  unfold latest. induction ds as [|d ds IH]; simpl.
  - by destruct (foldr _ _ _).
  - by rewrite IH, Date_max_assoc.
Qed.

Lemma cellTime_latest plays spirits c p :
  validLog new_Date plays →
  c ∈ map Spirit.spirit spirits → p = "A" ∨ p = "E" →
  cellLastPlayed (buildPlayStats new_Date plays spirits) c p ≫= new_Date
  = latest new_Date (contributions c p plays).
Proof.
  intros Hvalid Hc Hp.
  destruct (cell_or_zero plays spirits c p Hc Hp) as [_ ->].
  destruct (counted_last new_Date (contributions c p plays) zeroPlayerStats)
    as (_ & _ & ->); [by apply validLog_contributions|done|done].
Qed.

End LongerLogs.

(** X13. Adding records at the end of a log only adds: for a catalog spirit
    and for A or E, the count grows by the number of new entries of the pair,
    the last-played time becomes the later of the old one and the latest new
    one, and so it never moves back. *)
Theorem later_records_only_add (new_Date : string → option Z)
    (plays more : list Play.t) (spirits : list Spirit.t) (c p : string) :
  validLog new_Date plays → validLog new_Date more →
  c ∈ map Spirit.spirit spirits → p = "A" ∨ p = "E" →
  let before := buildPlayStats new_Date plays spirits in
  let after := buildPlayStats new_Date (plays ++ more) spirits in
  cellPlays after c p
  = (cellPlays before c p + length (contributions c p more))%nat
  ∧ cellLastPlayed after c p ≫= new_Date
    = Date_max (cellLastPlayed before c p ≫= new_Date)
               (latest new_Date (contributions c p more))
  ∧ ∀ t, cellLastPlayed before c p ≫= new_Date = Some t →
         ∃ t', cellLastPlayed after c p ≫= new_Date = Some t' ∧ t ≤ t'.
Proof.
  intros Hplays Hmore Hc Hp before after.
  assert (cellLastPlayed after c p ≫= new_Date
          = Date_max (cellLastPlayed before c p ≫= new_Date)
                     (latest new_Date (contributions c p more))) as Htime.
  { unfold after, before. rewrite !cellTime_latest; try done.
    - by rewrite contributions_app, latest_app.
    - unfold validLog. by apply Forall_app. }
  split; [|split; [done|]].
  - destruct (cell_or_zero new_Date plays spirits c p Hc Hp) as [Hb _].
    destruct (cell_or_zero new_Date (plays ++ more) spirits c p Hc Hp) as [Ha _].
    fold before in Hb. fold after in Ha. rewrite Ha, Hb.
    rewrite !plays_counted, contributions_app, length_app. simpl. lia.
  - intros t Ht. rewrite Htime, Ht.
    destruct (latest new_Date _) as [t'|]; simpl.
    + exists (Z.max t t'). split; [done|lia].
    + exists t. split; [done|lia].
Qed.

Lemma later_records_only_add_witness :
  cellPlays
    (buildPlayStats Host.new_Date (Sample.favorites ++ Sample.favorites)
       [Sample.river; Sample.jagged]) "Jagged Earth" "E"
  = (cellPlays
       (buildPlayStats Host.new_Date Sample.favorites
          [Sample.river; Sample.jagged]) "Jagged Earth" "E"
     + length (contributions "Jagged Earth" "E" Sample.favorites))%nat.
Proof.
  apply (later_records_only_add Host.new_Date Sample.favorites Sample.favorites
           [Sample.river; Sample.jagged] "Jagged Earth" "E").
  - valid_log.
  - valid_log.
  - evaluate.
  - by right.
Defined.

(** ** The rows of the table *)




Section Rows.
Variable new_Date : string → option Z.


End Rows.



(** ** The adversary table, entry by entry *)

Lemma last_filter_is_Some {A} (P : A → Prop) `{!∀ x, Decision (P x)}
    (l : list A) :
  is_Some (last (filter P l)) ↔ ∃ x, x ∈ l ∧ P x.
Proof.
  split.
  - intros [x Hx]. apply last_Some_elem_of, list_elem_of_filter in Hx.
    exists x. tauto.
  - intros (x & Hx & HP).
    destruct (last (filter P l)) as [y|] eqn:Hlast; [by eexists|].
    apply last_None in Hlast.
    assert (x ∈ filter P l) as Hin by (by apply list_elem_of_filter).
    rewrite Hlast in Hin. by apply elem_of_nil in Hin.
Qed.

Section AdversaryTable.
Variable new_Date : string → option Z.

Lemma levelCell_countedAdversary ds st :
  levelCell (countedAdversary new_Date ds st)
  = counted new_Date ds (levelCell st)
  ∧ AdversaryLevelStats.difficulty (countedAdversary new_Date ds st)
    = AdversaryLevelStats.difficulty st.
Proof.
  unfold countedAdversary, counted. revert st.
  induction ds as [|d ds IH]; intros st; simpl; [done|].
  destruct (IH (countAdversaryPlay new_Date d st)) as [-> ->]. done.
Qed.

(** One record changes one entry at most. *)
Lemma level_recordAdversaryPlay stats play a l :
  recordAdversaryPlay new_Date stats play !! a ≫= (.!! l)
  = (if decide (truthy (Play.adversary play)
                ∧ Play.adversary play = Some a
                ∧ default 0 (Play.level play) = l)
     then countAdversaryPlay new_Date (Play.date play) else id)
    <$> (stats !! a ≫= (.!! l)).
Proof.
  unfold recordAdversaryPlay.
  destruct (Play.adversary play) as [a'|] eqn:Ha'.
  2:{ rewrite decide_False by (by intros (_ & ? & _)).
      by destruct (stats !! a ≫= _). }
  destruct (truthy (Some a')) eqn:Ht.
  2:{ rewrite decide_False by (by intros (? & _)).
      by destruct (stats !! a ≫= _). }
  destruct (decide (a' = a)) as [->|Hne].
  2:{ rewrite decide_False by (intros (_ & [= ?] & _); done).
      destruct (stats !! a') as [levels|]; [|by destruct (stats !! a ≫= _)].
      destruct (levels !! _); [|by destruct (stats !! a ≫= _)].
      rewrite lookup_insert_ne by done. by destruct (stats !! a ≫= _). }
  destruct (stats !! a) as [levels|] eqn:Hlevels; simpl.
  2:{ rewrite Hlevels. simpl. done. }
  destruct (decide (default 0 (Play.level play) = l)) as [<-|Hl].
  - rewrite decide_True by done.
    destruct (levels !! _) as [st|] eqn:Hst.
    + rewrite lookup_insert_eq. simpl. by rewrite lookup_insert_eq.
    + rewrite Hlevels. simpl. by rewrite Hst.
  - rewrite decide_False by (intros (_ & _ & ?); done).
    destruct (levels !! default 0 _) as [st|] eqn:Hst.
    + rewrite lookup_insert_eq. simpl. rewrite lookup_insert_ne by done.
      by destruct (levels !! l).
    + rewrite Hlevels. simpl. by destruct (levels !! l).
Qed.

Lemma level_foldl_recordAdversaryPlay stats plays a l :
  foldl (recordAdversaryPlay new_Date) stats plays !! a ≫= (.!! l)
  = countedAdversary new_Date (adversaryDates a l plays)
    <$> (stats !! a ≫= (.!! l)).
Proof.
  unfold adversaryDates. revert stats.
  induction plays as [|play plays IH]; intros stats; simpl.
  - by destruct (stats !! a ≫= _).
  - rewrite IH, level_recordAdversaryPlay, filter_cons.
    case_decide; destruct (stats !! a ≫= _); done.
Qed.

End AdversaryTable.

Lemma lookup_initAdversaryStats_last adversaries a :
  initAdversaryStats adversaries !! a
  = initLevelStats <$> catalogEntry a adversaries.
Proof.
  unfold initAdversaryStats, catalogEntry.
  induction adversaries as [|adv adversaries IH] using rev_ind; [done|].
  rewrite foldl_app, filter_app, last_app. simpl. rewrite filter_cons.
  destruct (decide (Adversary.Adversary adv = a)) as [<-|Hne]; simpl.
  - by rewrite lookup_insert_eq.
  - by rewrite lookup_insert_ne.
Qed.

Lemma lookup_initLevelStats adv l :
  initLevelStats adv !! l
  = AdversaryLevelStats.mk 0 None <$> tableDifficulty adv l.
Proof.
  unfold initLevelStats, tableDifficulty.
  induction (Adversary.Levels adv) as [|lvl levels IH] using rev_ind.
  - simpl. case_decide as Hl.
    + subst. by rewrite lookup_singleton_eq.
    + by rewrite lookup_singleton_ne.
  - rewrite foldl_app, filter_app, last_app. simpl. rewrite filter_cons.
    destruct (decide (Level.Level lvl = l)) as [<-|Hne]; simpl.
    + by rewrite lookup_insert_eq.
    + by rewrite lookup_insert_ne.
Qed.

Lemma tableDifficulty_is_Some adv l :
  is_Some (tableDifficulty adv l)
  ↔ l = 0 ∨ l ∈ map Level.Level (Adversary.Levels adv).
Proof.
  unfold tableDifficulty.
  pose proof (last_filter_is_Some (λ lvl, Level.Level lvl = l)
                (Adversary.Levels adv)) as Hlast.
  assert ((∃ x, x ∈ Adversary.Levels adv ∧ Level.Level x = l)
          ↔ l ∈ map Level.Level (Adversary.Levels adv)) as Hmap.
  { rewrite list_elem_of_fmap. split; intros (x & ? & ?); by exists x. }
  rewrite Hmap in Hlast.
  destruct (last _) as [lvl|].
  - split; [intros _; right; apply Hlast; by eexists|by eexists].
  - case_decide.
    + split; [by left|by eexists].
    + split; [by intros [? ?]|].
      intros [?|Hin]; [done|]. by apply Hlast in Hin as [? ?].
Qed.

(** The entry of a name and a level: the entry of the last catalog entry of
    that name, with the dates that count for it folded in. *)
Lemma level_buildAdversaryStats new_Date plays adversaries a l :
  buildAdversaryStats new_Date plays adversaries !! a ≫= (.!! l)
  = adv ← catalogEntry a adversaries;
    d ← tableDifficulty adv l;
    Some (countedAdversary new_Date (adversaryDates a l plays)
            (AdversaryLevelStats.mk 0 None d)).
Proof.
  unfold buildAdversaryStats.
  rewrite level_foldl_recordAdversaryPlay, lookup_initAdversaryStats_last.
  destruct (catalogEntry a adversaries) as [adv|]; simpl; [|done].
  rewrite lookup_initLevelStats. by destruct (tableDifficulty adv l).
Qed.

(** X2. An entry of the adversary table counts the records that name the
    adversary with a truthy name at the entry's level, a record without a
    level counting for level 0; for a log of valid dates its last-played date
    carries the latest of their times, and it is absent exactly when there is
    no such record. *)
Theorem adversary_level_counts (new_Date : string → option Z)
    (plays : list Play.t) (adversaries : list Adversary.t) (a : string)
    (l : Z) (st : AdversaryLevelStats.t) :
  buildAdversaryStats new_Date plays adversaries !! a ≫= (.!! l) = Some st →
  let dates := adversaryDates a l plays in
  AdversaryLevelStats.plays st = length dates
  ∧ (validLog new_Date plays →
     AdversaryLevelStats.lastPlayed st ≫= new_Date = latest new_Date dates
     ∧ (AdversaryLevelStats.lastPlayed st = None ↔ dates = [])).
Proof.
  rewrite level_buildAdversaryStats. intros Hst dates.
  destruct (catalogEntry a adversaries) as [adv|]; simpl in Hst; [|done].
  destruct (tableDifficulty adv l) as [d|]; simpl in Hst; [|done].
  injection Hst as <-. fold dates.
  destruct (levelCell_countedAdversary new_Date dates
              (AdversaryLevelStats.mk 0 None d)) as [Hcell _].
  set (st := countedAdversary _ _ _) in *.
  change (AdversaryLevelStats.plays st) with (PlayerStats.plays (levelCell st)).
  change (AdversaryLevelStats.lastPlayed st)
    with (PlayerStats.lastPlayed (levelCell st)).
  rewrite Hcell. split; [by rewrite plays_counted|].
  intros Hvalid.
  assert (Forall (validDate new_Date) dates) as Hdates.
  { apply Forall_forall. intros d' Hd'. unfold dates, adversaryDates in Hd'.
    apply list_elem_of_fmap in Hd' as (play & -> & Hplay).
    apply list_elem_of_filter in Hplay as [_ Hplay].
    by apply (proj1 (Forall_forall _ _) Hvalid). }
  destruct (counted_last new_Date dates
              (levelCell (AdversaryLevelStats.mk 0 None d)) Hdates I)
    as (Hgood & Hwhich & Htime).
  split; [done|]. split.
  - intros Hnone. destruct dates as [|d' ds]; [done|]. exfalso.
    rewrite Hnone in Htime. simpl in Htime.
    apply Forall_cons in Hdates as [[_ [t Ht]] _].
    rewrite Ht in Htime. by destruct (latest new_Date ds).
  - by intros ->.
Qed.

Lemma adversary_level_counts_witness :
  ∃ st,
    buildAdversaryStats Host.new_Date SampleAdversaries.campaign
      [SampleAdversaries.england; SampleAdversaries.sweden]
      !! "England" ≫= (.!! 0) = Some st
    ∧ AdversaryLevelStats.plays st
      = length (adversaryDates "England" 0 SampleAdversaries.campaign).
Proof.
  eexists. split; [vm_compute; reflexivity|].
  apply (adversary_level_counts Host.new_Date SampleAdversaries.campaign
           [SampleAdversaries.england; SampleAdversaries.sweden] "England" 0).
  vm_compute. reflexivity.
Defined.

(** X3. The table has an entry for a name and a level exactly when the last
    catalog entry of that name declares the level or the level is 0; the
    entry's difficulty is that of the last declared entry of the level, else
    the base difficulty, whatever the log. *)
Theorem adversary_level_difficulty (new_Date : string → option Z)
    (plays : list Play.t) (adversaries : list Adversary.t) (a : string)
    (l : Z) :
  let entry := buildAdversaryStats new_Date plays adversaries !! a ≫= (.!! l) in
  (is_Some entry
   ↔ ∃ adv, catalogEntry a adversaries = Some adv
            ∧ (l = 0 ∨ l ∈ map Level.Level (Adversary.Levels adv)))
  ∧ ∀ st adv, entry = Some st → catalogEntry a adversaries = Some adv →
      (∀ lvl, last (filter (λ lvl, Level.Level lvl = l) (Adversary.Levels adv))
              = Some lvl →
              AdversaryLevelStats.difficulty st = Level.Difficulty lvl)
      ∧ (l ∉ map Level.Level (Adversary.Levels adv) →
         AdversaryLevelStats.difficulty st = Adversary.Base_Difficulty adv).
Proof.
  intros entry. unfold entry. rewrite level_buildAdversaryStats.
  pose proof (λ adv, tableDifficulty_is_Some adv l) as Hdom.
  split.
  - destruct (catalogEntry a adversaries) as [adv|]; simpl.
    + specialize (Hdom adv). destruct (tableDifficulty adv l) as [d|]; simpl.
      * split; [|by eexists]. intros _. exists adv. split; [done|].
        apply Hdom. by eexists.
      * split; [by intros [? ?]|]. intros (adv' & [= <-] & Hl).
        by apply Hdom in Hl as [? ?].
    + split; [by intros [? ?]|]. by intros (? & ? & _).
  - intros st adv Hst Hadv. rewrite Hadv in Hst. simpl in Hst.
    destruct (tableDifficulty adv l) as [d|] eqn:Hd; simpl in Hst; [|done].
    injection Hst as <-.
    destruct (levelCell_countedAdversary new_Date (adversaryDates a l plays)
                (AdversaryLevelStats.mk 0 None d)) as [_ ->]. simpl.
    unfold tableDifficulty in Hd. split.
    + intros lvl Hlvl. rewrite Hlvl in Hd. by injection Hd as <-.
    + intros Hnot.
      destruct (last _) as [lvl|] eqn:Hlast.
      * exfalso. apply Hnot.
        apply last_Some_elem_of, list_elem_of_filter in Hlast as [<- Hin].
        by apply list_elem_of_fmap_2.
      * case_decide; [by injection Hd as <-|done].
Qed.

(** ** The recommended level, read off the log *)

Lemma playedAt_buildAdversaryStats new_Date plays adversaries adv i :
  catalogEntry (Adversary.Adversary adv) adversaries = Some adv →
  playedAt (buildAdversaryStats new_Date plays adversaries
              !! Adversary.Adversary adv) i
  ↔ (i = 0 ∨ i ∈ map Level.Level (Adversary.Levels adv))
    ∧ adversaryDates (Adversary.Adversary adv) i plays ≠ [].
Proof.
  intros Hadv. unfold playedAt.
  rewrite level_buildAdversaryStats, Hadv. simpl.
  rewrite <- tableDifficulty_is_Some.
  set (dates := adversaryDates _ _ _).
  assert (∀ d, AdversaryLevelStats.plays
                 (countedAdversary new_Date dates
                    (AdversaryLevelStats.mk 0 None d)) = length dates) as Hn.
  { intros d.
    destruct (levelCell_countedAdversary new_Date dates
                (AdversaryLevelStats.mk 0 None d)) as [Hcell _].
    change (AdversaryLevelStats.plays ?st)
      with (PlayerStats.plays (levelCell st)).
    rewrite Hcell. by rewrite plays_counted. }
  destruct (tableDifficulty adv i) as [d|]; simpl.
  - split.
    + intros (st & [= <-] & Hpos). rewrite Hn in Hpos.
      split; [by eexists|]. intros Hnil. rewrite Hnil in Hpos. simpl in Hpos. lia.
    + intros [_ Hne]. eexists. split; [done|]. rewrite Hn.
      destruct dates; [done|simpl; lia].
  - split; [by intros (? & ? & _)|]. by intros [[? ?] _].
Qed.

(** X4. For a catalog entry that is the last of its name, the recommended
    level is one above the highest level from 0 to 6 that the entry declares
    (or that is 0) and that the log has a counting record for, capped at 6;
    it is 0 when the log has no such record. *)
Theorem recommended_level_from_log (new_Date : string → option Z)
    (toLocaleDateString : Z → string) (plays : list Play.t)
    (adversaries : list Adversary.t) (adv : Adversary.t) :
  catalogEntry (Adversary.Adversary adv) adversaries = Some adv →
  let rec :=
    adversaryRecommendationFor new_Date toLocaleDateString
      (buildAdversaryStats new_Date plays adversaries) adv in
  let fought i :=
    (i = 0 ∨ i ∈ map Level.Level (Adversary.Levels adv))
    ∧ adversaryDates (Adversary.Adversary adv) i plays ≠ [] in
  ((∀ i, 0 ≤ i ≤ 6 → ¬ fought i) ∧ AdversaryRecommendation.level rec = 0)
  ∨ ∃ h, 0 ≤ h ≤ 6 ∧ fought h
         ∧ (∀ i, 0 ≤ i ≤ 6 → fought i → i ≤ h)
         ∧ AdversaryRecommendation.level rec = Z.min (h + 1) 6.
Proof.
  intros Hadv rec fought.
  pose proof (λ i, playedAt_buildAdversaryStats new_Date plays adversaries
                     adv i Hadv) as Hplayed.
  destruct (scanLevels_highest new_Date
              (buildAdversaryStats new_Date plays adversaries
                 !! Adversary.Adversary adv)) as [[Hh Hnone]|(Hh & Hat & Hmax)].
  - left. split.
    + intros i Hi Hf. apply (Hnone i Hi). by apply Hplayed.
    + unfold rec, adversaryRecommendationFor; simpl. by rewrite Hh.
  - right. eexists. split; [exact Hh|]. split; [by apply Hplayed|].
    split; [|done]. intros i Hi Hf. apply Hmax; [done|]. by apply Hplayed.
Qed.

Lemma recommended_level_from_log_witness :
  let rec :=
    adversaryRecommendationFor Host.new_Date Host.toLocaleDateString
      (buildAdversaryStats Host.new_Date SampleAdversaries.campaign
         [SampleAdversaries.england; SampleAdversaries.sweden])
      SampleAdversaries.england in
  let fought i :=
    (i = 0 ∨ i ∈ map Level.Level (Adversary.Levels SampleAdversaries.england))
    ∧ adversaryDates "England" i SampleAdversaries.campaign ≠ [] in
  ((∀ i, 0 ≤ i ≤ 6 → ¬ fought i) ∧ AdversaryRecommendation.level rec = 0)
  ∨ ∃ h, 0 ≤ h ≤ 6 ∧ fought h
         ∧ (∀ i, 0 ≤ i ≤ 6 → fought i → i ≤ h)
         ∧ AdversaryRecommendation.level rec = Z.min (h + 1) 6.
Proof.
  apply (recommended_level_from_log Host.new_Date Host.toLocaleDateString
           SampleAdversaries.campaign
           [SampleAdversaries.england; SampleAdversaries.sweden]
           SampleAdversaries.england).
  vm_compute. reflexivity.
Defined.

(** X5. For a log of valid dates, a recommendation names level 0 exactly
    when it carries no date, and then its reason is the never-played text;
    otherwise the reason is the last-played text with the host's formatting
    of the date it carries. *)
Theorem reason_follows_the_date (new_Date : string → option Z)
    (toLocaleDateString : Z → string) (plays : list Play.t)
    (adversaries : list Adversary.t) (adv : Adversary.t) :
  validLog new_Date plays →
  let rec :=
    adversaryRecommendationFor new_Date toLocaleDateString
      (buildAdversaryStats new_Date plays adversaries) adv in
  (AdversaryRecommendation.level rec = 0
   ↔ AdversaryRecommendation.lastPlayed rec = None)
  ∧ (AdversaryRecommendation.lastPlayed rec = None →
     AdversaryRecommendation.reason rec = "Never played")
  ∧ ∀ d, AdversaryRecommendation.lastPlayed rec = Some d →
      ∃ t, new_Date d = Some t
           ∧ AdversaryRecommendation.reason rec
             = "Last played " +:+ toLocaleDateString t.
Proof.
  intros Hvalid rec.
  set (levels := buildAdversaryStats new_Date plays adversaries
                   !! Adversary.Adversary adv).
  destruct (scanLevels_mostRecent new_Date levels) as (Hgood & _ & Hnever);
    [by apply goodLevels_build|].
  pose proof (scanLevels_highest new_Date levels) as Hhigh.
  unfold rec, adversaryRecommendationFor. fold levels. simpl.
  split; [|split].
  - rewrite Hnever. destruct Hhigh as [[Hh Hnone]|(Hh & Hat & Hmax)].
    + rewrite Hh. split; [done|]. intros _. done.
    + split; [lia|]. intros Hnone. exfalso. by apply (Hnone _ Hh).
  - by intros ->.
  - intros d Hd. rewrite Hd in *. simpl in Hgood.
    destruct Hgood as [Hne [t Ht]]. exists t. split; [done|].
    unfold formatDate. rewrite (truthy_valid new_Date d) by (split; eauto).
    simpl. by rewrite Ht.
Qed.

Lemma reason_follows_the_date_witness :
  let rec :=
    adversaryRecommendationFor Host.new_Date Host.toLocaleDateString
      (buildAdversaryStats Host.new_Date SampleAdversaries.campaign
         [SampleAdversaries.england; SampleAdversaries.sweden])
      SampleAdversaries.england in
  AdversaryRecommendation.level rec = 0
  ↔ AdversaryRecommendation.lastPlayed rec = None.
Proof.
  apply (reason_follows_the_date Host.new_Date Host.toLocaleDateString
           SampleAdversaries.campaign
           [SampleAdversaries.england; SampleAdversaries.sweden]
           SampleAdversaries.england).
  valid_log.
Defined.
